(** * Streaming Tar / Zip extraction: a shallow embedding

    The development follows the JavaScript sources
    [chunk-buffer.js] (class [ChunkBuffer], the staging buffer),
    [generic-readable.js] (class [GenericReadable], the entry channel) and
    [tar-extract-stream.js] / [zip-extract-stream.js] (the two decoders).

    Conventions.
    - A Node.js [Buffer] is a [list byte]; JavaScript integers are [Z].
    - Asynchronous code is modelled by explicit state passing.  The worker of
      a decoder is the only consumer of its staging buffer and the stream
      hands it a new chunk only after the previous write callback was
      released, which [ChunkBuffer._waitForMore] does right before it
      suspends.  Hence pushes arrive exactly while the worker waits, and the
      environment of a worker is the list of push batches still to come
      ([incoming]); an exhausted list is a stalled source, on which the
      timeout of [racePromisesWithTimeout] fires. *)

From Stdlib Require Import ZArith Lia Bool Strings.Byte Ascii String.
From stdpp Require Import base list strings gmap.

Local Open Scope Z_scope.

(** ** Buffers *)

Definition Buffer := list byte.

Definition blen (b : Buffer) : Z := Z.of_nat (length b).

(** Index normalisation shared by [Buffer.prototype.subarray] and
    [TypedArray.prototype.subarray]: a negative index counts from the end,
    and the result is clamped to the buffer. *)
Definition relIndex (len i : Z) : Z :=
  if i <? 0 then Z.max (len + i) 0 else Z.min i len.

(** [buf.subarray(start, end)] *)
Definition subarray (b : Buffer) (start stop : Z) : Buffer :=
  let s := relIndex (blen b) start in
  let e := relIndex (blen b) stop in
  take (Z.to_nat (e - s)) (drop (Z.to_nat s) b).

(** [buf.subarray(start)] *)
Definition subarrayFrom (b : Buffer) (start : Z) : Buffer :=
  subarray b start (blen b).

(** [Buffer.concat(list, totalLength)]: the result has exactly
    [totalLength] bytes, truncated or zero filled. *)
Definition Buffer_concat (l : list Buffer) (totalLength : Z) : Buffer :=
  let all := concat l in
  let n := Z.to_nat totalLength in
  take n all ++ replicate (n - length all) x00.

(** ** The staging buffer: class [ChunkBuffer] *)

Module ChunkBuffer.

Record t := Mk { _chunks : list Buffer; _size : Z }.

(** [constructor]: no chunks, size 0. *)
Definition new : t := Mk [] 0.

(** [get size()] *)
Definition size (cb : t) : Z := _size cb.

(** The bytes held, in queue order. *)
Definition contents (cb : t) : Buffer := concat (_chunks cb).

(** The data-model invariant: the counter is the sum of chunk lengths. *)
Definition wf (cb : t) : Prop := _size cb = blen (contents cb).

(** [push(...chunks)] *)
Definition push (chunks : list Buffer) (cb : t) : t :=
  Mk (_chunks cb ++ chunks)
     (fold_left (fun s c => s + blen c) chunks (_size cb)).

(** [giveBack(chunk, bytesAtEndToGiveBack = 0)].  The assignment
    [this._chunks = [leftovers]] replaces the queue. *)
Definition giveBack (chunk : Buffer) (bytesAtEndToGiveBack : Z) (cb : t) : t :=
  let leftovers :=
    subarrayFrom chunk
      (if bytesAtEndToGiveBack =? 0 then 0
       else blen chunk - bytesAtEndToGiveBack) in
  Mk [leftovers] (blen leftovers).

(** [cleanup()] *)
Definition cleanup (cb : t) : t := Mk [] 0.

(** The synchronous first half of [consume]: [Some] when
    [bufferToConsume] gets defined, [None] when the call has to wait. *)
Definition consumeNow (sizeWanted : Z) (cb : t) : option (Buffer * t) :=
  if negb (sizeWanted =? 0) && negb (sizeWanted =? _size cb) then
    if sizeWanted <? _size cb then
      let buffer := Buffer_concat (_chunks cb) (_size cb) in
      let bufferToConsume := subarray buffer 0 sizeWanted in
      let leftovers := subarrayFrom buffer sizeWanted in
      Some (bufferToConsume, Mk [leftovers] (blen leftovers))
    else None
  else if negb (_size cb =? 0) then
    Some (Buffer_concat (_chunks cb) (_size cb), Mk [] 0)
  else None.

(** What an awaited [consume] resolves to. *)
Inductive result :=
| Got (b : Buffer)     (* a Buffer *)
| TimedOut             (* [false] *)
| Threw.               (* [Error('IO timeout!')] *)

Definition incoming := list (list Buffer).

(** The [do ... while (this._size < sizeWanted)] loop followed by
    [return await this.consume(sizeWanted)].  Every wake-up is one push
    batch; the recursive call passes neither [ioTimeout] nor
    [throwOnTimeout], so from then on a timeout yields [false]. *)
Fixpoint awaitMore (throwOnTimeout : bool) (sizeWanted : Z) (cb : t)
    (inc : incoming) : result * t * incoming :=
  match inc with
  | [] => (if throwOnTimeout then Threw else TimedOut, cb, [])
  | batch :: rest =>
      let cb' := push batch cb in
      if _size cb' <? sizeWanted then
        awaitMore throwOnTimeout sizeWanted cb' rest
      else
        match consumeNow sizeWanted cb' with
        | Some (b, cb'') => (Got b, cb'', rest)
        | None => awaitMore false sizeWanted cb' rest
        end
  end.

(** [consume(sizeWanted, ioTimeout, throwOnTimeout)] *)
Definition consume (sizeWanted : Z) (throwOnTimeout : bool) (cb : t)
    (inc : incoming) : result * t * incoming :=
  match consumeNow sizeWanted cb with
  | Some (b, cb') => (Got b, cb', inc)
  | None => awaitMore throwOnTimeout sizeWanted cb inc
  end.

(** A sequence of [consume] calls, each with its own [sizeWanted] and
    [throwOnTimeout], run one after the other against the same source. *)
Fixpoint consumeAll (reqs : list (Z * bool)) (cb : t) (inc : incoming)
    : list result * t * incoming :=
  match reqs with
  | [] => ([], cb, inc)
  | (n, thr) :: reqs' =>
      let '(r, cb', inc') := consume n thr cb inc in
      let '(rs, cb'', inc'') := consumeAll reqs' cb' inc' in
      (r :: rs, cb'', inc'')
  end.

(** A sequence of [push] calls. *)
Definition pushAll (batches : list (list Buffer)) (cb : t) : t :=
  fold_left (fun acc batch => push batch acc) batches cb.

(** The bytes of a list of push batches, in push order. *)
Definition flat (inc : incoming) : Buffer := concat (concat inc).

(** The bytes of the buffers a list of results carries. *)
Definition gotBytes (rs : list result) : Buffer :=
  concat (map (fun r => match r with Got b => b | _ => [] end) rs).

(** A buffer with one chunk holding the bytes 1, 2, 3. *)
Definition three_bytes : t := push [[x01; x02; x03]] new.

End ChunkBuffer.


(** ** JavaScript values and string primitives *)

(** The values a header object holds.  [JNaN] is the number [NaN],
    [JUndefined] the value of a missing property. *)
Inductive JSValue :=
| JUndefined
| JNull
| JNumber (n : Z)
| JNaN
| JString (s : string).

#[global] Instance JSValue_eq_dec : EqDecision JSValue.
Proof. solve_decision. Defined.

(** A JavaScript object used as a string-keyed map. *)
Notation JSObject := (gmap string JSValue) (only parsing).

(** Property read [o.k]. *)
Definition getProp (o : JSObject) (k : string) : JSValue :=
  default JUndefined (o !! k).

(** Object spread [{...a, ...b}]: properties of [b] win. *)
Definition spread (a b : JSObject) : JSObject := b ∪ a.

Module JSString.

Definition len (s : string) : Z := Z.of_nat (String.length s).

(** [s.indexOf(c)] for a one-character needle: first index, or -1. *)
Fixpoint indexOf (s : string) (c : ascii) : Z :=
  match s with
  | EmptyString => -1
  | String a s' =>
      if Ascii.eqb a c then 0
      else let i := indexOf s' c in if i <? 0 then -1 else i + 1
  end.

(** [s.substring(start, end)]: both indices are clamped to the string and
    swapped when [start > end]. *)
Definition substring (s : string) (start stop : Z) : string :=
  let clamp i := Z.min (Z.max i 0) (len s) in
  let a := Z.min (clamp start) (clamp stop) in
  let b := Z.max (clamp start) (clamp stop) in
  String.substring (Z.to_nat a) (Z.to_nat (b - a)) s.

(** [s.substring(start)] *)
Definition substringFrom (s : string) (start : Z) : string :=
  substring s start (len s).

(** [s.split(c)] for a one-character separator. *)
Fixpoint split (c : ascii) (s : string) : list string :=
  match s with
  | EmptyString => [EmptyString]
  | String a s' =>
      if Ascii.eqb a c then EmptyString :: split c s'
      else match split c s' with
           | [] => [String a EmptyString]
           | w :: ws => String a w :: ws
           end
  end.

(** ASCII white space skipped by [parseInt]: TAB, LF, VT, FF, CR, SP. *)
Definition isSpace (a : ascii) : bool :=
  let n := N_of_ascii a in
  ((9 <=? n) && (n <=? 13))%N || (n =? 32)%N.

Fixpoint trimStart (s : string) : string :=
  match s with
  | String a s' => if isSpace a then trimStart s' else s
  | EmptyString => EmptyString
  end.

Definition octalDigit (a : ascii) : option Z :=
  let n := N_of_ascii a in
  if ((48 <=? n) && (n <=? 55))%N then Some (Z.of_N n - 48) else None.

(** The longest prefix of octal digits, read as a number; [None] when
    there is no digit. *)
Fixpoint octalPrefix (s : string) (acc : option Z) : option Z :=
  match s with
  | EmptyString => acc
  | String a s' =>
      match octalDigit a with
      | Some d => octalPrefix s' (Some (8 * default 0 acc + d))
      | None => acc
      end
  end.

(** [parseInt(s, 8)]: leading white space, an optional sign, then the
    longest prefix of octal digits; [NaN] when there is none. *)
Definition parseInt8 (s : string) : JSValue :=
  let t := trimStart s in
  let '(sign, body) :=
    match t with
    | String "-" r => (-1, r)
    | String "+" r => (1, r)
    | _ => (1, t)
    end in
  match octalPrefix body None with
  | Some v => JNumber (sign * v)
  | None => JNaN
  end.

End JSString.

(** The value of a byte. *)
Definition byteZ (b : byte) : Z := Z.of_N (Byte.to_N b).

(** ** Decoding UTF-8

    Strings are kept in their UTF-8 encoding, one [ascii] per byte; the
    separators searched for in them (space, [=], newline, dot) are ASCII,
    so positions found in the encoded text delimit the same substrings as
    in the decoded one.  Decoding copies the well-formed sequences and
    puts U+FFFD, that is the bytes EF BF BD, for every maximal ill-formed
    part, as the decoders of [TextDecoder] and of [Buffer.toString]
    do. *)
Module Utf8.

(** U+FFFD *)
Definition replacement : list byte := [xef; xbf; xbd].

(** The decoder between two bytes: the bytes of the sequence under way,
    the number of bytes it still needs, and the bounds of the next
    one. *)
Record state := St {
  seen : list byte;
  needed : nat;
  lower : Z;
  upper : Z
}.

Definition start : state := St [] 0 0x80 0xBF.

(** A byte met when no sequence is under way: what is put out, and the
    new state. *)
Definition lead (b : byte) : list byte * state :=
  let n := byteZ b in
  if n <=? 0x7F then ([b], start)
  else if (0xC2 <=? n) && (n <=? 0xDF) then ([], St [b] 1 0x80 0xBF)
  else if (0xE0 <=? n) && (n <=? 0xEF) then
    ([], St [b] 2 (if n =? 0xE0 then 0xA0 else 0x80)
                  (if n =? 0xED then 0x9F else 0xBF))
  else if (0xF0 <=? n) && (n <=? 0xF4) then
    ([], St [b] 3 (if n =? 0xF0 then 0x90 else 0x80)
                  (if n =? 0xF4 then 0x8F else 0xBF))
  else (replacement, start).

(** One byte.  A byte that cannot continue the sequence under way ends
    it with U+FFFD and is looked at again as a first byte. *)
Definition step (st : state) (b : byte) : list byte * state :=
  match needed st with
  | O => lead b
  | S k =>
      let n := byteZ b in
      if (lower st <=? n) && (n <=? upper st) then
        match k with
        | O => (seen st ++ [b], start)
        | S _ => ([], St (seen st ++ [b]) k 0x80 0xBF)
        end
      else
        let '(out, st') := lead b in (replacement ++ out, st')
  end.

(** The bytes from a state on; a sequence cut by the end of the input
    gives U+FFFD. *)
Fixpoint run (st : state) (bytes : list byte) : list byte :=
  match bytes with
  | [] => match needed st with O => [] | S _ => replacement end
  | b :: rest => let '(out, st') := step st b in out ++ run st' rest
  end.

Definition decode (bytes : list byte) : list byte := run start bytes.

(** A leading byte order mark is dropped. *)
Definition stripBOM (bytes : list byte) : list byte :=
  match bytes with
  | b0 :: b1 :: b2 :: rest =>
      if (byteZ b0 =? 0xEF) && (byteZ b1 =? 0xBB) && (byteZ b2 =? 0xBF)
      then rest else bytes
  | _ => bytes
  end.

End Utf8.

(** [new TextDecoder('utf-8').decode(bytes)]: the byte order mark is
    dropped, ill-formed parts are replaced. *)
Definition TextDecoder_decode (b : Buffer) : string :=
  string_of_list_byte (Utf8.stripBOM (Utf8.decode b)).

(** [buffer.toString()]: ill-formed parts are replaced, a byte order
    mark is kept. *)
Definition Buffer_toString (b : Buffer) : string :=
  string_of_list_byte (Utf8.decode b).

(** ** Reading numbers out of a Buffer *)

(** Big-endian value of a run of bytes. *)
Definition beValue (l : list byte) : Z :=
  fold_left (fun acc b => 256 * acc + byteZ b) l 0.

(** Little-endian value of a run of bytes. *)
Definition leValue (l : list byte) : Z :=
  fold_right (fun b acc => byteZ b + 256 * acc) 0 l.

(** The [n] bytes at [offset]; [None] is the [RangeError] Node raises when
    the read leaves the buffer. *)
Definition bytesAt (b : Buffer) (offset : Z) (n : nat) : option (list byte) :=
  if (0 <=? offset) && (offset + Z.of_nat n <=? blen b)
  then Some (take n (drop (Z.to_nat offset) b))
  else None.

Definition readUInt8 (b : Buffer) (offset : Z) : option Z :=
  beValue <$> bytesAt b offset 1.
Definition readUInt16LE (b : Buffer) (offset : Z) : option Z :=
  leValue <$> bytesAt b offset 2.
Definition readUInt32LE (b : Buffer) (offset : Z) : option Z :=
  leValue <$> bytesAt b offset 4.
Definition readUInt32BE (b : Buffer) (offset : Z) : option Z :=
  beValue <$> bytesAt b offset 4.
Definition readBigUInt64LE (b : Buffer) (offset : Z) : option Z :=
  leValue <$> bytesAt b offset 8.
Definition readBigUInt64BE (b : Buffer) (offset : Z) : option Z :=
  beValue <$> bytesAt b offset 8.

Definition MAX_SAFE_INTEGER : Z := 2 ^ 53 - 1.
Definition MIN_SAFE_INTEGER : Z := - (2 ^ 53 - 1).

(** ** The comparison [buffer == false]

    Both decoders test a consumed value with [buffer == false].  On the
    timeout sentinel [false] the test holds.  On a Buffer, loose equality
    converts the Buffer to a primitive through [toString()] (its UTF-8
    text) and compares [Number(text)] with 0.  [numericZero] decides when
    that number is zero: the text, trimmed of white space, is empty, or a
    zero literal of the [StringNumericLiteral] grammar, or a decimal
    literal so small that it rounds to zero. *)

Module LooseEq.

Definition chars (s : string) : list ascii := list_ascii_of_string s.

(** White space of [StrWhiteSpaceChar], as UTF-8 byte codes. *)
Definition whiteSpace : list (list ascii) :=
  map (map ascii_of_N)
    [[9]; [10]; [11]; [12]; [13]; [32];
     [194; 160];                                  (* U+00A0 *)
     [225; 154; 128];                             (* U+1680 *)
     [226; 128; 128]; [226; 128; 129]; [226; 128; 130]; [226; 128; 131];
     [226; 128; 132]; [226; 128; 133]; [226; 128; 134]; [226; 128; 135];
     [226; 128; 136]; [226; 128; 137]; [226; 128; 138];
                                                  (* U+2000 .. U+200A *)
     [226; 128; 168]; [226; 128; 169];            (* U+2028, U+2029 *)
     [226; 128; 175]; [226; 129; 159];            (* U+202F, U+205F *)
     [227; 128; 128];                             (* U+3000 *)
     [239; 187; 191]]%N.                          (* U+FEFF *)

Fixpoint stripPrefix (p l : list ascii) : option (list ascii) :=
  match p, l with
  | [], _ => Some l
  | a :: p', b :: l' => if Ascii.eqb a b then stripPrefix p' l' else None
  | _ :: _, [] => None
  end.

(** One white-space character removed from the front, if there is one. *)
Definition stripOne (tokens : list (list ascii)) (l : list ascii)
    : option (list ascii) :=
  fold_right (fun tok acc =>
                match stripPrefix tok l with Some r => Some r | None => acc end)
             None tokens.

Fixpoint trimFront (fuel : nat) (tokens : list (list ascii))
    (l : list ascii) : list ascii :=
  match fuel with
  | O => l
  | S fuel' =>
      match stripOne tokens l with
      | Some r => trimFront fuel' tokens r
      | None => l
      end
  end.

Definition trim (l : list ascii) : list ascii :=
  let front := trimFront (length l) whiteSpace l in
  rev (trimFront (length front) (map (@rev ascii) whiteSpace) (rev front)).

Definition inRange (lo hi : N) (a : ascii) : bool :=
  let n := N_of_ascii a in ((lo <=? n) && (n <=? hi))%N.

Definition isDigit : ascii -> bool := inRange 48 57.
Definition isOctal : ascii -> bool := inRange 48 55.
Definition isBinary : ascii -> bool := inRange 48 49.
Definition isHex (a : ascii) : bool :=
  isDigit a || inRange 65 70 a || inRange 97 102 a.
Definition isZeroChar (a : ascii) : bool := Ascii.eqb a "0".

Fixpoint span (p : ascii -> bool) (l : list ascii)
    : list ascii * list ascii :=
  match l with
  | a :: l' => if p a then let '(x, y) := span p l' in (a :: x, y)
               else ([], l)
  | [] => ([], [])
  end.

Definition digitsValue (l : list ascii) : Z :=
  fold_left (fun acc a => 10 * acc + (Z.of_N (N_of_ascii a) - 48)) l 0.

(** [0x..], [0o..], [0b..]: at least one digit, all of them zero. *)
Definition nonDecimalZero (l : list ascii) : option bool :=
  match l with
  | "0" :: k :: ds =>
      let digit :=
        if Ascii.eqb k "x" || Ascii.eqb k "X" then Some isHex
        else if Ascii.eqb k "o" || Ascii.eqb k "O" then Some isOctal
        else if Ascii.eqb k "b" || Ascii.eqb k "B" then Some isBinary
        else None in
      match digit with
      | Some p =>
          Some (negb (bool_decide (ds = [])) && forallb p ds
                && forallb isZeroChar ds)
      | None => None
      end
  | _ => None
  end%char.

(** The exponent part: [Some 0] when absent, [None] when malformed. *)
Definition exponent (l : list ascii) : option Z :=
  match l with
  | [] => Some 0
  | e :: r =>
      if Ascii.eqb e "e" || Ascii.eqb e "E" then
        let '(sign, ds) :=
          match r with
          | "-" :: r' => (-1, r')
          | "+" :: r' => (1, r')
          | _ => (1, r)
          end%char in
        if negb (bool_decide (ds = [])) && forallb isDigit ds
        then Some (sign * digitsValue ds) else None
      else None
  end.

(** A decimal literal whose value rounds to zero as a double: all its
    digits are zero, or it is at most [2^-1075]. *)
Definition decimalZero (l : list ascii) : bool :=
  let unsigned :=
    match l with
    | "-" :: r => r
    | "+" :: r => r
    | _ => l
    end%char in
  let '(int, r1) := span isDigit unsigned in
  let '(frac, r2) :=
    match r1 with
    | "." :: r => span isDigit r
    | _ => ([], r1)
    end%char in
  let dotAlone :=
    match r1 with
    | "." :: _ => bool_decide (int = []) && bool_decide (frac = [])
    | _ => bool_decide (int = [])
    end%char in
  match exponent r2 with
  | Some e =>
      negb dotAlone
      && (let m := digitsValue (int ++ frac) in
          let scale := Z.of_nat (length frac) - e in
          (m =? 0) || ((0 <? scale) && (m * 2 ^ 1075 <=? 10 ^ scale)))
  | None => false
  end.

(** [Number(text) == 0] *)
Definition numericZero (text : string) : bool :=
  let l := trim (chars text) in
  match l with
  | [] => true
  | _ => match nonDecimalZero l with
         | Some z => z
         | None => decimalZero l
         end
  end.

End LooseEq.

(** [buffer == false] for a Buffer. *)
Definition looseEqFalse (b : Buffer) : bool :=
  LooseEq.numericZero (string_of_list_byte b).

(** ** Outcomes of asynchronous code *)

(** The errors the decoders raise. *)
Inductive Error :=
| StreamIOTimeout            (* Error('Stream IO timeout!') *)
| IOTimeout                  (* Error('IO timeout!'), from [_waitForMore] *)
| BinaryFieldTooNarrow       (* 'Binary header fields of less than 64 bits ..' *)
| BinaryValueTooLarge        (* 'Binary header value doesn't fit in 53 bits.' *)
| RangeError                 (* a Buffer read outside the buffer *)
| TypeError                  (* a method call on [false] or [undefined] *)
| InvalidZipSignature        (* 'Invalid Zip archive signature ..' *)
| NotStreamingCompatible (signature : Z)
                             (* 'Zip file not streaming compatible ..' *)
| InvalidHeaderValue.        (* 'Invalid value in Zip header.' *)

(** How an [async] function ends: it returns, it throws (its promise is
    rejected), it awaits a promise that never settles, or the model ran out
    of fuel before it ended. *)
Inductive outcome (A : Type) :=
| Return (a : A)
| Throw (e : Error)
| Pending
| OutOfFuel.
Arguments Return {A} a.
Arguments Throw {A} e.
Arguments Pending {A}.
Arguments OutOfFuel {A}.

(** State passing with outcomes. *)
Definition M (S A : Type) : Type := S -> outcome A * S.

Definition ret {S A} (a : A) : M S A := fun s => (Return a, s).

Definition bind {S A B} (m : M S A) (k : A -> M S B) : M S B :=
  fun s =>
    match m s with
    | (Return a, s') => k a s'
    | (Throw e, s') => (Throw e, s')
    | (Pending, s') => (Pending, s')
    | (OutOfFuel, s') => (OutOfFuel, s')
    end.

Definition throw {S A} (e : Error) : M S A := fun s => (Throw e, s).
Definition pending {S A} : M S A := fun s => (Pending, s).
Definition outOfFuel {S A} : M S A := fun s => (OutOfFuel, s).
Definition get {S} : M S S := fun s => (Return s, s).
Definition modify {S} (f : S -> S) : M S unit := fun s => (Return tt, f s).

(** [try { m } catch (error) { h }] *)
Definition tryCatch {S A} (m : M S A) (h : Error -> M S A) : M S A :=
  fun s =>
    match m s with
    | (Throw e, s') => h e s'
    | r => r
    end.

Notation "x <~ m ;; k" := (bind m (fun x => k))
  (at level 100, m at next level, right associativity).
Notation "m ;;; k" := (bind m (fun _ => k))
  (at level 100, right associativity).

(** ** The entry channel: class [GenericReadable]

    A channel is the sequence of what was pushed into it.  The consumer is
    taken to drain it, so that an awaited [push] resumes. *)
Inductive ChanItem :=
| Data (b : Buffer)      (* [push(buffer)] *)
| End.                   (* [push(null)] *)

Definition Channel := list ChanItem.

(** [_sizePushed] *)
Definition sizePushed (c : Channel) : Z :=
  fold_left (fun n i => match i with Data b => n + blen b | End => n end) c 0.

(** An ['entry'] event: the header, and the channel when one was emitted,
    with what was pushed into it so far. *)
Inductive Event :=
| Entry (header : JSObject) (fileStream : option Channel)
| DataDescriptor (crc32 compressedSize uncompressedSize : Z).

(** Push into the channel of the entry emitted last. *)
Definition pushLast (i : ChanItem) (evs : list Event) : list Event :=
  match reverse evs with
  | Entry h (Some c) :: before => reverse before ++ [Entry h (Some (c ++ [i]))]
  | _ => evs
  end.

(** [Math.ceil(size / 512) * 512] *)
Definition align512 (size : Z) : Z := - ((- size) / 512) * 512.

(** ** The Tar decoder: class [TarExtractStream] *)

Module Tar.

(** *** [entry(size, isOctal)], the field reader of [_parseHeader] *)

(** The closure variables [offset] and [allZero]. *)
Record cursor := Cursor { offset : Z; allZero : bool }.

(** How the scanning [for] loop of [entry] ends. *)
Inductive scanned :=
| Binary                 (* a byte with its high bit set was met *)
| Text (strSize : Z)     (* a NUL byte or the end of the field was met *)
| OutOfBuffer.           (* [readUInt8] left the buffer *)

(** [for (strSize = 0; strSize < size; strSize++)]; [todo] counts the
    iterations left. *)
Fixpoint scanField (buffer : Buffer) (offset : Z) (todo : nat)
    (strSize : Z) : scanned :=
  match todo with
  | O => Text strSize
  | S todo' =>
      match readUInt8 buffer (offset + strSize) with
      | None => OutOfBuffer
      | Some byte =>
          if negb (Z.land (Z.shiftr byte 7) 1 =? 0) then Binary
          else if byte =? 0 then Text strSize
          else scanField buffer offset todo' (strSize + 1)
      end
  end.

Definition entry (buffer : Buffer) (size : Z) (isOctal : bool)
    (c : cursor) : outcome JSValue * cursor :=
  match scanField buffer (offset c) (Z.to_nat size) 0 with
  | OutOfBuffer => (Throw RangeError, c)
  | Binary =>
      if size * 8 <? 64 then (Throw BinaryFieldTooNarrow, c)
      else
        match readBigUInt64BE buffer (offset c + size - 8) with
        | None => (Throw RangeError, c)
        | Some value =>
            if (MAX_SAFE_INTEGER <? value) || (value <? MIN_SAFE_INTEGER)
            then (Throw BinaryValueTooLarge, c)
            else (Return (JNumber value), Cursor (offset c + size) false)
        end
  | Text strSize =>
      if strSize =? 0 then (Return JNull, Cursor (offset c + size) (allZero c))
      else
        let result :=
          TextDecoder_decode
            (subarray buffer (offset c) (offset c + strSize)) in
        (Return (if isOctal then JSString.parseInt8 result
                 else JString result),
         Cursor (offset c + size) false)
  end.

(** One property of the header literal: read the field, store it. *)
Definition field (buffer : Buffer) (name : string) (size : Z)
    (isOctal : bool) (acc : JSObject) : M cursor JSObject :=
  v <~ entry buffer size isOctal ;; ret (<[name := v]> acc).

(** The header literal of [_parseHeader], before the global header is
    spread into it; the properties are evaluated in source order. *)
Definition headerFields (buffer : Buffer) : M cursor JSObject :=
  h <~ field buffer "name" 100 false ∅ ;;
  h <~ field buffer "mode" 8 true h ;;
  h <~ field buffer "uid" 8 true h ;;
  h <~ field buffer "gid" 8 true h ;;
  h <~ field buffer "size" 12 true h ;;
  h <~ field buffer "mtime" 12 true h ;;
  h <~ field buffer "checksum" 8 false h ;;
  h <~ field buffer "typeflag" 1 false h ;;
  h <~ field buffer "linkname" 100 false h ;;
  h <~ field buffer "magic" 6 false h ;;
  h <~ field buffer "version" 2 false h ;;
  h <~ field buffer "uname" 32 false h ;;
  h <~ field buffer "gname" 32 false h ;;
  h <~ field buffer "devmajor" 8 true h ;;
  h <~ field buffer "devminor" 8 true h ;;
  field buffer "prefix" 155 false h.

(** The part of [_parseHeader] after the record was consumed: [None] is
    the [null] returned for an all-zero record. *)
Definition parseRecord (globalHeader : JSObject) (buffer : Buffer)
    : outcome (option JSObject) :=
  match headerFields buffer (Cursor 0 true) with
  | (Return fields, c) =>
      let header := spread fields globalHeader in
      Return (if allZero c then None else Some header)
  | (Throw e, _) => Throw e
  | (Pending, _) => Pending
  | (OutOfFuel, _) => OutOfFuel
  end.

(** *** [_parsePaxEntries]: the loop over the lines *)

(** The body of [for (const line of text.split('\n'))].  The comparison
    of [length] with [line.length] only logs.  The assignment
    [paxEntries['__proto__'] = value] runs the setter inherited from
    [Object.prototype], which ignores a string: no property is set. *)
Definition paxLine (paxEntries : JSObject) (line : string) : JSObject :=
  let a := JSString.indexOf line " " in
  let b := JSString.indexOf line "=" in
  let key := JSString.substring line a b in
  let value := JSString.substringFrom line (b + 1) in
  if bool_decide (key = "__proto__"%string) then paxEntries
  else <[key := JString value]> paxEntries.

Definition paxOfText (text : string) : JSObject :=
  fold_left paxLine (JSString.split "010" text) ∅.

(** *** The decoder *)

Record state := State {
  _endOfTar : bool;
  _globalHeader : JSObject;
  _chunkBuffer : ChunkBuffer.t;
  source : ChunkBuffer.incoming;   (* push batches still to come *)
  clock : nat;                     (* observations of the stream made *)
  emitted : list Event             (* what [emit] was called with *)
}.

(** [new TarExtractStream()], fed by [src]. *)
Definition init (src : ChunkBuffer.incoming) : state :=
  State false ∅ ChunkBuffer.new src 0 [].

Definition setBuffer (cb : ChunkBuffer.t) (src : ChunkBuffer.incoming)
    (s : state) : state :=
  State (_endOfTar s) (_globalHeader s) cb src (clock s) (emitted s).

Definition setGlobalHeader (g : JSObject) (s : state) : state :=
  State (_endOfTar s) g (_chunkBuffer s) (source s) (clock s) (emitted s).

Definition setEmitted (evs : list Event) (s : state) : state :=
  State (_endOfTar s) (_globalHeader s) (_chunkBuffer s) (source s)
        (clock s) evs.

Definition tick (s : state) : state :=
  State (_endOfTar s) (_globalHeader s) (_chunkBuffer s) (source s)
        (S (clock s)) (emitted s).

Definition endTar (s : state) : state :=
  State true (_globalHeader s) (ChunkBuffer.cleanup (_chunkBuffer s))
        (source s) (clock s) (emitted s).

(** [this.emit('entry', ...)] *)
Definition emit (e : Event) : M state unit :=
  modify (fun s => setEmitted (emitted s ++ [e]) s).

(** [fileStream.push(item)] on the channel emitted last. *)
Definition fileStreamPush (i : ChanItem) : M state unit :=
  modify (fun s => setEmitted (pushLast i (emitted s)) s).

(** [await this._chunkBuffer.consume(sizeWanted)] followed by
    [if (buffer == false) throw Error('Stream IO timeout!')]. *)
Definition consumeOrThrow (sizeWanted : Z) : M state Buffer :=
  fun s =>
    match ChunkBuffer.consume sizeWanted false (_chunkBuffer s) (source s) with
    | (ChunkBuffer.Got b, cb, src) =>
        if looseEqFalse b then (Throw StreamIOTimeout, setBuffer cb src s)
        else (Return b, setBuffer cb src s)
    | (ChunkBuffer.TimedOut, cb, src) =>
        (Throw StreamIOTimeout, setBuffer cb src s)
    | (ChunkBuffer.Threw, cb, src) =>
        (Throw IOTimeout, setBuffer cb src s)
    end.

(** [_parseHeader] *)
Definition _parseHeader : M state (option JSObject) :=
  buffer <~ consumeOrThrow 512 ;;
  fun s => (parseRecord (_globalHeader s) buffer, s).

Section Decoder.

(** What the decoder observes of the [Writable] it extends, at its
    n-th observation: [this.writableLength] and [this.writableEnded]. *)
Variable writableLength : nat -> Z.
Variable writableEnded : nat -> bool.

(** [Number(s)] for a string [s]: [None] is [NaN]. *)
Variable stringToNumber : string -> option Z.

(** The numeric value of [header.size]; [None] is [NaN]. *)
Definition toNumber (v : JSValue) : option Z :=
  match v with
  | JUndefined => None
  | JNull => Some 0
  | JNumber n => Some n
  | JNaN => None
  | JString s => stringToNumber s
  end.

(** [_parsePaxEntries(size)].  A [NaN] size makes [consume] take what
    is buffered, as a zero size does, and [subarray(0, NaN)] is
    empty. *)
Definition _parsePaxEntries (size : option Z) : M state JSObject :=
  let bufferSize := align512 <$> size in
  buffer <~ consumeOrThrow (default 0 bufferSize) ;;
  let text := TextDecoder_decode (subarray buffer 0 (default 0 size)) in
  ret (paxOfText text).

(** The [while (bytesToConsume)] loop of [_pipeFileStream]. *)
Fixpoint pipeLoop (fuel : nat) (bytesToPush bytesToConsume : Z)
    : M state unit :=
  if bytesToConsume =? 0 then ret tt
  else
    match fuel with
    | O => outOfFuel
    | S fuel' =>
        s <~ get ;;
        modify tick ;;;
        let available :=
          ChunkBuffer.size (_chunkBuffer s) + writableLength (clock s) in
        buffer <~ consumeOrThrow
                    (if bytesToConsume <=? available then bytesToConsume
                     else available) ;;
        let bytesToConsume' := bytesToConsume - blen buffer in
        if negb (bytesToPush =? 0) then
          let bufferToPush := subarray buffer 0 bytesToPush in
          fileStreamPush (Data bufferToPush) ;;;
          let bytesToPush' := bytesToPush - blen bufferToPush in
          (if bytesToPush' =? 0 then fileStreamPush End else ret tt) ;;;
          pipeLoop fuel' bytesToPush' bytesToConsume'
        else pipeLoop fuel' bytesToPush bytesToConsume'
    end.

(** [_pipeFileStream(fileStream, size)]: with a [NaN] size the loop
    condition is false from the start. *)
Definition _pipeFileStream (fuel : nat) (size : option Z) : M state unit :=
  match size with
  | Some n => pipeLoop fuel n (align512 n)
  | None => ret tt
  end.

(** [header.linkname == null] *)
Definition isNullish (v : JSValue) : bool :=
  match v with
  | JUndefined | JNull => true
  | _ => false
  end.

(** The [switch (header.typeflag)] of [_worker]: for ['g'] and ['x']
    the PAX records are read, stored as the global header for ['g'],
    and spread over the header that follows. *)
Definition withPax (header : JSObject) : M state JSObject :=
  let typeflag := getProp header "typeflag" in
  if bool_decide (typeflag = JString "g")
     || bool_decide (typeflag = JString "x") then
    paxEntries <~ _parsePaxEntries (toNumber (getProp header "size")) ;;
    (if bool_decide (typeflag = JString "g")
     then modify (setGlobalHeader paxEntries) else ret tt) ;;;
    next <~ _parseHeader ;;
    ret (spread (default ∅ next) paxEntries)
  else ret header.

(** The body of the [while] loop of [_worker]; [true] when the worker
    returns from inside it. *)
Definition workerBody (fuel : nat) : M state bool :=
  header <~ _parseHeader ;;
  match header with
  | None => modify endTar ;;; ret true
  | Some header =>
      header <~ withPax header ;;
      (if isNullish (getProp header "linkname") then
         emit (Entry header (Some [])) ;;;
         _pipeFileStream fuel (toNumber (getProp header "size"))
       else emit (Entry header None)) ;;;
      ret false
  end.

(** [_worker]: [while (!this.writableEnded) { ... }] *)
Fixpoint _worker (fuel : nat) : M state unit :=
  match fuel with
  | O => outOfFuel
  | S fuel' =>
      s <~ get ;;
      modify tick ;;;
      if writableEnded (clock s) then ret tt
      else
        exit <~ workerBody fuel ;;
        if exit : bool then ret tt else _worker fuel'
  end.

End Decoder.

End Tar.

(** ** The Zip decoder: class [ZipExtractStream] *)

Definition localFileHeaderSignature : Z := 0x504B0304.
Definition centralDirectoryFileHeaderSignature : Z := 0x504B0102.
Definition dataDescriptorSignature : Z := 0x504B0708.

(** [readBitField(fromValue, template)] for a safe integer [fromValue]:
    the fields of the template take their bit sizes' worth of bits, least
    significant bits first.  A bit size above 32 throws; the model has one
    error for every throw of this function. *)
Module BitField.

(** The inner [for] loop: [result |= 1 << resultBitIndex] for every set
    bit, then [result >>> 0]. *)
Fixpoint bits (fromValue valueBitIndex : Z) (todo : nat)
    (resultBitIndex result : Z) : Z :=
  match todo with
  | O => result mod 2 ^ 32
  | S todo' =>
      let result' :=
        if Z.testbit fromValue valueBitIndex
        then Z.lor result (Z.shiftl 1 resultBitIndex) else result in
      bits fromValue (valueBitIndex + 1) todo' (resultBitIndex + 1) result'
  end.

Fixpoint fields (fromValue valueBitIndex : Z) (template : list (string * Z))
    : outcome (list (string * Z)) :=
  match template with
  | [] => Return []
  | (name, bitSize) :: rest =>
      if 32 <? bitSize then Throw InvalidHeaderValue
      else
        match fields fromValue (valueBitIndex + Z.max bitSize 0) rest with
        | Return l =>
            Return ((name, bits fromValue valueBitIndex
                             (Z.to_nat bitSize) 0 0) :: l)
        | r => r
        end
  end.

Definition readBitField (fromValue : Z) (template : list (string * Z))
    : outcome (list (string * Z)) :=
  if (MAX_SAFE_INTEGER <? fromValue) || (fromValue <? MIN_SAFE_INTEGER)
  then Throw InvalidHeaderValue
  else fields fromValue 0 template.

Definition generalPurposeFlags : list (string * Z) :=
  [("encrypted", 1); ("compressionOption", 2); ("dataDescriptor", 1);
   ("enhancedDeflation", 1); ("compressedPatchedData", 1);
   ("strongEncryption", 1); ("unused", 4); ("languageEncoding", 1);
   ("reserved", 1); ("maskedHeaderValues", 1)]%string.

Definition timestampFlags : list (string * Z) :=
  [("mTimeIsPresent", 1); ("aTimeIsPresent", 1);
   ("cTimeIsPresent", 1)]%string.

(** Spread of the decoded fields into an object. *)
Definition assign (l : list (string * Z)) (o : JSObject) : JSObject :=
  fold_left (fun acc kv => <[kv.1 := JNumber kv.2]> acc) l o.

End BitField.

(** The raw-deflate decompressor [zlib.createInflateRaw()], as far as the
    decoder sees it. *)
Record WriteResult (St : Type) := MkWrite {
  next : St;                 (* the decompressor after the write *)
  output : list Buffer;      (* the ['data'] events the write causes *)
  ended : bool;              (* whether ['end'] is emitted *)
  failed : bool              (* whether the write callback gets an error *)
}.
Arguments MkWrite {St}.
Arguments next {St}.
Arguments output {St}.
Arguments ended {St}.
Arguments failed {St}.

Record Inflate := MkInflate {
  inflateState : Type;
  createInflateRaw : inflateState;
  write : inflateState -> Buffer -> WriteResult inflateState;
  bytesWritten : inflateState -> Z
}.

Module Zip.

Record state := State {
  _chunkBuffer : ChunkBuffer.t;
  source : ChunkBuffer.incoming;   (* push batches still to come *)
  clock : nat;                     (* observations of the stream made *)
  ending : bool;                   (* [this.end()] was called *)
  emitted : list Event             (* what [emit] was called with *)
}.

(** [new ZipExtractStream()], fed by [src]. *)
Definition init (src : ChunkBuffer.incoming) : state :=
  State ChunkBuffer.new src 0 false [].

Definition setBuffer (cb : ChunkBuffer.t) (src : ChunkBuffer.incoming)
    (s : state) : state :=
  State cb src (clock s) (ending s) (emitted s).

Definition setEmitted (evs : list Event) (s : state) : state :=
  State (_chunkBuffer s) (source s) (clock s) (ending s) evs.

Definition tick (s : state) : state :=
  State (_chunkBuffer s) (source s) (S (clock s)) (ending s) (emitted s).

(** [this.end()]: the stream is marked as ended.  [_final], which would
    empty the staging buffer, runs only once every write callback was
    called; the callback of the last write is held in
    [_chunkBuffer.callbacks], which only [_waitForMore] and [cleanup]
    release, and the worker reached this call without waiting after that
    write.  So [_final] does not run and the staging buffer is left as it
    is. *)
Definition endStream (s : state) : state :=
  State (_chunkBuffer s) (source s) (clock s) true (emitted s).

Definition emit (e : Event) : M state unit :=
  modify (fun s => setEmitted (emitted s ++ [e]) s).

Definition fileStreamPush (i : ChanItem) : M state unit :=
  modify (fun s => setEmitted (pushLast i (emitted s)) s).

(** [this._chunkBuffer.giveBack(chunk, n)] *)
Definition giveBack (chunk : Buffer) (n : Z) : M state unit :=
  modify (fun s =>
    setBuffer (ChunkBuffer.giveBack chunk n (_chunkBuffer s)) (source s) s).

(** [await this._chunkBuffer.consume(sizeWanted, undefined, true)]:
    a Buffer, or [None] for [false]. *)
Definition consume (sizeWanted : Z) : M state (option Buffer) :=
  fun s =>
    match ChunkBuffer.consume sizeWanted true (_chunkBuffer s) (source s) with
    | (ChunkBuffer.Got b, cb, src) => (Return (Some b), setBuffer cb src s)
    | (ChunkBuffer.TimedOut, cb, src) => (Return None, setBuffer cb src s)
    | (ChunkBuffer.Threw, cb, src) => (Throw IOTimeout, setBuffer cb src s)
    end.

(** A Buffer method called on the consumed value: on [false] it is a
    [TypeError], outside the buffer a [RangeError]. *)
Definition reading {S} (buffer : option Buffer)
    (read : Buffer -> option Z) : M S Z :=
  match buffer with
  | None => throw TypeError
  | Some b => match read b with
              | Some v => ret v
              | None => throw RangeError
              end
  end.

(** *** [_parseLocalFileHeader] *)

(** [readValue(size)] on [ref.buffer], with the closure variable
    [offset] as state. *)
Definition readValue (buffer : option Buffer) (size : Z) : M Z Z :=
  offset <~ get ;;
  modify (fun o => o + size) ;;;
  reading buffer
    (fun b =>
       if size =? 1 then readUInt8 b offset
       else if size =? 2 then readUInt16LE b offset
       else if size =? 4 then readUInt32LE b offset
       else readBigUInt64LE b offset).

Definition liftOutcome {S A} (o : outcome A) : M S A := fun s => (o, s).

(** The object literal [rawHeader]. *)
Definition fixedFields (buffer : option Buffer) : M Z JSObject :=
  version <~ readValue buffer 2 ;;
  flags <~ readValue buffer 2 ;;
  bitFields <~ liftOutcome
    (BitField.readBitField flags BitField.generalPurposeFlags) ;;
  compression <~ readValue buffer 2 ;;
  mtime <~ readValue buffer 2 ;;
  mdate <~ readValue buffer 2 ;;
  crc32 <~ readValue buffer 4 ;;
  compressedSize <~ readValue buffer 4 ;;
  uncompressedSize <~ readValue buffer 4 ;;
  ret (<["uncompressedSize" := JNumber uncompressedSize]>
       (<["compressedSize" := JNumber compressedSize]>
        (<["crc32" := JNumber crc32]>
         (<["mdate" := JNumber mdate]>
          (<["mtime" := JNumber mtime]>
           (<["compression" := JNumber compression]>
            (BitField.assign bitFields
               (<["version" := JNumber version]> ∅)))))))).

(** The [switch (fieldSignature)] of the extra-field loop. *)
Definition extraField (buffer : option Buffer) (rawHeader : JSObject)
    : M Z JSObject :=
  fieldSignature <~ readValue buffer 2 ;;
  fieldSize <~ readValue buffer 2 ;;
  if fieldSignature =? 0x0001 then
    uncompressedSize <~ readValue buffer 8 ;;
    compressedSize <~ readValue buffer 8 ;;
    let h := <["compressedSize" := JNumber compressedSize]>
               (<["uncompressedSize" := JNumber uncompressedSize]> rawHeader) in
    h <~ (if 24 <=? fieldSize
          then v <~ readValue buffer 8 ;;
               ret (<["headerRecordOffset" := JNumber v]> h)
          else ret h) ;;
    (if 28 <=? fieldSize
     then v <~ readValue buffer 4 ;; ret (<["diskNumber" := JNumber v]> h)
     else ret h)
  else if fieldSignature =? 0x5455 then
    flagByte <~ readValue buffer 1 ;;
    flag <~ liftOutcome
      (BitField.readBitField flagByte BitField.timestampFlags) ;;
    let present k := negb (bool_decide (default 0 ((list_to_map flag : gmap string Z) !! k) = 0)) in
    let h := rawHeader in
    h <~ (if present "mTimeIsPresent"
          then v <~ readValue buffer 4 ;;
               ret (<["lastModificationUnixtime" := JNumber v]> h)
          else ret h) ;;
    h <~ (if present "aTimeIsPresent"
          then v <~ readValue buffer 4 ;;
               ret (<["lastAccessUnixtime" := JNumber v]> h)
          else ret h) ;;
    (if present "cTimeIsPresent"
     then v <~ readValue buffer 4 ;;
          ret (<["creationUnixtime" := JNumber v]> h)
     else ret h)
  else
    modify (fun o => o + fieldSize) ;;; ret rawHeader.

(** [for (let end = offset + extraFieldsTotalSize; offset < end;)].
    Every round reads four bytes at least, so [fuel] rounds up to the
    size of the block are enough. *)
Fixpoint extraFields (fuel : nat) (buffer : option Buffer) (stop : Z)
    (rawHeader : JSObject) : M Z JSObject :=
  offset <~ get ;;
  if offset <? stop then
    match fuel with
    | O => outOfFuel
    | S fuel' =>
        h <~ extraField buffer rawHeader ;;
        extraFields fuel' buffer stop h
    end
  else ret rawHeader.

(** Run a reader of header fields from offset 0. *)
Definition fromStart {A} (m : M Z A) : M state A :=
  fun s => (fst (m 0), s).

(** [(await this._chunkBuffer.consume(..)).toString()]; on [false] the
    text is ["false"]. *)
Definition toString (buffer : option Buffer) : string :=
  match buffer with
  | Some b => Buffer_toString b
  | None => "false"
  end.

Definition _parseLocalFileHeader : M state JSObject :=
  buffer <~ consume 26 ;;
  parsed <~ fromStart
    (rawHeader <~ fixedFields buffer ;;
     nameLength <~ readValue buffer 2 ;;
     extraFieldsTotalSize <~ readValue buffer 2 ;;
     ret (rawHeader, nameLength, extraFieldsTotalSize)) ;;
  let '(rawHeader, nameLength, extraFieldsTotalSize) := parsed in
  nameBuffer <~ consume nameLength ;;
  let rawHeader := <["name" := JString (toString nameBuffer)]> rawHeader in
  if negb (extraFieldsTotalSize =? 0) then
    buffer <~ consume extraFieldsTotalSize ;;
    fromStart (extraFields (Z.to_nat extraFieldsTotalSize) buffer
                 extraFieldsTotalSize rawHeader)
  else ret rawHeader.

(** *** [_pipeFileStream] and [_worker] *)

(** [v == 0] *)
Definition looseEqZero (v : JSValue) : bool :=
  match v with
  | JNumber n => n =? 0
  | JString s => LooseEq.numericZero s
  | _ => false
  end.

(** Truthiness, as in [if (rawHeader.dataDescriptor)]. *)
Definition truthy (v : JSValue) : bool :=
  match v with
  | JNumber n => negb (n =? 0)
  | JString s => negb (bool_decide (s = EmptyString))
  | _ => false
  end.

(** The channel emitted last, and its [_sizePushed]. *)
Definition lastChannel (evs : list Event) : Channel :=
  match reverse evs with
  | Entry _ (Some c) :: _ => c
  | _ => []
  end.

Section Decoder.

Variable I : Inflate.

(** [this.writableEnded] at the decoder's n-th observation. *)
Variable writableEnded : nat -> bool.

(** The variables of one [_pipeFileStream] call next to the decoder:
    the decompressor, [totalWritten], and what [endPromise] was
    resolved with, if it was. *)
Record piping := Piping {
  decoder : state;
  inflate : inflateState I;
  totalWritten : Z;
  endPromise : option (Z * Z)
}.

Definition lift {A} (m : M state A) : M piping A :=
  fun p =>
    let '(r, s) := m (decoder p) in
    (r, Piping s (inflate p) (totalWritten p) (endPromise p)).

(** [inflate.on('data', chunk => fileStream.push(chunk))] *)
Fixpoint onData (chunks : list Buffer) : M piping unit :=
  match chunks with
  | [] => ret tt
  | c :: rest => lift (fileStreamPush (Data c)) ;;; onData rest
  end.

(** [inflate.on('end', ...)]: end the channel and resolve
    [endPromise] with [[inflate.bytesWritten, fileStream._sizePushed]]. *)
Definition onEnd : M piping unit :=
  lift (fileStreamPush End) ;;;
  modify (fun p =>
    Piping (decoder p) (inflate p) (totalWritten p)
           (Some (bytesWritten I (inflate p),
                  sizePushed (lastChannel (emitted (decoder p)))))).

(** [inflate.write(chunk, undefined, callback)] with the events it
    causes and its callback; the result is what the promise around it
    resolves to, the new value of [done]. *)
Definition writeChunk (chunk : Buffer) : M piping bool :=
  p <~ get ;;
  let r := write I (inflate p) chunk in
  modify (fun p => Piping (decoder p) (next r) (totalWritten p)
                          (endPromise p)) ;;;
  onData (output r) ;;;
  (if ended r then onEnd else ret tt) ;;;
  if failed r then
    lift (giveBack chunk 0) ;;; ret true
  else
    let total := totalWritten p + blen chunk in
    modify (fun p => Piping (decoder p) (inflate p) total
                            (endPromise p)) ;;;
    if bytesWritten I (next r) <? total then
      lift (giveBack chunk (total - bytesWritten I (next r))) ;;;
      ret true
    else ret false.

(** [while (!done) { ... }].  [inflate.write(false)] throws a
    [TypeError] inside the promise executor, which rejects the awaited
    promise. *)
Fixpoint feedLoop (fuel : nat) : M piping unit :=
  match fuel with
  | O => outOfFuel
  | S fuel' =>
      chunk <~ lift (consume 0) ;;
      match chunk with
      | None => throw TypeError
      | Some c =>
          done <~ writeChunk c ;;
          if done : bool then ret tt else feedLoop fuel'
      end
  end.

(** [return await endPromise] *)
Definition awaitEnd : M piping (Z * Z) :=
  fun p =>
    match endPromise p with
    | Some r => (Return r, p)
    | None => (Pending, p)
    end.

(** The body of [_pipeFileStream] on its local variables. *)
Definition piped (fuel : nat) (compressedSize : JSValue)
    : M piping (Z * Z) :=
  (if looseEqZero compressedSize
   then tryCatch (feedLoop fuel) (fun _ => ret tt)
   else ret tt) ;;;
  awaitEnd.

(** [_pipeFileStream(fileStream, compressedSize, uncompressedSize)] *)
Definition _pipeFileStream (fuel : nat) (compressedSize : JSValue)
    : M state (Z * Z) :=
  fun s =>
    let '(r, p) :=
      piped fuel compressedSize (Piping s (createInflateRaw I) 0 None) in
    (r, decoder p).

(** The [if (rawHeader.dataDescriptor) { ... }] block of [_worker].
    The two comparisons with the sizes produced only log. *)
Definition readDataDescriptor : M state unit :=
  buffer <~ consume (4 * 4) ;;
  optionalSignature <~ reading buffer (fun b => readUInt32BE b 0) ;;
  if optionalSignature =? dataDescriptorSignature then
    crc32 <~ reading buffer (fun b => readUInt32LE b 4) ;;
    compressedSize <~ reading buffer (fun b => readUInt32LE b 8) ;;
    uncompressedSize <~ reading buffer (fun b => readUInt32LE b 12) ;;
    emit (DataDescriptor crc32 compressedSize uncompressedSize)
  else
    giveBack (default [] buffer) 4 ;;;
    crc32 <~ reading buffer (fun b => readUInt32LE b 0) ;;
    compressedSize <~ reading buffer (fun b => readUInt32LE b 4) ;;
    uncompressedSize <~ reading buffer (fun b => readUInt32LE b 8) ;;
    emit (DataDescriptor crc32 compressedSize uncompressedSize).

(** The [if (readHeader) { ... }] block of [_worker]. *)
Definition entry (fuel : nat) : M state unit :=
  rawHeader <~ _parseLocalFileHeader ;;
  let header : JSObject :=
    <["size" := getProp rawHeader "uncompressedSize"]>
      (<["name" := getProp rawHeader "name"]> ∅) in
  emit (Entry header (Some [])) ;;;
  _pipeFileStream fuel (getProp rawHeader "compressedSize") ;;;
  if truthy (getProp rawHeader "dataDescriptor")
  then readDataDescriptor else ret tt.

(** The signature test at the head of the loop: [true] to go on with
    an entry, [false] when the worker returns through [this.end()]. *)
Definition checkSignature (startOfFile : bool) (signature : Z)
    : M state bool :=
  if startOfFile then
    if negb (signature =? localFileHeaderSignature)
    then throw InvalidZipSignature else ret true
  else if signature =? centralDirectoryFileHeaderSignature then
    modify endStream ;;; ret false
  else if signature =? localFileHeaderSignature then ret true
  else throw (NotStreamingCompatible signature).

(** The body of the [while] loop of [_worker]; [false] when the worker
    returns from inside it. *)
Definition workerBody (fuel : nat) (startOfFile : bool) : M state bool :=
  buffer <~ consume 4 ;;
  signature <~ reading buffer (fun b => readUInt32BE b 0) ;;
  goOn <~ checkSignature startOfFile signature ;;
  if goOn : bool then entry fuel ;;; ret true else ret false.

(** [_worker]: [while (!this.writableEnded) { ... }] *)
Fixpoint _worker (fuel : nat) (startOfFile : bool) : M state unit :=
  match fuel with
  | O => outOfFuel
  | S fuel' =>
      s <~ get ;;
      modify tick ;;;
      if writableEnded (clock s) then ret tt
      else
        goOn <~ workerBody fuel startOfFile ;;
        if goOn : bool then _worker fuel' false else ret tt
  end.

End Decoder.

End Zip.

(** ** A small decompressor to run the Zip decoder on

    The compressed form of at most 255 bytes is their count followed by the
    bytes themselves.  Like [zlib], it stops taking input at the end of its
    stream, counts in [bytesWritten] what it took, and emits ['end'] when
    input is left over. *)
Module Stored.

Record st := St {
  remaining : option nat;   (* bytes of the stream still to come *)
  taken : Z                 (* [bytesWritten] *)
}.

Definition start : st := St None 0.

Definition write (s : st) (chunk : Buffer) : WriteResult st :=
  let '(todo, body, header) :=
    match remaining s, chunk with
    | Some n, _ => (n, chunk, 0%nat)
    | None, [] => (0%nat, [], 0%nat)
    | None, b :: rest => (N.to_nat (Byte.to_N b), rest, 1%nat)
    end in
  match remaining s, chunk with
  | None, [] => MkWrite s [] false false
  | _, _ =>
      let out := take todo body in
      let left := (todo - length out)%nat in
      let surplus := drop todo body in
      MkWrite (St (Some left) (taken s + Z.of_nat (header + length out)))
              (if bool_decide (out = []) then [] else [out])
              (bool_decide (left = 0%nat)
               && negb (bool_decide (surplus = [])))
              false
  end.

Definition inflate : Inflate := MkInflate st start write taken.

End Stored.

(** ** Sample archives *)

(** The byte with code [n]. *)
Definition b8 (n : Z) : byte := default x00 (Byte.of_N (Z.to_N n)).
Definition bytesOf (l : list Z) : Buffer := map b8 l.

Module ZipSamples.

(** The local file header signature, in stream order. *)
Definition signature : Buffer := bytesOf [0x50; 0x4B; 3; 4].

(** The 26 bytes after the signature and the one-letter name ["a"]:
    general-purpose [flags], deflate, [compressedSize], no extra
    fields. *)
Definition header (flags compressedSize : Z) : Buffer :=
  bytesOf [20; 0;  flags; 0;  8; 0;  0; 0;  0; 0;  0; 0; 0; 0;
           compressedSize; 0; 0; 0;  0; 0; 0; 0;  1; 0;  0; 0;  97].

(** The three bytes ["xyz"] in the format of [Stored]. *)
Definition body : Buffer := bytesOf [3; 120; 121; 122].

(** A data descriptor with its optional signature, and without. *)
Definition descriptor : Buffer :=
  bytesOf [0x50; 0x4B; 7; 8;  1; 2; 3; 4;  4; 0; 0; 0;  3; 0; 0; 0].
Definition bareDescriptor : Buffer :=
  bytesOf [1; 2; 3; 4;  4; 0; 0; 0;  3; 0; 0; 0].

(** The central directory signature. *)
Definition centralDirectory : Buffer := bytesOf [0x50; 0x4B; 1; 2].

(** A decoder whose staging buffer holds [chunk]. *)
Definition holding (chunk : Buffer) : Zip.state :=
  Zip.State (ChunkBuffer.push [chunk] ChunkBuffer.new) [] 0 false
            [Entry ∅ (Some [])].


End ZipSamples.

Module TarSamples.

Definition text (s : string) : Buffer := list_byte_of_string s.

(** [b], NUL padded or cut to [n] bytes. *)
Definition padTo (n : nat) (b : Buffer) : Buffer :=
  take n (b ++ replicate n x00).

(** A header record with the given name, octal size, typeflag and link
    name; numeric fields in octal, every field NUL terminated. *)
Definition recordOf (name : Buffer) (size typeflag linkname : string)
    : Buffer :=
  padTo 512
    (padTo 100 name ++ padTo 8 (text "0000644") ++ padTo 8 (text "0001750")
     ++ padTo 8 (text "0001750") ++ padTo 12 (text size)
     ++ padTo 12 (text "14371573603") ++ padTo 8 (text "012345")
     ++ padTo 1 (text typeflag) ++ padTo 100 (text linkname)
     ++ padTo 6 (text "ustar") ++ padTo 2 (text "00")).

Definition record (name size typeflag linkname : string) : Buffer :=
  recordOf (text name) size typeflag linkname.

(** A body of one 512-byte block. *)
Definition block (s : string) : Buffer := padTo 512 (text s).

(** The end-of-archive record. *)
Definition zeroRecord : Buffer := replicate 512 x00.

(** A decoder run on an archive that arrives as one chunk, on a stream
    that is never ended from outside. *)
Definition decode (archive : Buffer) : outcome unit * Tar.state :=
  Tar._worker (fun _ => 0) (fun _ => false) (fun _ => None) 8
    (Tar.init [[archive]]).

(** The channels of the entries emitted, in order. *)
Definition channels (evs : list Event) : list (option Channel) :=
  map (fun e => match e with
                | Entry _ c => c
                | DataDescriptor _ _ _ => None
                end) evs.

(** The headers of the entries emitted, in order. *)
Definition headers (evs : list Event) : list JSObject :=
  omap (fun e => match e with
                 | Entry h _ => Some h
                 | DataDescriptor _ _ _ => None
                 end) evs.

(** The name ["aé.txt"] in UTF-8: its second byte has the high bit
    set. *)
Definition accentedName : Buffer := bytesOf [97; 195; 169; 46; 116; 120; 116].

(** An archive with one empty file. *)
Definition emptyFile : Buffer :=
  record "empty" "00000000000" "0" "" ++ zeroRecord ++ zeroRecord.

(** An archive with the file ["hello.txt"] of nine bytes. *)
Definition helloFile : Buffer :=
  record "hello.txt" "00000000011" "0" "" ++ block "hi there
" ++ zeroRecord ++ zeroRecord.

(** Two global PAX headers, each followed by an empty file: the first
    sets [a=1], the second [b=2]. *)
Definition twoGlobals : Buffer :=
  record "pax_global_header" "00000000006" "g" "" ++ block "6 a=1
" ++ record "one" "00000000000" "0" ""
  ++ record "pax_global_header" "00000000006" "g" "" ++ block "6 b=2
" ++ record "two" "00000000000" "0" ""
  ++ zeroRecord ++ zeroRecord.

(** A global PAX header [a=1], an empty file, a per-entry PAX header
    [a=7] with its empty file, and one more empty file. *)
Definition globalThenEntry : Buffer :=
  record "pax_global_header" "00000000006" "g" "" ++ block "6 a=1
" ++ record "one" "00000000000" "0" ""
  ++ record "PaxHeader" "00000000006" "x" "" ++ block "6 a=7
" ++ record "two" "00000000000" "0" ""
  ++ record "three" "00000000000" "0" ""
  ++ zeroRecord ++ zeroRecord.

(** A global PAX header [a=1] directly followed by a per-entry PAX
    header [a=7], then one empty file. *)
Definition consecutivePax : Buffer :=
  record "pax_global_header" "00000000006" "g" "" ++ block "6 a=1
" ++ record "PaxHeader" "00000000006" "x" "" ++ block "6 a=7
" ++ record "two" "00000000000" "0" ""
  ++ zeroRecord ++ zeroRecord.

(** The name, the typeflag and the value of the PAX key of the record
    [a=...] in a header. *)
Definition paxSummary (h : JSObject) : JSValue * JSValue * JSValue :=
  (getProp h "name", getProp h "typeflag", getProp h " a").

End TarSamples.

(** ** Shapes the claims speak of *)

(** A PAX record line of the form ["length key=value"]: it has a space,
    and its first space comes before its first [=]. *)
Definition paxRecordForm (line : string) : bool :=
  let a := JSString.indexOf line " " in
  let b := JSString.indexOf line "=" in
  (0 <=? a) && (a <? b).

(** The property names of the header literal of [_parseHeader]. *)
Definition standardFields : list string :=
  ["name"; "mode"; "uid"; "gid"; "size"; "mtime"; "checksum"; "typeflag";
   "linkname"; "magic"; "version"; "uname"; "gname"; "devmajor";
   "devminor"; "prefix"]%string.

(** A key that is empty or begins with a space. *)
Definition offField (k : string) : Prop :=
  k = EmptyString \/ exists rest, k = String " " rest.

(** A Tar decoder operation that leaves the stored global header as it
    is, however it ends. *)
Definition keepsGlobalHeader {A} (m : M Tar.state A) : Prop :=
  forall s r s', m s = (r, s') -> Tar._globalHeader s' = Tar._globalHeader s.


(** An operation that never ends waiting for a promise nobody settles. *)
Definition settles {S A} (m : M S A) : Prop :=
  forall s, fst (m s) <> Pending.

Module StallSamples.
Import ZipSamples.

(** A Zip stream that stalls right after the header of an entry of
    unknown size. *)
Definition stalledZip : ChunkBuffer.incoming := [signature ++ header 8 0] :: [].

Definition stalledZipRun : outcome unit * Zip.state :=
  Zip._worker Stored.inflate (fun _ => false) 5 true (Zip.init stalledZip).

(** The same stream with the body, the descriptor and the central
    directory. *)
Definition wholeZipRun : outcome unit * Zip.state :=
  Zip._worker Stored.inflate (fun _ => false) 5 true
    (Zip.init [[signature ++ header 8 0 ++ body ++ descriptor
                ++ centralDirectory]]).

(** A Tar stream that stalls inside a file body. *)
Definition stalledTarRun : outcome unit * Tar.state :=
  TarSamples.decode (TarSamples.record "hello.txt" "00000000011" "0" "").

End StallSamples.

(** ** Looking for a signature: class [FindBytes] *)

Module FindBytes.

Record t := Mk { _bytesToFind : list Z; _index : nat }.

(** [new FindBytes(bytes)] *)
Definition new (bytes : list Z) : t := Mk bytes 0.

(** [look(byte)]: a comparison with a position outside [_bytesToFind]
    compares with [undefined] and fails. *)
Definition look (byte : Z) (f : t) : bool * t :=
  match _bytesToFind f !! _index f with
  | Some wanted =>
      if byte =? wanted then
        if bool_decide (S (_index f) = length (_bytesToFind f))
        then (true, Mk (_bytesToFind f) 0)
        else (false, Mk (_bytesToFind f) (S (_index f)))
      else (false, Mk (_bytesToFind f) 0)
  | None => (false, Mk (_bytesToFind f) 0)
  end.

(** The answers of [look] on the bytes of [l], one after the other. *)
Fixpoint looks (f : t) (l : list Z) : list bool :=
  match l with
  | [] => []
  | b :: l' => let '(found, f') := look b f in found :: looks f' l'
  end.

(** The finder after the bytes of [l]. *)
Definition after (f : t) (l : list Z) : t :=
  fold_left (fun f b => (look b f).2) l f.

End FindBytes.

(** ** [ChunkBuffer.consumeUntilSignature] *)

Module UntilSignature.

(** The local variables of a call and what [onChunk] was called with. *)
Record run := Run {
  finder : FindBytes.t;
  consumedBytes : Z;
  delivered : list Buffer
}.

(** The [for] loop over the bytes of a chunk, from [chunkOffset] on:
    [Some n] when [look] answers [true], with [n] the offset after the
    matching byte. *)
Fixpoint scan (f : FindBytes.t) (bytes : list byte) (chunkOffset : Z)
    : option Z * FindBytes.t :=
  match bytes with
  | [] => (None, f)
  | b :: rest =>
      let '(found, f') := FindBytes.look (byteZ b) f in
      if found then (Some (chunkOffset + 1), f')
      else scan f' rest (chunkOffset + 1)
  end.

(** How the [while (this._chunks.length)] loop leaves the chunks that
    were buffered when it was entered. *)
Inductive scanned :=
| Found (r : run) (cb : ChunkBuffer.t)   (* [break outer] *)
| Exhausted (r : run) (size : Z).        (* no chunk is left *)

(** The rounds of the loop on the buffered [chunks], with [size] the
    value of [this._size].  On a match the queue is replaced by the rest
    of the matching chunk. *)
Fixpoint chunksLoop (r : run) (chunks : list Buffer) (size : Z) : scanned :=
  match chunks with
  | [] => Exhausted r size
  | chunk :: rest =>
      let size' := size - blen chunk in
      match scan (finder r) chunk 0 with
      | (Some chunkOffset, f') =>
          let leftovers := subarrayFrom chunk chunkOffset in
          Found (Run f' (consumedBytes r + chunkOffset)
                     (delivered r ++ [subarray chunk 0 chunkOffset]))
                (ChunkBuffer.Mk [leftovers] (blen leftovers))
      | (None, f') =>
          chunksLoop (Run f' (consumedBytes r + blen chunk)
                          (delivered r ++ [chunk]))
                     rest size'
      end
  end.

(** The waits of the loop: [await this._waitForMore(..)] when no chunk
    is left.  A batch that arrives is all the queue holds; when none
    arrives the wait times out, which throws if asked to and otherwise
    ends the loop. *)
Fixpoint waits (throwOnTimeout : bool) (r : run) (size : Z)
    (inc : ChunkBuffer.incoming)
    : outcome Z * run * ChunkBuffer.t * ChunkBuffer.incoming :=
  match inc with
  | [] =>
      (if throwOnTimeout then Throw IOTimeout else Return (consumedBytes r),
       r, ChunkBuffer.Mk [] size, [])
  | batch :: rest =>
      let cb := ChunkBuffer.push batch (ChunkBuffer.Mk [] size) in
      match chunksLoop r (ChunkBuffer._chunks cb) (ChunkBuffer._size cb) with
      | Found r' cb' => (Return (consumedBytes r'), r', cb', rest)
      | Exhausted r' size' =>
          match batch with
          | [] => (Return (consumedBytes r'), r', ChunkBuffer.Mk [] size', rest)
          | _ => waits throwOnTimeout r' size' rest
          end
      end
  end.

(** [consumeUntilSignature(signatureBytes, onChunk, ioTimeout,
    throwOnTimeout)]: what it resolves to, the chunks [onChunk] was called
    with, and the buffer and the source it leaves. *)
Definition consumeUntilSignature (signatureBytes : list Z)
    (throwOnTimeout : bool) (cb : ChunkBuffer.t) (inc : ChunkBuffer.incoming)
    : outcome Z * run * ChunkBuffer.t * ChunkBuffer.incoming :=
  let r := Run (FindBytes.new signatureBytes) 0 [] in
  match ChunkBuffer._chunks cb with
  | [] => waits throwOnTimeout r (ChunkBuffer._size cb) inc
  | chunks =>
      match chunksLoop r chunks (ChunkBuffer._size cb) with
      | Found r' cb' => (Return (consumedBytes r'), r', cb', inc)
      | Exhausted r' size' => waits throwOnTimeout r' size' inc
      end
  end.

End UntilSignature.

(** ** Notions the properties of the finder and of the loops speak of *)

(** What a finder has matched so far: the bytes fed end with the first
    [_index] bytes of the signature. *)
Definition matched (f : FindBytes.t) (fed : list Z) : Prop :=
  exists pre,
    fed = pre ++ take (FindBytes._index f) (FindBytes._bytesToFind f).

(** A [push] of at most one chunk, as [_write] does. *)
Definition atMostOne (chunks : list Buffer) : Prop := (length chunks <= 1)%nat.

(** The state of a [consumeUntilSignature] call is consistent: the count
    is the length of what was delivered, and the finder has seen what was
    delivered. *)
Definition consistent (signature : list Z) (r : UntilSignature.run) : Prop :=
  UntilSignature.consumedBytes r = blen (concat (UntilSignature.delivered r))
  /\ FindBytes._bytesToFind (UntilSignature.finder r) = signature
  /\ matched (UntilSignature.finder r)
             (map byteZ (concat (UntilSignature.delivered r))).

(** An ASCII octal digit. *)
Definition isOctalDigit (b : byte) : Prop := 48 <= byteZ b <= 55.

(** The number a run of octal digits denotes, most significant digit
    first. *)
Fixpoint octalValue (digits : list byte) : Z :=
  match digits with
  | [] => 0
  | d :: rest => (byteZ d - 48) * 8 ^ Z.of_nat (length rest) + octalValue rest
  end.

(** The fields of a Tar header record, in record order: property name,
    size and whether the field is numeric. *)
Definition fieldTable : list (string * Z * bool) :=
  [("name", 100, false); ("mode", 8, true); ("uid", 8, true);
   ("gid", 8, true); ("size", 12, true); ("mtime", 12, true);
   ("checksum", 8, false); ("typeflag", 1, false); ("linkname", 100, false);
   ("magic", 6, false); ("version", 2, false); ("uname", 32, false);
   ("gname", 32, false); ("devmajor", 8, true); ("devminor", 8, true);
   ("prefix", 155, false)]%string.

(** The offsets at which the fields of a table start. *)
Fixpoint offsetsFrom (start : Z) (table : list (string * Z * bool)) : list Z :=
  match table with
  | [] => []
  | (_, size, _) :: rest => start :: offsetsFrom (start + size) rest
  end.

(** The offsets at which the sixteen fields start. *)
Definition fieldOffsets : list Z :=
  [0; 100; 108; 116; 124; 136; 148; 156; 157; 257; 263; 265; 297; 329; 337;
   345].

(** Reading the fields of a table one after the other. *)
Fixpoint readFields (buffer : Buffer) (table : list (string * Z * bool))
    (acc : JSObject) : M Tar.cursor JSObject :=
  match table with
  | [] => ret acc
  | (name, size, isOctal) :: rest =>
      h <~ Tar.field buffer name size isOctal acc ;;
      readFields buffer rest h
  end.

(** The byte of [buffer] at [off] is NUL. *)
Definition nulAt (buffer : Buffer) (off : Z) : bool :=
  match buffer !! Z.to_nat off with
  | Some b => Byte.eqb b x00
  | None => false
  end.

(** ** Sample inputs for the properties below *)

Module SignatureSamples.

(** The data descriptor signature as the bytes a finder looks for. *)
Definition signature : list Z := [0x50; 0x4B; 7; 8].

(** A staging buffer whose only chunk holds two bytes, the signature
    and one byte more. *)
Definition holding : ChunkBuffer.t :=
  ChunkBuffer.push [bytesOf [1; 2; 0x50; 0x4B; 7; 8; 9]] ChunkBuffer.new.

End SignatureSamples.

Module FieldSamples.

(** A 12-byte numeric field in binary form: the marker byte and the
    value 256 in its last bytes. *)
Definition binarySize : Buffer := bytesOf [128; 0; 0; 0; 0; 0; 0; 0; 0; 0; 1; 0].

(** The mode field ["0000644"], NUL terminated. *)
Definition octalMode : Buffer := TarSamples.text "0000644" ++ [x00].

End FieldSamples.

Module BodySamples.

(** A Tar decoder that has emitted an entry and holds its nine-byte
    body with the padding, followed by the end-of-archive record. *)
Definition bodyBuffered : Tar.state :=
  Tar.State false ∅
    (ChunkBuffer.push [TarSamples.block "hi there!"; TarSamples.zeroRecord]
                      ChunkBuffer.new)
    [] 0 [Entry ∅ (Some [])].

(** The same with a body block of 512 spaces. *)
Definition blankBuffered : Tar.state :=
  Tar.State false ∅
    (ChunkBuffer.push [replicate 512 x20; TarSamples.zeroRecord]
                      ChunkBuffer.new)
    [] 0 [Entry ∅ (Some [])].

(** A Tar stream of three bytes. *)
Definition truncated : Tar.state := Tar.init [[bytesOf [1; 2; 3]]].

End BodySamples.

(** ** Bit fields *)

(** The bit slices a template cuts out of a value, least significant
    bits first. *)
Fixpoint slices (value start : Z) (template : list (string * Z))
    : list (string * Z) :=
  match template with
  | [] => []
  | (name, bitSize) :: rest =>
      (name, (value / 2 ^ start) mod 2 ^ bitSize)
      :: slices value (start + bitSize) rest
  end.

Module SignatureDispatchSamples.

(** A Zip stream that starts like a self-extracting archive. *)
Definition selfExtracting : Zip.state :=
  Zip.init [[bytesOf [0x4D; 0x5A; 0x90; 0; 3; 0]]].

(** A Zip decoder past its first entry, holding the start of the
    central directory and more. *)
Definition atCentralDirectory : Zip.state :=
  Zip.State
    (ChunkBuffer.push [ZipSamples.centralDirectory ++ bytesOf [20; 0; 20; 0]]
                      ChunkBuffer.new)
    [] 1 false [Entry ∅ (Some [End])].

(** A Zip decoder past its first entry, holding bytes that are no
    signature. *)
Definition atGarbage : Zip.state :=
  Zip.State (ChunkBuffer.push [bytesOf [1; 2; 3; 4; 5]] ChunkBuffer.new)
            [] 1 false [Entry ∅ (Some [End])].

(** A Zip stream of two bytes. *)
Definition truncated : Zip.state := Zip.init [[bytesOf [0x50; 0x4B]]].

End SignatureDispatchSamples.

(** ** What an operation does to the state, however it ends *)

(** Every run of [m] takes a state to one related to it by [R]. *)
Definition respects {S A} (R : S -> S -> Prop) (m : M S A) : Prop :=
  forall s r s', m s = (r, s') -> R s s'.

(** The Tar decoder made no fewer observations of its stream. *)
Definition tarLater (s s' : Tar.state) : Prop :=
  (Tar.clock s <= Tar.clock s')%nat.

(** The Zip decoder made the same number of observations. *)
Definition zipSameClock (s s' : Zip.state) : Prop :=
  Zip.clock s' = Zip.clock s.

(** The same for the decoder inside a [_pipeFileStream] call. *)
Definition pipingSameClock {I : Inflate} (p p' : Zip.piping I) : Prop :=
  Zip.clock (Zip.decoder I p') = Zip.clock (Zip.decoder I p).

(** ** Sequences of requests *)

(** The number of bytes a sequence of requests asks for. *)
Definition total (sizes : list Z) : Z := fold_right Z.add 0 sizes.

(** A buffer cut into consecutive pieces of the sizes given. *)
Fixpoint pieces (sizes : list Z) (l : Buffer) : list Buffer :=
  match sizes with
  | [] => []
  | n :: rest => take (Z.to_nat n) l :: pieces rest (drop (Z.to_nat n) l)
  end.

Module ConservationSamples.

(** Six bytes pushed at first, three more that arrive in two pushes
    during the waits, and three requests for nine bytes in all. *)
Definition pushes : ChunkBuffer.incoming :=
  [[bytesOf [1; 2]; bytesOf [3]]; [bytesOf [4; 5; 6]]].
Definition arriving : ChunkBuffer.incoming :=
  [[bytesOf [7]]; [bytesOf [8; 9]]].
Definition requests : list (Z * bool) := [(4, false); (1, true); (4, false)].

End ConservationSamples.

(** ** Archives with data descriptors *)

Module DescriptorSamples.
Import ZipSamples.

(** One entry of unknown size: its header, its body and a descriptor. *)
Definition entryWith (descriptor : Buffer) : Buffer :=
  signature ++ header 8 0 ++ body ++ descriptor.

(** Two such entries and the central directory signature, with
    descriptors that carry the optional signature, and without. *)
Definition twoSigned : Buffer :=
  entryWith descriptor ++ entryWith descriptor ++ centralDirectory.
Definition twoBare : Buffer :=
  entryWith bareDescriptor ++ entryWith bareDescriptor ++ centralDirectory.

(** A decoder run on an archive that arrives as one chunk, on a stream
    that is never ended from outside. *)
Definition decode (archive : Buffer) : outcome unit * Zip.state :=
  Zip._worker Stored.inflate (fun _ => false) 8 true (Zip.init [[archive]]).

(** What a listener of the decoder has seen: the name and the channel of
    an entry, the fields of a data descriptor. *)
Inductive seen :=
| File (name : JSValue) (content : option Channel)
| Descriptor (crc32 compressedSize uncompressedSize : Z).

Definition trace (evs : list Event) : list seen :=
  map (fun e => match e with
                | Entry h c => File (getProp h "name") c
                | DataDescriptor crc32 compressedSize uncompressedSize =>
                    Descriptor crc32 compressedSize uncompressedSize
                end) evs.

End DescriptorSamples.

Module HeaderSamples.

(** A Zip decoder that holds the 26 fixed bytes of a local file header
    with the data descriptor flag, the name ["a"] and the body of
    [ZipSamples]. *)
Definition named : Zip.state :=
  ZipSamples.holding (ZipSamples.header 8 0 ++ ZipSamples.body).

(** The same header with a name length of zero, and the body. *)
Definition nameless : Zip.state :=
  ZipSamples.holding
    (bytesOf [20; 0;  8; 0;  8; 0;  0; 0;  0; 0;  0; 0; 0; 0;
              0; 0; 0; 0;  0; 0; 0; 0;  0; 0;  0; 0]
     ++ ZipSamples.body).

(** A Tar decoder that holds a header record and the end-of-archive
    record. *)
Definition twoRecords : Tar.state :=
  Tar.State false ∅
    (ChunkBuffer.push [TarSamples.record "one" "00000000000" "0" "";
                       TarSamples.zeroRecord] ChunkBuffer.new)
    [] 0 [].

End HeaderSamples.

(** ** Choosing the release asset: [checkRelease] of [minifyDownloader.js] *)

Module Downloader.

(** An element of [release.assets], as far as [checkRelease] reads
    it. *)
Record asset := Asset { id : Z; name : string }.

Record release := Release { tag_name : string; assets : list asset }.

(** The object [checkRelease] returns. *)
Record downloadInfo := DownloadInfo {
  assetId : Z;
  assetName : string;
  version : string
}.

(** [name.split('.')[0]] *)
Definition fileName (a : asset) : string :=
  hd EmptyString (JSString.split "." (name a)).

(** The [for] loop of [checkRelease] and the two [throw] statements
    after it: [inr b] is [throw b]. *)
Fixpoint checkAssets (mustBeFound : gset string) (l : list asset)
    (tag assetWanted : string) : downloadInfo + bool :=
  match l with
  | [] => inr (bool_decide (size mustBeFound = 0%nat))
  | a :: rest =>
      let mustBeFound := mustBeFound ∖ {[fileName a]} in
      if bool_decide (fileName a = assetWanted)
      then inl (DownloadInfo (id a) (name a) tag)
      else checkAssets mustBeFound rest tag assetWanted
  end.

(** [checkRelease(release, assetWanted)] *)
Definition checkRelease (r : release) (assetWanted : string)
    : downloadInfo + bool :=
  checkAssets {["minify_linux_amd64"; "minify_windows_amd64"]}
              (assets r) (tag_name r) assetWanted.

(** The file names of the assets of a release. *)
Definition fileNames (r : release) : list string := map fileName (assets r).

(** A release with binaries for three platforms. *)
Definition sampleRelease : release :=
  Release "v2.9.16"
    [Asset 11 "minify_darwin_arm64.tar.gz";
     Asset 12 "minify_linux_amd64.tar.gz";
     Asset 13 "minify_windows_amd64.zip"].

End Downloader.

(** * Properties *)

(** ** Buffers *)

Lemma blen_app (a b : Buffer) : blen (a ++ b) = blen a + blen b.
Proof. unfold blen. rewrite length_app. lia. Qed.

Lemma blen_nonneg (b : Buffer) : 0 <= blen b.
Proof. unfold blen. lia. Qed.

Lemma relIndex_range (len i : Z) : 0 <= len -> 0 <= relIndex len i <= len.
Proof. unfold relIndex. destruct (i <? 0) eqn:E; lia. Qed.

(** Cutting a buffer at any index, negative or out of range included,
    loses nothing. *)
Lemma subarray_split (b : Buffer) (k : Z) :
  subarray b 0 k ++ subarrayFrom b k = b.
Proof.
  unfold subarrayFrom, subarray.
  pose proof (relIndex_range (blen b) k (blen_nonneg b)) as Hk.
  set (s := relIndex (blen b) k) in *.
  assert (relIndex (blen b) 0 = 0) as -> by (unfold relIndex, blen; simpl; lia).
  assert (relIndex (blen b) (blen b) = blen b) as ->
    by (unfold relIndex, blen; destruct (_ <? 0) eqn:E; lia).
  rewrite Z.sub_0_r. change (Z.to_nat 0) with 0%nat. rewrite drop_0.
  rewrite (take_ge (drop _ _)).
  - apply take_drop.
  - rewrite length_drop. unfold blen in *. lia.
Qed.

Lemma subarray_length (b : Buffer) (k : Z) :
  0 <= k <= blen b -> blen (subarray b 0 k) = k.
Proof.
  intros Hk. unfold subarray.
  assert (relIndex (blen b) 0 = 0) as -> by (unfold relIndex, blen; simpl; lia).
  assert (relIndex (blen b) k = k) as ->
    by (unfold relIndex; destruct (k <? 0) eqn:E; lia).
  rewrite Z.sub_0_r. change (Z.to_nat 0) with 0%nat. rewrite drop_0.
  unfold blen in *. rewrite length_take. lia.
Qed.

Lemma Buffer_concat_exact (l : list Buffer) :
  Buffer_concat l (blen (concat l)) = concat l.
Proof.
  unfold Buffer_concat, blen. rewrite Nat2Z.id, Nat.sub_diag. simpl.
  rewrite app_nil_r. apply take_ge. lia.
Qed.

(** ** The staging buffer *)

Module ChunkBufferFacts.
Import ChunkBuffer.

Lemma flat_cons (batch : list Buffer) (inc : incoming) :
  flat (batch :: inc) = concat batch ++ flat inc.
Proof. unfold flat. simpl. now rewrite concat_app. Qed.

Lemma wf_new : wf new.
Proof. reflexivity. Qed.

Lemma size_push (chunks : list Buffer) (cb : t) :
  _size (push chunks cb) = _size cb + blen (concat chunks).
Proof.
  unfold push. simpl. generalize (_size cb).
  induction chunks as [|c cs IH]; intros s; simpl.
  - unfold blen. simpl. lia.
  - rewrite IH, blen_app. lia.
Qed.

Lemma contents_push (chunks : list Buffer) (cb : t) :
  contents (push chunks cb) = contents cb ++ concat chunks.
Proof. unfold contents, push. simpl. apply concat_app. Qed.

Lemma wf_push (chunks : list Buffer) (cb : t) : wf cb -> wf (push chunks cb).
Proof.
  unfold wf. intros H. rewrite size_push, contents_push, blen_app. lia.
Qed.

Lemma wf_single (b : Buffer) : wf (Mk [b] (blen b)).
Proof. unfold wf, contents. simpl. now rewrite app_nil_r. Qed.

Lemma contents_single (b : Buffer) (n : Z) : contents (Mk [b] n) = b.
Proof. unfold contents. simpl. apply app_nil_r. Qed.

(** An immediate [consume] hands out a prefix of the queue and keeps the
    rest. *)
Lemma consumeNow_split (n : Z) (cb cb' : t) (b : Buffer) :
  wf cb -> consumeNow n cb = Some (b, cb') ->
  b ++ contents cb' = contents cb /\ wf cb'.
Proof.
  unfold consumeNow. intros Hwf H.
  assert (Buffer_concat (_chunks cb) (_size cb) = contents cb) as Hc.
  { rewrite Hwf. apply Buffer_concat_exact. }
  rewrite Hc in H.
  destruct (negb (n =? 0) && negb (n =? _size cb)).
  - destruct (n <? _size cb); [|discriminate].
    injection H as <- <-. rewrite contents_single. split.
    + apply subarray_split.
    + apply wf_single.
  - destruct (negb (_size cb =? 0)); [|discriminate].
    injection H as <- <-. split.
    + unfold contents at 2. simpl. apply app_nil_r.
    + reflexivity.
Qed.

Lemma awaitMore_split (thr : bool) (n : Z) (inc : incoming) :
  forall (cb cb' : t) (r : result) (inc' : incoming),
    wf cb -> awaitMore thr n cb inc = (r, cb', inc') ->
    gotBytes [r] ++ contents cb' ++ flat inc' = contents cb ++ flat inc
    /\ wf cb'.
Proof.
  revert thr. induction inc as [|batch rest IH]; intros thr cb cb' r inc' Hwf H.
  - simpl in H. injection H as <- <- <-. split; [|assumption].
    destruct thr; reflexivity.
  - pose proof (wf_push batch cb Hwf) as Hwf'.
    rewrite flat_cons, (app_assoc (contents cb)), <- contents_push.
    cbn [awaitMore] in H. cbv zeta in H.
    destruct (_size (push batch cb) <? n).
    + now apply IH in H.
    + destruct (consumeNow n (push batch cb)) as [[b cb'']|] eqn:E.
      * injection H as <- <- <-.
        apply consumeNow_split in E as [E1 E2]; [|assumption].
        split; [|assumption].
        unfold gotBytes. simpl. rewrite app_nil_r, app_assoc, E1. reflexivity.
      * now apply IH in H.
Qed.

Lemma consume_split (thr : bool) (n : Z) (cb cb' : t) (r : result)
    (inc inc' : incoming) :
  wf cb -> consume n thr cb inc = (r, cb', inc') ->
  gotBytes [r] ++ contents cb' ++ flat inc' = contents cb ++ flat inc
  /\ wf cb'.
Proof.
  unfold consume. intros Hwf H.
  destruct (consumeNow n cb) as [[b cb'']|] eqn:E.
  - injection H as <- <- <-.
    apply consumeNow_split in E as [E1 E2]; [|assumption].
    split; [|assumption].
    unfold gotBytes. simpl. rewrite app_nil_r, app_assoc, E1. reflexivity.
  - now apply awaitMore_split in H.
Qed.

Lemma gotBytes_cons (r : result) (rs : list result) :
  gotBytes (r :: rs) = gotBytes [r] ++ gotBytes rs.
Proof. unfold gotBytes. simpl. now rewrite app_nil_r. Qed.

Lemma consumeAll_split (reqs : list (Z * bool)) :
  forall (cb cb' : t) (rs : list result) (inc inc' : incoming),
    wf cb -> consumeAll reqs cb inc = (rs, cb', inc') ->
    gotBytes rs ++ contents cb' ++ flat inc' = contents cb ++ flat inc
    /\ wf cb'.
Proof.
  induction reqs as [|[n thr] reqs IH]; intros cb cb' rs inc inc' Hwf H; simpl in H.
  - injection H as <- <- <-. split; [reflexivity|assumption].
  - destruct (consume n thr cb inc) as [[r cb1] inc1] eqn:E1.
    destruct (consumeAll reqs cb1 inc1) as [[rs1 cb2] inc2] eqn:E2.
    injection H as <- <- <-.
    apply consume_split in E1 as [E1 Hwf1]; [|assumption].
    apply IH in E2 as [E2 Hwf2]; [|assumption].
    split; [|assumption].
    rewrite gotBytes_cons, <- app_assoc, E2.
    rewrite app_assoc. rewrite <- E1. rewrite <- !app_assoc. reflexivity.
Qed.

Lemma pushAll_spec (batches : list (list Buffer)) :
  forall cb, wf cb ->
    wf (pushAll batches cb)
    /\ contents (pushAll batches cb) = contents cb ++ flat batches.
Proof.
  induction batches as [|b bs IH]; intros cb Hwf; simpl.
  - split; [assumption|]. unfold flat. simpl. now rewrite app_nil_r.
  - destruct (IH (push b cb) (wf_push b cb Hwf)) as [H1 H2].
    split; [exact H1|].
    unfold pushAll in *. simpl. rewrite H2, contents_push, flat_cons.
    now rewrite app_assoc.
Qed.

End ChunkBufferFacts.

(** ** Claims on the staging buffer *)

Module StagingBufferClaims.
Import ChunkBuffer ChunkBufferFacts.

(** C4 (round trip), evaluated.  With three bytes buffered, [consume(2)]
    returns the first two and keeps the third; giving the two bytes back
    replaces the queue, so the third byte is gone: the size is 2 instead
    of 3, and a following [consume(3)], which the untouched buffer answers
    at once with the three bytes, times out. *)
Theorem giveBack_after_consume_drops_buffered_bytes :
  consume 2 false three_bytes [] = (Got [x01; x02], Mk [[x03]] 1, [])
  /\ giveBack [x01; x02] 0 (Mk [[x03]] 1) = Mk [[x01; x02]] 2
  /\ size three_bytes = 3
  /\ consume 3 false three_bytes [] = (Got [x01; x02; x03], Mk [] 0, [])
  /\ consume 3 false (giveBack [x01; x02] 0 (Mk [[x03]] 1)) []
     = (TimedOut, Mk [[x01; x02]] 2, []).
Proof. repeat split. Qed.

End StagingBufferClaims.

(** ** Giving bytes back *)

Module GiveBackFacts.
Import ChunkBuffer.

(** Giving back the last [k] bytes of a chunk leaves exactly those bytes
    in the buffer. *)
Lemma giveBack_suffix (chunk : Buffer) (k : Z) (cb : t) :
  0 < k <= blen chunk ->
  giveBack chunk k cb = Mk [drop (Z.to_nat (blen chunk - k)) chunk] k.
Proof.
  intros Hk. unfold giveBack.
  assert ((k =? 0) = false) as -> by lia.
  assert (subarrayFrom chunk (blen chunk - k)
          = drop (Z.to_nat (blen chunk - k)) chunk) as ->.
  { unfold subarrayFrom, subarray, relIndex.
    assert ((blen chunk - k <? 0) = false) as -> by lia.
    assert ((blen chunk <? 0) = false) as ->
      by (apply Z.ltb_ge, blen_nonneg).
    rewrite !Z.min_l by lia. apply take_ge.
    rewrite length_drop. unfold blen in *. lia. }
  f_equal. unfold blen in *. rewrite length_drop. lia.
Qed.

(** A buffer that holds one chunk hands it out whole when asked for its
    size. *)
Lemma consume_single (b : Buffer) (thr : bool) (inc : incoming) :
  b <> [] ->
  consume (blen b) thr (Mk [b] (blen b)) inc = (Got b, Mk [] 0, inc).
Proof.
  intros Hb. unfold consume, consumeNow. cbn [_size _chunks].
  rewrite Z.eqb_refl. rewrite andb_false_r.
  assert ((blen b =? 0) = false) as ->.
  { apply Z.eqb_neq. destruct b; [congruence|]. unfold blen. simpl. lia. }
  simpl negb. cbv iota.
  assert (Buffer_concat [b] (blen b) = b) as ->; [|reflexivity].
  pose proof (Buffer_concat_exact [b]) as H.
  simpl in H. rewrite app_nil_r in H. exact H.
Qed.

End GiveBackFacts.

(** ** One write to the decompressor *)

Module ZipFacts.
Import Zip.

Section Writes.
Variable I : Inflate.




End Writes.

End ZipFacts.

(** ** The Zip decoder: bodies *)

Module ZipBodyClaims.
Import Zip.

(** C1 (known compressed size), evaluated on every nonzero size.  With a
    nonzero [compressedSize] the feeding loop is skipped: nothing is read
    from the staging buffer, nothing reaches the decompressor or the
    channel, no end marker is pushed, and the call awaits an [endPromise]
    that nothing resolves.  The decoder state is untouched. *)
Theorem known_size_body_is_never_fed
    (I : Inflate) (fuel : nat) (compressedSize : positive) (s : state) :
  _pipeFileStream I fuel (JNumber (Z.pos compressedSize)) s = (Pending, s).
Proof. destruct s. reflexivity. Qed.


End ZipBodyClaims.

(** ** Sample runs of the Zip body *)

Module ZipBodyWitnesses.
Import Zip ZipSamples.


End ZipBodyWitnesses.

(** ** What a successful [consume] returns *)

Module ConsumeLength.
Import ChunkBuffer ChunkBufferFacts.

Lemma Buffer_concat_length (l : list Buffer) (n : Z) :
  0 <= n -> blen (Buffer_concat l n) = n.
Proof.
  intros Hn. unfold Buffer_concat, blen.
  rewrite length_app, length_take, length_replicate. lia.
Qed.

Lemma consumeNow_length (n : Z) (cb cb' : t) (b : Buffer) :
  wf cb -> 0 < n -> consumeNow n cb = Some (b, cb') -> blen b = n.
Proof.
  unfold consumeNow. intros Hwf Hn H.
  assert (0 <= _size cb) as Hs by (rewrite Hwf; apply blen_nonneg).
  destruct (n =? 0) eqn:E0; [lia|].
  destruct (n =? _size cb) eqn:E1; simpl in H.
  - destruct (_size cb =? 0) eqn:E2; simpl in H; [discriminate|].
    injection H as <- <-. rewrite Buffer_concat_length by lia. lia.
  - destruct (n <? _size cb) eqn:E2; [|discriminate].
    injection H as <- <-. apply subarray_length.
    rewrite Buffer_concat_length by lia. lia.
Qed.

Lemma awaitMore_length (thr : bool) (n : Z) (inc : incoming) :
  forall (cb cb' : t) (b : Buffer) (inc' : incoming),
    wf cb -> 0 < n -> awaitMore thr n cb inc = (Got b, cb', inc') ->
    blen b = n.
Proof.
  revert thr. induction inc as [|batch rest IH]; intros thr cb cb' b inc' Hwf Hn H.
  - simpl in H. destruct thr; discriminate.
  - pose proof (wf_push batch cb Hwf) as Hwf'.
    cbn [awaitMore] in H. cbv zeta in H.
    destruct (_size (push batch cb) <? n).
    + eapply IH; eauto.
    + destruct (consumeNow n (push batch cb)) as [[b' cb'']|] eqn:E.
      * injection H as <- <- <-. eapply consumeNow_length; eauto.
      * eapply IH; eauto.
Qed.

Lemma consume_length (thr : bool) (n : Z) (cb cb' : t) (b : Buffer)
    (inc inc' : incoming) :
  wf cb -> 0 < n -> consume n thr cb inc = (Got b, cb', inc') -> blen b = n.
Proof.
  unfold consume. intros Hwf Hn H.
  destruct (consumeNow n cb) as [[b' cb'']|] eqn:E.
  - injection H as <- <- <-. eapply consumeNow_length; eauto.
  - eapply awaitMore_length; eauto.
Qed.
End ConsumeLength.

(** A read inside the buffer succeeds. *)
Lemma bytesAt_in_range (b : Buffer) (off : Z) (n : nat) :
  0 <= off -> off + Z.of_nat n <= blen b ->
  bytesAt b off n = Some (take n (drop (Z.to_nat off) b)).
Proof.
  intros H1 H2. unfold bytesAt.
  assert ((0 <=? off) = true) as -> by lia.
  assert ((off + Z.of_nat n <=? blen b) = true) as -> by lia.
  reflexivity.
Qed.

(** ** The Zip decoder: data descriptors *)

Module ZipDescriptorFacts.
Import Zip.

Lemma reading_some {S} (b : Buffer) (read : Buffer -> option Z) (v : Z) (s : S) :
  read b = Some v -> reading (Some b) read s = (Return v, s).
Proof. intros H. unfold reading. rewrite H. reflexivity. Qed.

Lemma consume_got (n : Z) (s s1 : state) (buffer : Buffer) :
  ChunkBuffer.wf (_chunkBuffer s) -> 0 < n ->
  consume n s = (Return (Some buffer), s1) -> blen buffer = n.
Proof.
  unfold consume. intros Hwf Hn H.
  destruct (ChunkBuffer.consume n true (_chunkBuffer s) (source s))
    as [[[b| |] cb] src] eqn:E; try discriminate.
  injection H as <- <-. eapply ConsumeLength.consume_length; eauto.
Qed.

(** The steps of [readDataDescriptor].  When the 16-byte read succeeds,
    it returns exactly 16 bytes.  If their first four bytes are the
    descriptor signature, the three fields are the little-endian 32-bit
    values at offsets 4, 8 and 12 and the staging buffer is left as the
    read left it.  Otherwise the fields are the values at offsets 0, 4 and
    8, and [giveBack(buffer, 4)] makes the last four bytes the whole
    content of the staging buffer.  In both cases the descriptor is
    emitted and the step returns, whatever sizes the descriptor
    carries. *)
Lemma readDataDescriptor_spec (s s1 : state) (buffer : Buffer) :
  ChunkBuffer.wf (_chunkBuffer s) ->
  consume 16 s = (Return (Some buffer), s1) ->
  blen buffer = 16
  /\ exists signature crc32 compressedSize uncompressedSize,
       readUInt32BE buffer 0 = Some signature
       /\ if signature =? dataDescriptorSignature then
            readUInt32LE buffer 4 = Some crc32
            /\ readUInt32LE buffer 8 = Some compressedSize
            /\ readUInt32LE buffer 12 = Some uncompressedSize
            /\ readDataDescriptor s
               = (Return tt,
                  setEmitted
                    (emitted s1
                     ++ [DataDescriptor crc32 compressedSize uncompressedSize])
                    s1)
          else
            readUInt32LE buffer 0 = Some crc32
            /\ readUInt32LE buffer 4 = Some compressedSize
            /\ readUInt32LE buffer 8 = Some uncompressedSize
            /\ readDataDescriptor s
               = (Return tt,
                  setEmitted
                    (emitted s1
                     ++ [DataDescriptor crc32 compressedSize uncompressedSize])
                    (setBuffer (ChunkBuffer.Mk [drop 12 buffer] 4)
                       (source s1) s1))
            /\ forall thr inc,
                 ChunkBuffer.consume 4 thr
                   (ChunkBuffer.Mk [drop 12 buffer] 4) inc
                 = (ChunkBuffer.Got (drop 12 buffer), ChunkBuffer.Mk [] 0, inc).
Proof.
  intros Hwf Hc.
  assert (blen buffer = 16) as Hlen by (eapply consume_got; eauto; lia).
  split; [exact Hlen|].
  assert (forall off, 0 <= off <= 12 ->
            readUInt32LE buffer off
            = Some (leValue (take 4 (drop (Z.to_nat off) buffer)))) as Hle.
  { intros off Hoff. unfold readUInt32LE.
    rewrite bytesAt_in_range by (simpl; lia). reflexivity. }
  assert (readUInt32BE buffer 0 = Some (beValue (take 4 buffer))) as Hbe.
  { unfold readUInt32BE. rewrite bytesAt_in_range by (simpl; lia). reflexivity. }
  assert (forall k : option Buffer -> M state unit,
            (b <~ consume (4 * 4) ;; k b) s = k (Some buffer) s1) as Hbind.
  { intros k. unfold bind. change (4 * 4) with 16. rewrite Hc. reflexivity. }
  assert (forall A B : M state unit,
            (optionalSignature <~
               reading (Some buffer) (fun b => readUInt32BE b 0) ;;
             if optionalSignature =? dataDescriptorSignature then A else B) s1
            = (if beValue (take 4 buffer) =? dataDescriptorSignature
               then A else B) s1) as Hsw.
  { intros A B. unfold bind at 1. rewrite (reading_some _ _ _ _ Hbe).
    reflexivity. }
  destruct (beValue (take 4 buffer) =? dataDescriptorSignature) eqn:Hsig.
  - exists (beValue (take 4 buffer)),
      (leValue (take 4 (drop 4 buffer))),
      (leValue (take 4 (drop 8 buffer))),
      (leValue (take 4 (drop 12 buffer))).
    rewrite Hsig.
    split; [exact Hbe|].
    split; [apply (Hle 4); lia|]. split; [apply (Hle 8); lia|].
    split; [apply (Hle 12); lia|].
    unfold readDataDescriptor. rewrite Hbind, Hsw.
    unfold bind at 1. rewrite (reading_some _ _ _ _ (Hle 4 ltac:(lia))).
    unfold bind at 1. rewrite (reading_some _ _ _ _ (Hle 8 ltac:(lia))).
    unfold bind at 1. rewrite (reading_some _ _ _ _ (Hle 12 ltac:(lia))).
    reflexivity.
  - exists (beValue (take 4 buffer)),
      (leValue (take 4 (drop 0 buffer))),
      (leValue (take 4 (drop 4 buffer))),
      (leValue (take 4 (drop 8 buffer))).
    rewrite Hsig.
    split; [exact Hbe|].
    split; [apply (Hle 0); lia|]. split; [apply (Hle 4); lia|].
    split; [apply (Hle 8); lia|].
    assert (ChunkBuffer.giveBack buffer 4 (_chunkBuffer s1)
            = ChunkBuffer.Mk [drop 12 buffer] 4) as Hg.
    { rewrite GiveBackFacts.giveBack_suffix by lia. rewrite Hlen. reflexivity. }
    split.
    + unfold readDataDescriptor. rewrite Hbind, Hsw.
      unfold bind at 1. unfold giveBack, modify.
      change (default [] (Some buffer)) with buffer.
      rewrite Hg.
      unfold bind at 1. rewrite (reading_some _ _ _ _ (Hle 0 ltac:(lia))).
      unfold bind at 1. rewrite (reading_some _ _ _ _ (Hle 4 ltac:(lia))).
      unfold bind at 1. rewrite (reading_some _ _ _ _ (Hle 8 ltac:(lia))).
      destruct s1. reflexivity.
    + intros thr inc.
      assert (blen (drop 12 buffer) = 4) as Ht.
      { unfold blen in *. rewrite length_drop. lia. }
      rewrite <- Ht at 1 2. apply GiveBackFacts.consume_single.
      intros E. rewrite E in Ht. unfold blen in Ht. simpl in Ht. lia.
Qed.
End ZipDescriptorFacts.

(** ** The Tar decoder: bodies and fields *)

Module TarClaims.
Import Tar TarSamples.

(** C3 (Tar entries), evaluated on empty files.  For a size of 0 the loop
    of [_pipeFileStream] is not entered, and the only [push(null)] is
    inside it: the call returns with the decoder untouched.  So the archive
    with one empty file is decoded to the end, and its entry's channel was
    emitted and never received its end marker, while the nine-byte file's
    channel receives its bytes and then the end marker. *)
Theorem empty_entry_channel_is_never_ended :
  (forall (writableLength : nat -> Z) (fuel : nat) (s : state),
      _pipeFileStream writableLength fuel (Some 0) s = (Return tt, s))
  /\ fst (decode emptyFile) = Return tt
  /\ channels (emitted (snd (decode emptyFile))) = [Some []]
  /\ channels (emitted (snd (decode helloFile)))
     = [Some [Data (text "hi there
"); End]].
Proof.
  split; [intros wl fuel s; destruct fuel; reflexivity|].
  split; [vm_compute; reflexivity|].
  split; vm_compute; reflexivity.
Qed.

(** C6 (binary fields), evaluated.  In the name ["aé.txt"] the leading
    byte is the letter [a], whose high bit is clear, and the second byte has
    its high bit set.  The scan of [entry] tests every byte up to the first
    NUL, so the field is read as a binary number, the big-endian value of
    its last eight bytes, here 0, and the header's name is that number. *)
Theorem high_bit_after_the_leading_byte_is_read_as_binary :
  readUInt8 (recordOf accentedName "0" "0" "") 0 = Some 97
  /\ Z.land (Z.shiftr 97 7) 1 = 0
  /\ entry (recordOf accentedName "0" "0" "") 100 false (Cursor 0 true)
     = (Return (JNumber 0), Cursor 100 false)
  /\ (exists h, parseRecord ∅ (recordOf accentedName "0" "0" "")
                = Return (Some h)
                /\ h !! "name"%string = Some (JNumber 0)).
Proof.
  split; [reflexivity|]. split; [reflexivity|].
  split; [vm_compute; reflexivity|].
  eexists. split; [vm_compute; reflexivity|]. vm_compute. reflexivity.
Qed.

End TarClaims.

(** ** PAX keys *)

Module PaxKeyFacts.
Import JSString.

Lemma indexOf_found (c : ascii) (s : string) :
  0 <= indexOf s c ->
  indexOf s c < len s
  /\ String.get (Z.to_nat (indexOf s c)) s = Some c.
Proof.
  induction s as [|a s IH]; simpl; [lia|].
  destruct (Ascii.eqb a c) eqn:E.
  - intros _. apply Ascii.eqb_eq in E. subst a. unfold len. simpl. split; [lia|reflexivity].
  - destruct (indexOf s c <? 0) eqn:E1; [lia|].
    intros _. apply Z.ltb_ge in E1. destruct (IH E1) as [H1 H2].
    unfold len in *. simpl. split; [lia|].
    replace (Z.to_nat (indexOf s c + 1)) with (S (Z.to_nat (indexOf s c))) by lia.
    exact H2.
Qed.

Lemma substring_head (n m : nat) (s : string) (c : ascii) :
  String.get n s = Some c ->
  exists rest, String.substring n (S m) s = String c rest.
Proof.
  revert s. induction n as [|n IH]; intros [|a s] H; simpl in *; try discriminate.
  - injection H as ->. eauto.
  - apply IH, H.
Qed.

Lemma key_starts_with_space (line : string) :
  paxRecordForm line = true ->
  exists rest,
    substring line (indexOf line " ") (indexOf line "=") = String " " rest.
Proof.
  unfold paxRecordForm. intros H. apply andb_true_iff in H as [Ha Hab].
  apply Z.leb_le in Ha. apply Z.ltb_lt in Hab.
  destruct (indexOf_found " " line Ha) as [Ha' Hget].
  assert (0 <= indexOf line "=") as Hb by lia.
  destruct (indexOf_found "=" line Hb) as [Hb' _].
  unfold substring.
  set (a := indexOf line " ") in *. set (b := indexOf line "=") in *.
  rewrite !Z.max_l by lia.
  rewrite (Z.min_l a (len line)) by lia. rewrite (Z.min_l b (len line)) by lia.
  rewrite Z.min_l, Z.max_r by lia.
  replace (Z.to_nat (b - a)) with (S (Z.to_nat (b - a - 1))) by lia.
  apply substring_head, Hget.
Qed.

End PaxKeyFacts.

Module PaxKeyClaims.
Import Tar PaxKeyFacts.

Lemma standard_not_offField (f : string) :
  f ∈ standardFields -> ~ offField f.
Proof.
  intros Hf [->|[rest ->]];
    unfold standardFields in Hf;
    repeat (apply elem_of_cons in Hf as [Hf|Hf]; [discriminate|]);
    inversion Hf.
Qed.

Lemma paxLine_key (acc : JSObject) (line : string) :
  paxRecordForm line = true \/ line = EmptyString ->
  exists key value, offField key /\ paxLine acc line = <[key := JString value]> acc.
Proof.
  intros [H| ->].
  - destruct (key_starts_with_space line H) as [rest E].
    unfold paxLine. cbv zeta. rewrite E.
    exists (String " " rest). eexists. split; [right; eauto|reflexivity].
  - exists EmptyString, EmptyString. split; [left; reflexivity|reflexivity].
Qed.

Lemma fold_paxLine_keys (lines : list string) :
  forall acc : JSObject,
    (forall k, is_Some (acc !! k) -> offField k) ->
    Forall (fun l => paxRecordForm l = true \/ l = EmptyString) lines ->
    forall k, is_Some (fold_left paxLine lines acc !! k) -> offField k.
Proof.
  induction lines as [|line lines IH]; intros acc Hacc Hl k Hk; simpl in Hk.
  - auto.
  - inversion Hl as [|? ? H1 H2]; subst.
    destruct (paxLine_key acc line H1) as (key & value & Hoff & E).
    rewrite E in Hk.
    apply (IH (<[key := JString value]> acc)); [|exact H2|exact Hk].
    intros k' Hk'. destruct (decide (key = k')) as [<-|Hne]; [exact Hoff|].
    rewrite lookup_insert_ne in Hk' by exact Hne. auto.
Qed.

(** C10 (PAX keys).  Take a PAX body whose lines all have the form
    ["length key=value"] (the empty line after the last newline apart).
    For each such line the key stored is the substring from the first space
    up to the first [=], so it begins with a space.  Hence every key of the
    parsed entries is empty or begins with a space, none is a standard
    field name, and merging the entries over a header leaves the value of
    every standard field as it was. *)
Theorem pax_keys_never_name_standard_fields
    (text : string) (header : JSObject) (f : string) :
  Forall (fun l => paxRecordForm l = true \/ l = EmptyString)
         (JSString.split "010" text) ->
  f ∈ standardFields ->
  (forall line acc,
      paxRecordForm line = true ->
      exists rest value,
        JSString.substring line (JSString.indexOf line " ")
          (JSString.indexOf line "=") = String " " rest
        /\ paxLine acc line = <[String " " rest := JString value]> acc)
  /\ (forall k, is_Some (paxOfText text !! k) ->
                k = EmptyString \/ exists rest, k = String " " rest)
  /\ paxOfText text !! f = None
  /\ getProp (spread header (paxOfText text)) f = getProp header f.
Proof.
  intros Hl Hf.
  assert (forall k, is_Some (paxOfText text !! k) -> offField k) as Hkeys.
  { apply fold_paxLine_keys; [|exact Hl].
    intros k Hk. rewrite lookup_empty in Hk. destruct Hk; discriminate. }
  assert (paxOfText text !! f = None) as Hnone.
  { destruct (paxOfText text !! f) eqn:E; [|reflexivity].
    exfalso. apply (standard_not_offField f Hf), Hkeys. rewrite E. eauto. }
  split; [|split; [exact Hkeys|split; [exact Hnone|]]].
  - intros line acc H. destruct (key_starts_with_space line H) as [rest E].
    exists rest. eexists. split; [exact E|].
    unfold paxLine. cbv zeta. rewrite E. reflexivity.
  - unfold getProp, spread. rewrite lookup_union_r by exact Hnone. reflexivity.
Qed.
End PaxKeyClaims.

Module PaxKeyWitnesses.
Import Tar.

(** The record [mtime=1350244992.023960108] is stored under the key
    [" mtime"], and the header keeps its own [mtime]. *)
Lemma pax_keys_never_name_standard_fields_witness :
  paxOfText "30 mtime=1350244992.023960108
" !! " mtime"%string = Some (JString "1350244992.023960108")
  /\ getProp (spread (<["mtime"%string := JNumber 5]> ∅)
                (paxOfText "30 mtime=1350244992.023960108
")) "mtime" = JNumber 5.
Proof.
  split; [vm_compute; reflexivity|].
  destruct (PaxKeyClaims.pax_keys_never_name_standard_fields
              "30 mtime=1350244992.023960108
" (<["mtime"%string := JNumber 5]> ∅) "mtime") as (_ & _ & _ & H).
  - change (Forall (fun l => paxRecordForm l = true \/ l = EmptyString)
              ["30 mtime=1350244992.023960108"%string; EmptyString]).
    constructor; [left; reflexivity|].
    constructor; [right; reflexivity|]. constructor.
  - unfold standardFields. do 5 apply list_elem_of_further.
    apply list_elem_of_here.
  - rewrite H. reflexivity.
Defined.

End PaxKeyWitnesses.

(** ** The Tar decoder: PAX headers *)

(** A sequence that returns went through both of its parts. *)
Lemma bind_return_inv {S A B} (m : M S A) (k : A -> M S B) (s s' : S) (b : B) :
  bind m k s = (Return b, s') ->
  exists a s1, m s = (Return a, s1) /\ k a s1 = (Return b, s').
Proof.
  unfold bind. destruct (m s) as [[a|e| |] s1]; intros H; try discriminate.
  eauto.
Qed.

(** Everything but the ['g'] case of [_worker] keeps the global header. *)
Module TarGlobalHeader.
Import Tar.

Lemma keeps_ret {A} (a : A) : keepsGlobalHeader (ret a).
Proof. intros s r s' H. injection H as <- <-. reflexivity. Qed.

Lemma keeps_throw {A} (e : Error) : keepsGlobalHeader (@throw _ A e).
Proof. intros s r s' H. injection H as <- <-. reflexivity. Qed.

Lemma keeps_outOfFuel {A} : keepsGlobalHeader (@outOfFuel _ A).
Proof. intros s r s' H. injection H as <- <-. reflexivity. Qed.

Lemma keeps_get : keepsGlobalHeader get.
Proof. intros s r s' H. injection H as <- <-. reflexivity. Qed.

Lemma keeps_bind {A B} (m : M state A) (k : A -> M state B) :
  keepsGlobalHeader m -> (forall a, keepsGlobalHeader (k a)) ->
  keepsGlobalHeader (bind m k).
Proof.
  intros Hm Hk s r s' H. unfold bind in H.
  destruct (m s) as [[a|e| |] s1] eqn:E.
  - rewrite (Hk a _ _ _ H). eapply Hm, E.
  - injection H as <- <-. eapply Hm, E.
  - injection H as <- <-. eapply Hm, E.
  - injection H as <- <-. eapply Hm, E.
Qed.

Lemma keeps_modify (f : state -> state) :
  (forall s, _globalHeader (f s) = _globalHeader s) ->
  keepsGlobalHeader (modify f).
Proof. intros Hf s r s' H. injection H as <- <-. apply Hf. Qed.

Lemma keeps_consumeOrThrow (n : Z) : keepsGlobalHeader (consumeOrThrow n).
Proof.
  intros s r s' H. unfold consumeOrThrow in H.
  destruct (ChunkBuffer.consume n false (_chunkBuffer s) (source s))
    as [[[b| |] cb] src].
  - destruct (looseEqFalse b); injection H as <- <-; reflexivity.
  - injection H as <- <-; reflexivity.
  - injection H as <- <-; reflexivity.
Qed.

Lemma keeps_parseHeader : keepsGlobalHeader _parseHeader.
Proof.
  apply keeps_bind; [apply keeps_consumeOrThrow|].
  intros buffer s r s' H. injection H as <- <-. reflexivity.
Qed.

Lemma keeps_parsePaxEntries (size : option Z) :
  keepsGlobalHeader (_parsePaxEntries size).
Proof.
  apply keeps_bind; [apply keeps_consumeOrThrow|]. intros; apply keeps_ret.
Qed.

Lemma keeps_emit (e : Event) : keepsGlobalHeader (emit e).
Proof. apply keeps_modify. reflexivity. Qed.

Lemma keeps_fileStreamPush (i : ChanItem) : keepsGlobalHeader (fileStreamPush i).
Proof. apply keeps_modify. reflexivity. Qed.

Lemma keeps_pipeLoop (wl : nat -> Z) (fuel : nat) :
  forall bytesToPush bytesToConsume,
    keepsGlobalHeader (pipeLoop wl fuel bytesToPush bytesToConsume).
Proof.
  induction fuel as [|fuel IH]; intros bp bc; simpl;
    destruct (bc =? 0); try apply keeps_ret; try apply keeps_outOfFuel.
  apply keeps_bind; [apply keeps_get|]. intros s0.
  apply keeps_bind; [apply keeps_modify; reflexivity|]. intros _.
  apply keeps_bind; [apply keeps_consumeOrThrow|]. intros buffer.
  destruct (negb (bp =? 0)).
  - apply keeps_bind; [apply keeps_fileStreamPush|]. intros _.
    apply keeps_bind.
    + destruct (_ =? 0); [apply keeps_fileStreamPush|apply keeps_ret].
    + intros _. apply IH.
  - apply IH.
Qed.

Lemma keeps_pipeFileStream (wl : nat -> Z) (fuel : nat) (size : option Z) :
  keepsGlobalHeader (_pipeFileStream wl fuel size).
Proof. destruct size; [apply keeps_pipeLoop|apply keeps_ret]. Qed.

Lemma parseHeader_spec (s s' : state) (h : option JSObject) :
  _parseHeader s = (Return h, s') ->
  _globalHeader s' = _globalHeader s
  /\ exists buffer, parseRecord (_globalHeader s) buffer = Return h.
Proof.
  intros H. split; [eapply keeps_parseHeader, H|].
  unfold _parseHeader in H. apply bind_return_inv in H as (b & s1 & H1 & H2).
  injection H2 as H2 <-. exists b.
  rewrite <- (keeps_consumeOrThrow _ _ _ _ H1). exact H2.
Qed.

Lemma parseRecord_carries_global (G h : JSObject) (buffer : Buffer)
    (k : string) (v : JSValue) :
  parseRecord G buffer = Return (Some h) -> G !! k = Some v -> h !! k = Some v.
Proof.
  unfold parseRecord. intros H HG.
  destruct (headerFields buffer (Cursor 0 true)) as [[fields|e| |] c];
    try discriminate.
  destruct (allZero c); [discriminate|].
  injection H as <-. unfold spread. apply lookup_union_Some_l, HG.
Qed.

End TarGlobalHeader.

Module PaxMergeFacts.
Import Tar TarGlobalHeader.

(** The [switch] of [_worker], when it returns.  Every header parsed
    afterwards carries the pairs of the global header then stored, and
    streaming a body does not change that header.  For a ['g'] header the
    parsed pairs become the stored global header, replacing the one
    before, and are in the merged header.  For an ['x'] header the stored
    global header is left as it was, the parsed pairs are in the merged
    header and win there, and a global pair whose key they do not hold is
    in the merged header too.  For any other typeflag nothing is
    merged. *)
Lemma withPax_spec
    (stringToNumber : string -> option Z) (header merged : JSObject)
    (s s' : state) :
  withPax stringToNumber header s = (Return merged, s') ->
  let typeflag := getProp header "typeflag" in
  let size := toNumber stringToNumber (getProp header "size") in
  (forall buffer h k v,
      parseRecord (_globalHeader s') buffer = Return (Some h) ->
      _globalHeader s' !! k = Some v -> h !! k = Some v)
  /\ (forall writableLength fuel bodySize,
         keepsGlobalHeader (_pipeFileStream writableLength fuel bodySize))
  /\ (typeflag = JString "g" ->
      exists paxEntries s1,
        _parsePaxEntries size s = (Return paxEntries, s1)
        /\ _globalHeader s' = paxEntries
        /\ forall k v, paxEntries !! k = Some v -> merged !! k = Some v)
  /\ (typeflag = JString "x" ->
      exists paxEntries s1 next,
        _parsePaxEntries size s = (Return paxEntries, s1)
        /\ _globalHeader s' = _globalHeader s
        /\ merged = spread (default ∅ next) paxEntries
        /\ (forall k v, paxEntries !! k = Some v -> merged !! k = Some v)
        /\ (forall h k v,
               next = Some h -> paxEntries !! k = None ->
               _globalHeader s !! k = Some v -> merged !! k = Some v))
  /\ (typeflag <> JString "g" -> typeflag <> JString "x" ->
      merged = header /\ s' = s).
Proof.
  intros H typeflag size.
  split; [intros buffer h k v; apply parseRecord_carries_global|].
  split; [intros; apply keeps_pipeFileStream|].
  unfold withPax in H. fold typeflag size in H.
  destruct (bool_decide (typeflag = JString "g")) eqn:Eg;
    [apply bool_decide_eq_true in Eg|apply bool_decide_eq_false in Eg];
    (destruct (bool_decide (typeflag = JString "x")) eqn:Ex;
     [apply bool_decide_eq_true in Ex|apply bool_decide_eq_false in Ex]);
    cbn [orb] in H.
  - congruence.
  - (* a global PAX header *)
    apply bind_return_inv in H as (pax & s1 & Hp & H).
    apply bind_return_inv in H as ([] & s2 & Hm & H).
    apply bind_return_inv in H as (next & s3 & Hn & H).
    injection H as <- <-. injection Hm as <-.
    apply parseHeader_spec in Hn as [Hg _].
    split; [|split; [intros E; contradiction|intros E; contradiction]].
    intros _. exists pax, s1. split; [exact Hp|]. split.
    + rewrite Hg. reflexivity.
    + intros k v Hk. unfold spread. apply lookup_union_Some_l, Hk.
  - (* a per-entry PAX header *)
    apply bind_return_inv in H as (pax & s1 & Hp & H).
    apply bind_return_inv in H as ([] & s2 & Hm & H).
    apply bind_return_inv in H as (next & s3 & Hn & H).
    injection H as <- <-. injection Hm as <-.
    apply parseHeader_spec in Hn as [Hg [buffer Hrec]].
    pose proof (keeps_parsePaxEntries _ _ _ _ Hp) as Hg1.
    split; [intros E; contradiction|]. split; [|intros _ E; contradiction].
    intros _. exists pax, s1, next. split; [exact Hp|].
    split; [congruence|]. split; [reflexivity|]. split.
    + intros k v Hk. unfold spread. apply lookup_union_Some_l, Hk.
    + intros h k v -> Hk HG. unfold spread. cbn [default].
      rewrite lookup_union_r by exact Hk.
      eapply parseRecord_carries_global; [exact Hrec|]. rewrite Hg1. exact HG.
  - injection H as <- <-.
    split; [intros E; contradiction|]. split; [intros E; contradiction|]. auto.
Qed.

End PaxMergeFacts.

(** ** Claims on PAX headers *)

Module PaxOrderClaims.
Import Tar TarSamples.

(** C7 (PAX headers), evaluated.  The [switch] of [_worker] reads the
    header that follows a PAX header with [_parseHeader] and emits it
    without looking at its typeflag.  So in the archive with a global
    header [a=1], then a per-entry header [a=7], then the file ["two"],
    the per-entry header is emitted as a file entry whose content is its
    PAX record, and that record is never applied: the header of ["two"]
    carries the global [a=1].  With a file between the two PAX headers
    the per-entry value does reach the file after it.  And a second
    global header replaces the pairs of the first instead of adding to
    them: after [a=1] and then [b=2], the second file has no [a]. *)
Theorem pax_header_after_a_pax_header_is_emitted_as_a_file :
  fst (decode consecutivePax) = Return tt
  /\ map paxSummary (headers (emitted (snd (decode consecutivePax))))
     = [(JString "PaxHeader", JString "x", JString "1");
        (JString "two", JString "0", JString "1")]
  /\ channels (emitted (snd (decode consecutivePax)))
     = [Some [Data (text "6 a=7
"); End]; Some []]
  /\ map paxSummary (headers (emitted (snd (decode globalThenEntry))))
     = [(JString "one", JString "0", JString "1");
        (JString "two", JString "0", JString "7");
        (JString "three", JString "0", JString "1")]
  /\ map paxSummary (headers (emitted (snd (decode twoGlobals))))
     = [(JString "one", JString "0", JString "1");
        (JString "two", JString "0", JUndefined)].
Proof.
  split; [vm_compute; reflexivity|].
  split; [vm_compute; reflexivity|].
  split; [vm_compute; reflexivity|].
  split; vm_compute; reflexivity.
Qed.

End PaxOrderClaims.

(** ** The staging buffer: further properties *)

Module StagingBufferFacts.
Import ChunkBuffer ChunkBufferFacts.

Lemma wf_giveBack (chunk : Buffer) (k : Z) (cb : t) : wf (giveBack chunk k cb).
Proof. unfold giveBack. apply wf_single. Qed.

Lemma wf_cleanup (cb : t) : wf (cleanup cb).
Proof. reflexivity. Qed.

Lemma wf_pushAll (batches : incoming) (cb : t) : wf cb -> wf (pushAll batches cb).
Proof. intros H. apply pushAll_spec, H. Qed.

Lemma wf_size_nonneg (cb : t) : wf cb -> 0 <= _size cb.
Proof. intros ->. apply blen_nonneg. Qed.

(** With enough bytes buffered, a positive request is served at once. *)
Lemma consumeNow_enough (n : Z) (cb : t) :
  wf cb -> 0 < n <= _size cb -> exists b cb', consumeNow n cb = Some (b, cb').
Proof.
  intros Hwf Hn. unfold consumeNow.
  assert ((n =? 0) = false) as -> by lia.
  destruct (n =? _size cb) eqn:E; simpl.
  - assert ((_size cb =? 0) = false) as -> by lia. simpl. eauto.
  - assert ((n <? _size cb) = true) as -> by lia. eauto.
Qed.

(** With too few bytes buffered, a positive request has to wait. *)
Lemma consumeNow_short (n : Z) (cb : t) :
  wf cb -> _size cb < n -> consumeNow n cb = None.
Proof.
  intros Hwf Hn. pose proof (wf_size_nonneg cb Hwf). unfold consumeNow.
  assert ((n =? 0) = false) as -> by lia.
  assert ((n =? _size cb) = false) as -> by lia. simpl.
  assert ((n <? _size cb) = false) as -> by lia. reflexivity.
Qed.

Lemma awaitMore_enough (thr : bool) (n : Z) (inc : incoming) :
  forall cb, wf cb -> 0 < n -> n <= _size cb + blen (flat inc) -> _size cb < n ->
    exists b cb' inc', awaitMore thr n cb inc = (Got b, cb', inc').
Proof.
  induction inc as [|batch rest IH]; intros cb Hwf Hn Hav Hlt.
  - unfold flat, blen in Hav. simpl in Hav. lia.
  - cbn [awaitMore]. cbv zeta.
    pose proof (wf_push batch cb Hwf) as Hwf'.
    pose proof (size_push batch cb) as Hs.
    rewrite flat_cons, blen_app in Hav.
    destruct (_size (push batch cb) <? n) eqn:E.
    + apply IH; [exact Hwf'|lia|lia|lia].
    + destruct (consumeNow_enough n (push batch cb) Hwf') as (b & cb' & ->);
        [lia|]. eauto.
Qed.

Lemma awaitMore_short (thr : bool) (n : Z) (inc : incoming) :
  forall cb, wf cb -> _size cb + blen (flat inc) < n ->
    awaitMore thr n cb inc
    = (if thr then Threw else TimedOut, pushAll inc cb, []).
Proof.
  induction inc as [|batch rest IH]; intros cb Hwf Hav.
  - reflexivity.
  - cbn [awaitMore]. cbv zeta.
    pose proof (wf_push batch cb Hwf) as Hwf'.
    pose proof (size_push batch cb) as Hs.
    rewrite flat_cons, blen_app in Hav.
    pose proof (blen_nonneg (flat rest)).
    assert ((_size (push batch cb) <? n) = true) as -> by lia.
    rewrite IH; [reflexivity|exact Hwf'|lia].
Qed.

Lemma take_drop_unique {A} (l b rest : list A) (n : nat) :
  b ++ rest = l -> length b = n -> b = take n l /\ rest = drop n l.
Proof.
  intros <- <-. rewrite take_app_length, drop_app_length. auto.
Qed.

(** A positive request that the buffer and the source can serve returns
    the oldest bytes. *)
Lemma consume_enough (n : Z) (thr : bool) (cb : t) (inc : incoming) :
  wf cb -> 0 < n -> n <= _size cb + blen (flat inc) ->
  exists cb' inc',
    consume n thr cb inc
    = (Got (take (Z.to_nat n) (contents cb ++ flat inc)), cb', inc')
    /\ contents cb' ++ flat inc' = drop (Z.to_nat n) (contents cb ++ flat inc)
    /\ wf cb'.
Proof.
  intros Hwf Hn Hav.
  assert (exists b cb' inc', consume n thr cb inc = (Got b, cb', inc'))
    as (b & cb' & inc' & E).
  { unfold consume. destruct (Z_lt_le_dec (_size cb) n) as [Hlt|Hge].
    - rewrite consumeNow_short by assumption.
      apply awaitMore_enough; assumption.
    - destruct (consumeNow_enough n cb Hwf) as (b & cb' & ->); [lia|]. eauto. }
  pose proof (ConsumeLength.consume_length _ _ _ _ _ _ _ Hwf Hn E) as Hlen.
  apply consume_split in E as E'; [|exact Hwf]. destruct E' as [Hsplit Hwf'].
  unfold gotBytes in Hsplit. simpl in Hsplit. rewrite app_nil_r in Hsplit.
  destruct (take_drop_unique _ _ _ (Z.to_nat n) Hsplit) as [-> Hrest].
  { unfold blen in Hlen. lia. }
  exists cb', inc'. split; [exact E|]. split; [exact Hrest|exact Hwf'].
Qed.

(** Served from the buffer alone, the request leaves the source alone. *)
Lemma consume_buffered (n : Z) (thr : bool) (cb : t) (inc : incoming) :
  wf cb -> 0 < n <= _size cb ->
  exists cb',
    consume n thr cb inc = (Got (take (Z.to_nat n) (contents cb)), cb', inc)
    /\ contents cb' = drop (Z.to_nat n) (contents cb) /\ wf cb'.
Proof.
  intros Hwf Hn.
  destruct (consumeNow_enough n cb Hwf Hn) as (b & cb' & E).
  pose proof (ConsumeLength.consumeNow_length _ _ _ _ Hwf (proj1 Hn) E) as Hlen.
  destruct (consumeNow_split _ _ _ _ Hwf E) as [Hsplit Hwf'].
  destruct (take_drop_unique _ _ _ (Z.to_nat n) Hsplit) as [-> Hrest].
  { unfold blen in Hlen. lia. }
  exists cb'. unfold consume. rewrite E. auto.
Qed.

(** Starved, the request times out with everything buffered. *)
Lemma consume_starved (n : Z) (thr : bool) (cb : t) (inc : incoming) :
  wf cb -> _size cb + blen (flat inc) < n ->
  consume n thr cb inc = (if thr then Threw else TimedOut, pushAll inc cb, []).
Proof.
  intros Hwf Hav. unfold consume. pose proof (blen_nonneg (flat inc)).
  rewrite consumeNow_short by (assumption || lia).
  apply awaitMore_short; assumption.
Qed.

Lemma consume_zero_all (thr : bool) (cb : t) (inc : incoming) :
  wf cb -> contents cb <> [] ->
  consume 0 thr cb inc = (Got (contents cb), Mk [] 0, inc).
Proof.
  intros Hwf Hne. unfold consume, consumeNow. simpl.
  assert ((_size cb =? 0) = false) as ->.
  { apply Z.eqb_neq. rewrite Hwf. unfold blen.
    destruct (contents cb); [congruence|simpl; lia]. }
  simpl. rewrite Hwf, Buffer_concat_exact. reflexivity.
Qed.

Lemma total_nonneg (sizes : list Z) :
  Forall (fun n => 0 < n) sizes -> 0 <= total sizes.
Proof. induction 1 as [|n l Hn _ IH]; simpl; lia. Qed.

Lemma concat_pieces (sizes : list Z) :
  Forall (fun n => 0 < n) sizes ->
  forall l : Buffer,
    concat (pieces sizes l) = take (Z.to_nat (total sizes)) l.
Proof.
  induction 1 as [|n sizes Hn Hs IH]; intros l; [reflexivity|].
  cbn [pieces concat total fold_right]. fold (total sizes). rewrite IH.
  pose proof (total_nonneg sizes Hs).
  pose proof (take_take_drop l (Z.to_nat n) (Z.to_nat (total sizes))) as E.
  replace (Z.to_nat (n + total sizes))
    with (Z.to_nat n + Z.to_nat (total sizes))%nat by lia.
  exact E.
Qed.

Lemma gotBytes_Got (l : list Buffer) : gotBytes (map Got l) = concat l.
Proof.
  unfold gotBytes. rewrite map_map. f_equal. apply map_id.
Qed.

(** Requests for positive sizes that the buffer and the source can serve
    are answered, in turn, with the consecutive pieces of the bytes. *)
Lemma consumeAll_served (reqs : list (Z * bool)) :
  Forall (fun r => 0 < r.1) reqs ->
  forall (cb : t) (inc : incoming),
    wf cb ->
    total (map fst reqs) <= _size cb + blen (flat inc) ->
    exists cb' inc',
      consumeAll reqs cb inc
      = (map Got (pieces (map fst reqs) (contents cb ++ flat inc)), cb', inc')
      /\ contents cb' ++ flat inc'
         = drop (Z.to_nat (total (map fst reqs))) (contents cb ++ flat inc)
      /\ wf cb'.
Proof.
  induction 1 as [|[n thr] reqs Hn Hreqs IH]; intros cb inc Hwf Hav.
  - exists cb, inc. simpl. auto.
  - cbn [map fst total fold_right] in Hav. fold (total (map fst reqs)) in Hav.
    simpl in Hn.
    assert (0 <= total (map fst reqs)) as Hpos.
    { apply total_nonneg. apply Forall_map. exact Hreqs. }
    destruct (consume_enough n thr cb inc Hwf Hn ltac:(lia))
      as (cb1 & inc1 & E & Hrest & Hwf1).
    destruct (IH cb1 inc1 Hwf1) as (cb2 & inc2 & E2 & Hrest2 & Hwf2).
    { pose proof (f_equal blen Hrest) as Hb. rewrite blen_app in Hb.
      red in Hwf, Hwf1. unfold blen in Hb at 3. rewrite length_drop in Hb.
      rewrite length_app in Hb. unfold blen in Hwf, Hwf1, Hav, Hb |- *. lia. }
    exists cb2, inc2. split; [|split; [|exact Hwf2]].
    + cbn [consumeAll]. rewrite E, E2. cbn [map fst pieces]. rewrite Hrest.
      reflexivity.
    + rewrite Hrest2, Hrest, drop_drop.
      cbn [map fst total fold_right]. fold (total (map fst reqs)).
      f_equal. lia.
Qed.

End StagingBufferFacts.

(** ** The staging buffer: conservation *)

Module ConservationClaims.
Import ChunkBuffer ChunkBufferFacts StagingBufferFacts.

(** C5 (conservation).  Push any batches into a fresh buffer, then run a
    sequence of [consume] calls (no [giveBack]) while further batches
    arrive during the waits.  Whatever the calls, the buffers returned,
    followed by the bytes still buffered and by the batches that never
    arrived, are the pushed bytes in push order, and the size counter is
    exact.  When the calls ask for positive sizes that add up to no more
    than the bytes pushed, none of them times out: each returns exactly
    the bytes it asked for, the next ones in push order, so that the
    buffers returned are the first bytes pushed and the rest is what
    stays; and calls that ask for all the bytes pushed return all of them
    and leave nothing. *)
Theorem consume_calls_return_the_pushed_bytes
    (pushes inc : incoming) (reqs : list (Z * bool)) :
  let pushed := flat pushes ++ flat inc in
  let asked := total (map fst reqs) in
  let res := consumeAll reqs (pushAll pushes new) inc in
  let returned := gotBytes res.1.1 in
  let buffered := res.1.2 in
  let unarrived := flat res.2 in
  (returned ++ contents buffered ++ unarrived = pushed
   /\ size buffered = blen (contents buffered))
  /\ (Forall (fun r => 0 < r.1) reqs ->
      asked <= blen pushed ->
      res.1.1 = map Got (pieces (map fst reqs) pushed)
      /\ returned = take (Z.to_nat asked) pushed
      /\ contents buffered ++ unarrived = drop (Z.to_nat asked) pushed
      /\ (asked = blen pushed ->
          returned = pushed /\ contents buffered = [] /\ unarrived = [])).
Proof.
  cbv zeta.
  destruct (pushAll_spec pushes new wf_new) as [Hwf Hc].
  change (contents new) with (@nil byte) in Hc. cbn [app] in Hc.
  split.
  - destruct (consumeAll reqs (pushAll pushes new) inc) as [[rs cb'] inc'] eqn:E.
    cbn [fst snd].
    apply consumeAll_split in E as [E Hwf']; [|assumption].
    rewrite Hc in E. split; [exact E|exact Hwf'].
  - intros Hreqs Hav.
    destruct (consumeAll_served reqs Hreqs (pushAll pushes new) inc Hwf)
      as (cb' & inc' & E & Hrest & Hwf').
    { rewrite Hwf, Hc, <- blen_app. exact Hav. }
    rewrite E, Hc in *. cbn [fst snd].
    assert (Forall (fun n => 0 < n) (map fst reqs)) as Hpos
      by (apply Forall_map; exact Hreqs).
    rewrite gotBytes_Got, concat_pieces by exact Hpos.
    split; [reflexivity|]. split; [reflexivity|]. split; [exact Hrest|].
    intros Hall. rewrite Hall in Hrest |- *. unfold blen in Hrest |- *.
    rewrite Nat2Z.id in Hrest |- *.
    rewrite drop_all in Hrest. rewrite firstn_all.
    apply app_eq_nil in Hrest as [-> ->]. auto.
Qed.

(** Six bytes pushed, three more arriving during the waits, and requests
    for 4, 1 and 4 bytes: the calls return the nine bytes in order. *)
Lemma consume_calls_return_the_pushed_bytes_witness :
  Forall (fun r : Z * bool => 0 < r.1) ConservationSamples.requests
  /\ (consumeAll ConservationSamples.requests
        (pushAll ConservationSamples.pushes new)
        ConservationSamples.arriving).1.1
     = [Got (bytesOf [1; 2; 3; 4]); Got (bytesOf [5]);
        Got (bytesOf [6; 7; 8; 9])].
Proof.
  split; [repeat constructor|].
  destruct (consume_calls_return_the_pushed_bytes ConservationSamples.pushes
              ConservationSamples.arriving ConservationSamples.requests)
    as [_ H].
  destruct H as (H & _).
  - repeat constructor.
  - vm_compute. discriminate.
  - exact H.
Defined.

End ConservationClaims.

Module StagingBufferExtras.
Import ChunkBuffer ChunkBufferFacts StagingBufferFacts.

(** X1.  The size counter stays the sum of the chunk lengths under every
    operation of the class, however a [consume] ends. *)
Theorem size_counter_is_kept (cb : t) :
  wf cb ->
  (forall chunks, wf (push chunks cb))
  /\ (forall chunk k, wf (giveBack chunk k cb))
  /\ wf (cleanup cb)
  /\ (forall n thr inc, wf (consume n thr cb inc).1.2).
Proof.
  intros Hwf. split; [intros; apply wf_push, Hwf|].
  split; [intros; apply wf_giveBack|]. split; [apply wf_cleanup|].
  intros n thr inc.
  destruct (consume n thr cb inc) as [[r cb'] inc'] eqn:E.
  apply consume_split in E as [_ E]; [exact E|exact Hwf].
Qed.

Lemma size_counter_is_kept_witness :
  wf three_bytes
  /\ wf (consume 2 false three_bytes []).1.2
  /\ wf (giveBack [x01; x02] 0 three_bytes).
Proof.
  split; [reflexivity|].
  destruct (size_counter_is_kept three_bytes eq_refl) as (_ & Hg & _ & Hc).
  split; [apply Hc|apply Hg].
Defined.

(** X2.  A request for [n > 0] bytes that the buffer and the source can serve
    returns exactly the [n] oldest bytes and keeps all the others, in
    order. *)
Theorem consume_returns_the_oldest_bytes
    (n : Z) (thr : bool) (cb : t) (inc : incoming) :
  wf cb -> 0 < n -> n <= size cb + blen (flat inc) ->
  exists cb' inc',
    consume n thr cb inc
    = (Got (take (Z.to_nat n) (contents cb ++ flat inc)), cb', inc')
    /\ contents cb' ++ flat inc' = drop (Z.to_nat n) (contents cb ++ flat inc).
Proof.
  intros Hwf Hn Hav.
  destruct (consume_enough n thr cb inc Hwf Hn Hav) as (cb' & inc' & E & H & _).
  eauto.
Qed.

Lemma consume_returns_the_oldest_bytes_witness :
  exists cb' inc',
    consume 4 true three_bytes [[[x04]]; [[x05; x06]]]
    = (Got [x01; x02; x03; x04], cb', inc')
    /\ contents cb' ++ flat inc' = [x05; x06].
Proof.
  destruct (consume_returns_the_oldest_bytes 4 true three_bytes
              [[[x04]]; [[x05; x06]]] eq_refl)
    as (cb' & inc' & H1 & H2).
  - lia.
  - vm_compute. discriminate.
  - exists cb', inc'. split; [exact H1|exact H2].
Defined.

(** X3.  A request for more bytes than the buffer and the source hold ends in
    the timeout: [false], or the error when [throwOnTimeout] is set; all the
    bytes that arrived are then buffered. *)
Theorem consume_times_out_when_starved
    (n : Z) (thr : bool) (cb : t) (inc : incoming) :
  wf cb -> size cb + blen (flat inc) < n ->
  consume n thr cb inc = (if thr then Threw else TimedOut, pushAll inc cb, [])
  /\ contents (pushAll inc cb) = contents cb ++ flat inc.
Proof.
  intros Hwf Hav. split.
  - apply consume_starved; assumption.
  - apply pushAll_spec, Hwf.
Qed.

Lemma consume_times_out_when_starved_witness :
  consume 512 false three_bytes [[[x04]]]
  = (TimedOut, Mk [[x01; x02; x03]; [x04]] 4, []).
Proof.
  destruct (consume_times_out_when_starved 512 false three_bytes [[[x04]]]
              eq_refl) as [H _].
  - vm_compute. reflexivity.
  - exact H.
Defined.

(** X4.  [consume(0)] on a buffer that holds bytes returns all of them as one
    buffer at once and leaves the buffer empty. *)
Theorem consume_zero_takes_everything (thr : bool) (cb : t) (inc : incoming) :
  wf cb -> contents cb <> [] ->
  consume 0 thr cb inc = (Got (contents cb), Mk [] 0, inc).
Proof. apply consume_zero_all. Qed.

Lemma consume_zero_takes_everything_witness :
  consume 0 true three_bytes [] = (Got [x01; x02; x03], Mk [] 0, []).
Proof.
  apply (consume_zero_takes_everything true three_bytes [] eq_refl).
  vm_compute. discriminate.
Defined.

(** X5.  When a [consume] took the whole buffer, with [consume(0)] or with a
    request for exactly its size, giving the returned bytes back restores
    the content and the size of the buffer. *)
Theorem giveBack_restores_a_buffer_taken_whole
    (n : Z) (thr : bool) (cb : t) (inc : incoming) :
  wf cb -> contents cb <> [] -> n = 0 \/ n = size cb ->
  exists b,
    consume n thr cb inc = (Got b, Mk [] 0, inc)
    /\ contents (giveBack b 0 (Mk [] 0)) = contents cb
    /\ size (giveBack b 0 (Mk [] 0)) = size cb.
Proof.
  intros Hwf Hne Hn. exists (contents cb).
  assert (_size cb <> 0) as Hs.
  { rewrite Hwf. unfold blen. destruct (contents cb); [congruence|simpl; lia]. }
  split.
  - unfold consume, consumeNow.
    assert (negb (n =? 0) && negb (n =? _size cb) = false) as ->.
    { destruct Hn as [->| ->]; [reflexivity|].
      unfold size. rewrite Z.eqb_refl. apply andb_false_r. }
    assert ((_size cb =? 0) = false) as -> by lia.
    simpl. rewrite Hwf, Buffer_concat_exact. reflexivity.
  - assert (subarrayFrom (contents cb) 0 = contents cb) as E.
    { pose proof (subarray_split (contents cb) 0) as H.
      assert (subarray (contents cb) 0 0 = []) as H0.
      { unfold subarray. rewrite Z.sub_diag. reflexivity. }
      rewrite H0 in H. exact H. }
    unfold giveBack. simpl. rewrite E. unfold contents at 1, size. simpl.
    rewrite app_nil_r. split; [reflexivity|]. symmetry. exact Hwf.
Qed.

Lemma giveBack_restores_a_buffer_taken_whole_witness :
  exists b,
    consume 3 false three_bytes [] = (Got b, Mk [] 0, [])
    /\ contents (giveBack b 0 (Mk [] 0)) = [x01; x02; x03]
    /\ size (giveBack b 0 (Mk [] 0)) = 3.
Proof.
  apply (giveBack_restores_a_buffer_taken_whole 3 false three_bytes []
           eq_refl).
  - vm_compute. discriminate.
  - right. reflexivity.
Defined.

(** X6.  The recursive call of [consume] drops [throwOnTimeout].  A call
    [consume(0, .., true)] on an empty buffer throws when the source stalls
    at once, but returns [false] when the source first delivers batches
    without bytes and then stalls. *)
Theorem consume_zero_forgets_throwOnTimeout (inc : incoming) :
  Forall (fun batch => concat batch = []) inc -> inc <> [] ->
  consume 0 true new [] = (Threw, new, [])
  /\ (consume 0 true new inc).1.1 = TimedOut
  /\ (consume 0 true new inc).2 = [].
Proof.
  intros Hall Hne. split; [reflexivity|].
  unfold consume. simpl.
  assert (forall thr cb, wf cb -> _size cb = 0 ->
            inc <> [] \/ thr = false ->
            (awaitMore thr 0 cb inc).1.1 = TimedOut
            /\ (awaitMore thr 0 cb inc).2 = []) as H.
  { clear Hne. induction Hall as [|batch rest Hb Hrest IH]; intros thr cb Hwf Hs Hor.
    - destruct Hor as [Hor| ->]; [exfalso; apply Hor; reflexivity|]. split; reflexivity.
    - cbn [awaitMore]. cbv zeta.
      pose proof (size_push batch cb) as Hsz. rewrite Hb, Hs in Hsz.
      change (blen []) with 0 in Hsz.
      assert ((_size (push batch cb) <? 0) = false) as -> by lia.
      unfold consumeNow. rewrite Hsz. simpl.
      apply IH; [apply wf_push, Hwf|exact Hsz|right; reflexivity]. }
  apply (H true new wf_new eq_refl). left. exact Hne.
Qed.

Lemma consume_zero_forgets_throwOnTimeout_witness :
  (consume 0 true new [[[]]]).1.1 = TimedOut.
Proof.
  apply (consume_zero_forgets_throwOnTimeout [[[]]]).
  - repeat constructor.
  - discriminate.
Defined.

End StagingBufferExtras.

(** ** The signature finder *)

Module FindBytesFacts.
Import FindBytes.

Lemma look_pattern (b : Z) (f : t) : _bytesToFind (look b f).2 = _bytesToFind f.
Proof.
  unfold look. destruct (_bytesToFind f !! _index f); [|reflexivity].
  destruct (b =? z); [|reflexivity]. destruct (bool_decide _); reflexivity.
Qed.

Lemma looks_cons (b : Z) (l : list Z) (f : t) :
  looks f (b :: l) = (look b f).1 :: looks (look b f).2 l.
Proof. cbn [looks]. destruct (look b f). reflexivity. Qed.

Lemma looks_app (l1 l2 : list Z) :
  forall f, looks f (l1 ++ l2) = looks f l1 ++ looks (after f l1) l2.
Proof.
  induction l1 as [|b l1 IH]; intros f; [reflexivity|].
  cbn [looks app]. destruct (look b f) as [found f'] eqn:E. cbn [app].
  rewrite IH. unfold after. cbn [fold_left]. rewrite E. reflexivity.
Qed.

Lemma looks_length (l : list Z) : forall f, length (looks f l) = length l.
Proof.
  induction l as [|b l IH]; intros f; [reflexivity|].
  cbn [looks]. destruct (look b f). cbn [length]. now rewrite IH.
Qed.

Lemma look_matched (b : Z) (f : t) (fed : list Z) :
  matched f fed ->
  matched (look b f).2 (fed ++ [b])
  /\ ((look b f).1 = true -> exists pre, fed ++ [b] = pre ++ _bytesToFind f).
Proof.
  intros [pre Hfed]. unfold look.
  destruct (_bytesToFind f !! _index f) as [wanted|] eqn:Hw.
  - destruct (b =? wanted) eqn:Hb.
    + apply Z.eqb_eq in Hb. subst b.
      assert (fed ++ [wanted] = pre ++ take (S (_index f)) (_bytesToFind f)) as E.
      { rewrite (take_S_r _ _ _ Hw), Hfed, app_assoc. reflexivity. }
      destruct (bool_decide (S (_index f) = length (_bytesToFind f))) eqn:Hd.
      * apply bool_decide_eq_true in Hd. simpl. split.
        -- exists (fed ++ [wanted]). simpl. now rewrite app_nil_r.
        -- intros _. exists pre. rewrite E, Hd, firstn_all. reflexivity.
      * simpl. split; [exists pre; exact E|discriminate].
    + simpl. split; [|discriminate].
      exists (fed ++ [b]). simpl. now rewrite app_nil_r.
  - simpl. split; [|discriminate].
    exists (fed ++ [b]). simpl. now rewrite app_nil_r.
Qed.

Lemma looks_sound_from (l : list Z) :
  forall (f : t) (fed : list Z) (k : nat),
    matched f fed -> looks f l !! k = Some true ->
    exists pre, fed ++ take (S k) l = pre ++ _bytesToFind f.
Proof.
  induction l as [|b l IH]; intros f fed k Hm Hk; [discriminate|].
  cbn [looks] in Hk. destruct (look b f) as [found f'] eqn:E.
  destruct (look_matched b f fed Hm) as [Hm' Hfound]. rewrite E in Hm', Hfound.
  simpl in Hm', Hfound.
  destruct k as [|k]; simpl in Hk.
  - injection Hk as ->. simpl. rewrite take_0. apply Hfound. reflexivity.
  - destruct (IH f' (fed ++ [b]) k Hm' Hk) as [pre Hpre].
    exists pre. rewrite <- app_assoc in Hpre. simpl in Hpre.
    change (take (S (S k)) (b :: l)) with (b :: take (S k) l).
    rewrite Hpre. f_equal.
    pose proof (look_pattern b f) as Hp. rewrite E in Hp. exact Hp.
Qed.

(** Too few bytes to complete the signature: no answer is [true]. *)
Lemma looks_short (l : list Z) :
  forall f, (_index f + length l < length (_bytesToFind f))%nat ->
    Forall (fun found => found = false) (looks f l).
Proof.
  induction l as [|b l IH]; intros f Hlen; cbn [looks]; [constructor|].
  simpl in Hlen. destruct (look b f) as [found f'] eqn:E.
  unfold look in E.
  assert (found = false
          /\ (_index f' <= S (_index f))%nat
          /\ _bytesToFind f' = _bytesToFind f) as (-> & Hi & Hp).
  { destruct (_bytesToFind f !! _index f).
    - destruct (b =? z).
      + destruct (bool_decide (S (_index f) = length (_bytesToFind f))) eqn:Hd.
        * apply bool_decide_eq_true in Hd. lia.
        * injection E as <- <-. simpl. auto.
      + injection E as <- <-. simpl. split; [auto|split; [lia|auto]].
    - injection E as <- <-. simpl. split; [auto|split; [lia|auto]]. }
  constructor; [reflexivity|]. apply IH. rewrite Hp. lia.
Qed.

End FindBytesFacts.

Module FindBytesExtras.
Import FindBytes FindBytesFacts.

(** X7.  Whenever [look] answers [true], the bytes it was given so far end with
    the signature. *)
Theorem look_reports_only_the_signature
    (signature l : list Z) (k : nat) :
  looks (new signature) l !! k = Some true ->
  exists pre, take (S k) l = pre ++ signature.
Proof.
  intros H.
  destruct (looks_sound_from l (new signature) [] k) as [pre Hpre].
  - exists []. reflexivity.
  - exact H.
  - exists pre. exact Hpre.
Qed.

Lemma look_reports_only_the_signature_witness :
  exists pre, take 6 [1; 2; 80; 75; 7; 8; 9] = pre ++ [80; 75; 7; 8].
Proof.
  apply (look_reports_only_the_signature [80; 75; 7; 8] [1; 2; 80; 75; 7; 8; 9] 5).
  reflexivity.
Defined.

(** X8.  A signature that starts right after a copy of its own first byte is
    missed: after a mismatch the finder starts over with the next byte and
    does not look at the mismatching byte again. *)
Theorem look_misses_a_signature_after_its_first_byte
    (p0 p1 : Z) (rest : list Z) :
  p0 <> p1 ->
  Forall (fun found => found = false)
         (looks (new (p0 :: p1 :: rest)) (p0 :: p0 :: p1 :: rest)).
Proof.
  intros Hne.
  assert (look p0 (new (p0 :: p1 :: rest))
          = (false, Mk (p0 :: p1 :: rest) 1)) as E1.
  { unfold look. simpl. rewrite Z.eqb_refl. reflexivity. }
  assert (look p0 (Mk (p0 :: p1 :: rest) 1)
          = (false, Mk (p0 :: p1 :: rest) 0)) as E2.
  { unfold look. simpl. assert ((p0 =? p1) = false) as -> by lia. reflexivity. }
  rewrite looks_cons, E1. cbn [fst snd]. rewrite looks_cons, E2. cbn [fst snd].
  constructor; [reflexivity|]. constructor; [reflexivity|].
  apply looks_short. simpl. lia.
Qed.

Lemma look_misses_a_signature_after_its_first_byte_witness :
  Forall (fun found => found = false)
         (looks (new [80; 75; 7; 8]) [80; 80; 75; 7; 8]).
Proof.
  apply (look_misses_a_signature_after_its_first_byte 80 75 [7; 8]). lia.
Defined.

End FindBytesExtras.

(** ** Reading up to a signature *)

Module UntilSignatureFacts.
Import UntilSignature ChunkBuffer ChunkBufferFacts FindBytesFacts.

(** A match is reported after at least one and at most all bytes of the
    chunk, and its bytes so far end with the signature. *)
Lemma scan_found (bytes : list byte) :
  forall (f f' : FindBytes.t) (off k : Z) (fed : list Z),
    matched f fed ->
    scan f bytes off = (Some k, f') ->
    off < k <= off + blen bytes
    /\ FindBytes._bytesToFind f' = FindBytes._bytesToFind f
    /\ matched f' (fed ++ map byteZ (take (Z.to_nat (k - off)) bytes))
    /\ exists pre,
         fed ++ map byteZ (take (Z.to_nat (k - off)) bytes)
         = pre ++ FindBytes._bytesToFind f.
Proof.
  induction bytes as [|b rest IH]; intros f f' off k fed Hm H; [discriminate|].
  cbn [scan] in H.
  destruct (look_matched (byteZ b) f fed Hm) as [Hm' Hfound].
  pose proof (look_pattern (byteZ b) f) as Hp.
  destruct (FindBytes.look (byteZ b) f) as [found f1].
  cbn [fst snd] in *. unfold blen. cbn [length].
  destruct found.
  - injection H as <- <-. split; [lia|]. split; [exact Hp|].
    replace (Z.to_nat (off + 1 - off)) with 1%nat by lia.
    change (take 1 (b :: rest)) with (b :: take 0 rest).
    rewrite take_0. split; [exact Hm'|]. apply Hfound. reflexivity.
  - destruct (IH _ _ _ _ _ Hm' H) as (Hk & Hp' & Hm'' & pre & Hpre).
    unfold blen in Hk. split; [lia|]. split; [congruence|].
    replace (Z.to_nat (k - off)) with (S (Z.to_nat (k - (off + 1)))) by lia.
    change (take (S ?n) (b :: rest)) with (b :: take n rest).
    rewrite <- app_assoc in Hpre, Hm''. split; [exact Hm''|].
    exists pre. rewrite Hp in Hpre. exact Hpre.
Qed.

Lemma scan_not_found (bytes : list byte) :
  forall (f f' : FindBytes.t) (off : Z) (fed : list Z),
    matched f fed ->
    scan f bytes off = (None, f') ->
    matched f' (fed ++ map byteZ bytes)
    /\ FindBytes._bytesToFind f' = FindBytes._bytesToFind f.
Proof.
  induction bytes as [|b rest IH]; intros f f' off fed Hm H.
  - injection H as <-. simpl. rewrite app_nil_r. auto.
  - cbn [scan] in H.
    destruct (look_matched (byteZ b) f fed Hm) as [Hm' _].
    pose proof (look_pattern (byteZ b) f) as Hp.
    destruct (FindBytes.look (byteZ b) f) as [found f1].
    cbn [fst snd] in *. destruct found; [discriminate|].
    destruct (IH _ _ _ _ Hm' H) as [H1 H2].
    simpl. rewrite <- app_assoc in H1. split; [exact H1|congruence].
Qed.

Lemma subarray_prefix (b : Buffer) (k : Z) :
  0 <= k <= blen b -> subarray b 0 k = take (Z.to_nat k) b.
Proof.
  intros Hk. unfold subarray, relIndex.
  assert ((0 <? 0) = false) as -> by reflexivity.
  assert ((k <? 0) = false) as -> by lia.
  rewrite !Z.min_l by lia. rewrite Z.sub_0_r. reflexivity.
Qed.

Lemma concat_snoc (l : list Buffer) (x : Buffer) :
  concat (l ++ [x]) = concat l ++ x.
Proof. rewrite concat_app. simpl. now rewrite app_nil_r. Qed.

Lemma chunksLoop_inv (signature : list Z) (chunks : list Buffer) :
  forall (r : run) (size : Z),
    consistent signature r ->
    match chunksLoop r chunks size with
    | Found r' cb' =>
        consistent signature r' /\ wf cb' /\ _chunks cb' <> []
        /\ (exists pre,
               map byteZ (concat (delivered r')) = pre ++ signature)
        /\ exists dropped,
             concat (delivered r') ++ contents cb' ++ dropped
             = concat (delivered r) ++ concat chunks
             /\ (atMostOne chunks -> dropped = [])
    | Exhausted r' size' =>
        consistent signature r'
        /\ concat (delivered r') = concat (delivered r) ++ concat chunks
        /\ size' = size - blen (concat chunks)
    end.
Proof.
  induction chunks as [|chunk rest IH]; intros r size (Hc & Hp & Hm).
  - simpl. rewrite app_nil_r. split; [split; auto|]. split; [auto|].
    unfold blen. simpl. lia.
  - cbn [chunksLoop]. cbv zeta.
    destruct (scan (finder r) chunk 0) as [[k|] f'] eqn:E.
    + destruct (scan_found _ _ _ _ _ _ Hm E) as (Hk & Hp' & Hm' & pre & Hpre).
      rewrite Z.sub_0_r in Hm', Hpre.
      assert (subarray chunk 0 k = take (Z.to_nat k) chunk) as Hsub
        by (apply subarray_prefix; lia).
      rewrite Hsub. unfold consistent.
      cbn [delivered consumedBytes finder]. rewrite !concat_snoc.
      split; [|split; [apply wf_single|split; [discriminate|split]]].
      * split; [|split].
        -- rewrite blen_app, <- Hc. unfold blen. rewrite length_take.
           unfold blen in Hk. lia.
        -- congruence.
        -- rewrite map_app. exact Hm'.
      * exists pre. rewrite map_app, Hpre, Hp. reflexivity.
      * exists (concat rest). split.
        -- rewrite contents_single. simpl.
           rewrite <- (subarray_split chunk k) at 3. rewrite Hsub.
           rewrite <- !app_assoc. reflexivity.
        -- unfold atMostOne. simpl. intros H.
           destruct rest; [reflexivity|simpl in H; lia].
    + destruct (scan_not_found _ _ _ _ _ Hm E) as [Hm' Hp'].
      specialize (IH (Run f' (consumedBytes r + blen chunk)
                          (delivered r ++ [chunk])) (size - blen chunk)).
      cbn [delivered consumedBytes finder] in IH.
      rewrite concat_snoc in IH.
      assert (consistent signature
                (Run f' (consumedBytes r + blen chunk) (delivered r ++ [chunk])))
        as Hcons.
      { split; [|split]; cbn [delivered consumedBytes finder].
        - rewrite concat_snoc, blen_app. lia.
        - congruence.
        - rewrite concat_snoc, map_app. exact Hm'. }
      specialize (IH Hcons).
      destruct (chunksLoop _ rest (size - blen chunk)) as [r' cb'|r' size'].
      * destruct IH as (H1 & H2 & H3 & H4 & dropped & H5 & H6).
        split; [exact H1|]. split; [exact H2|]. split; [exact H3|].
        split; [exact H4|]. exists dropped. split.
        -- rewrite H5. simpl. rewrite <- app_assoc. reflexivity.
        -- unfold atMostOne in *. simpl. intros H.
           destruct rest; [apply H6; simpl; lia|simpl in H; lia].
      * destruct IH as (H1 & H2 & H3). split; [exact H1|]. split.
        -- rewrite H2. simpl. rewrite <- app_assoc. reflexivity.
        -- rewrite H3. simpl. rewrite blen_app. lia.
Qed.

End UntilSignatureFacts.

Module UntilSignatureLoop.
Import UntilSignature ChunkBuffer ChunkBufferFacts FindBytesFacts
       UntilSignatureFacts.

Lemma consistent_start (signature : list Z) :
  consistent signature (Run (FindBytes.new signature) 0 []).
Proof. split; [reflexivity|]. split; [reflexivity|]. exists []. reflexivity. Qed.

(** What the waits add to a consistent call that starts them with an
    empty buffer. *)
Lemma waits_inv (signature : list Z) (thr : bool) (inc : incoming) :
  forall (r : run),
    consistent signature r ->
    match waits thr r 0 inc with
    | (o, r', cb', inc') =>
        consistent signature r' /\ wf cb'
        /\ (forall n, o = Return n -> n = consumedBytes r')
        /\ (_chunks cb' <> [] ->
            exists pre, map byteZ (concat (delivered r')) = pre ++ signature)
        /\ exists dropped,
             concat (delivered r') ++ contents cb' ++ dropped ++ flat inc'
             = concat (delivered r) ++ flat inc
             /\ (Forall atMostOne inc -> dropped = [])
    end.
Proof.
  induction inc as [|batch rest IH]; intros r Hr.
  - cbn [waits]. split; [exact Hr|]. split; [reflexivity|].
    split; [destruct thr; [discriminate|intros n [= <-]; reflexivity]|].
    split; [intros H; exfalso; apply H; reflexivity|].
    exists []. split; [|reflexivity]. unfold flat. simpl.
    now rewrite !app_nil_r.
  - cbn [waits]. cbv zeta.
    pose proof (chunksLoop_inv signature
                  (_chunks (push batch (Mk [] 0)))
                  r (_size (push batch (Mk [] 0))) Hr) as H.
    assert (_chunks (push batch (Mk [] 0)) = batch) as Hb by reflexivity.
    rewrite Hb in *. rewrite flat_cons.
    destruct (chunksLoop r batch (_size (push batch (Mk [] 0))))
      as [r' cb'|r' size'].
    + destruct H as (H1 & H2 & H3 & H4 & dropped & H5 & H6).
      split; [exact H1|]. split; [exact H2|].
      split; [intros n [= <-]; reflexivity|]. split; [intros _; exact H4|].
      exists dropped. split.
      * rewrite !app_assoc. rewrite <- (app_assoc _ (contents cb')).
        rewrite H5. rewrite <- !app_assoc. reflexivity.
      * intros HF. apply H6. inversion HF; assumption.
    + destruct H as (H1 & H2 & H3).
      assert (size' = 0) as ->.
      { rewrite H3, size_push. simpl. lia. }
      destruct batch as [|chunk more].
      * split; [exact H1|]. split; [reflexivity|].
        split; [intros n [= <-]; reflexivity|].
        split; [intros H; exfalso; apply H; reflexivity|].
        exists []. split; [|reflexivity]. rewrite H2. simpl.
        now rewrite !app_nil_r.
      * specialize (IH r' H1).
        destruct (waits thr r' 0 rest) as [[[o r''] cb''] inc''].
        destruct IH as (I1 & I2 & I3 & I4 & dropped & I5 & I6).
        split; [exact I1|]. split; [exact I2|]. split; [exact I3|].
        split; [exact I4|]. exists dropped. split.
        -- rewrite I5, H2. rewrite <- !app_assoc. reflexivity.
        -- intros HF. apply I6. inversion HF; assumption.
Qed.

End UntilSignatureLoop.

Module UntilSignatureExtras.
Import UntilSignature ChunkBuffer ChunkBufferFacts UntilSignatureFacts
       UntilSignatureLoop.

(** X9.  [consumeUntilSignature] resolves to the number of bytes it handed to
    [onChunk].  These bytes, the bytes it leaves in the buffer, some bytes
    it dropped and the bytes that did not arrive are, in this order, the
    bytes that were buffered and those of the source.  Nothing is dropped
    when the buffer held at most one chunk and every push brings at most
    one chunk; a match in a longer queue drops the chunks behind the
    matching one. *)
Theorem consumeUntilSignature_accounts_for_the_bytes
    (signature : list Z) (thr : bool) (cb : t) (inc : incoming) :
  wf cb ->
  match consumeUntilSignature signature thr cb inc with
  | (o, r, cb', inc') =>
      (forall n, o = Return n -> n = blen (concat (delivered r)))
      /\ wf cb'
      /\ exists dropped,
           concat (delivered r) ++ contents cb' ++ dropped ++ flat inc'
           = contents cb ++ flat inc
           /\ (atMostOne (_chunks cb) -> Forall atMostOne inc -> dropped = [])
  end.
Proof.
  intros Hwf. unfold consumeUntilSignature. cbv zeta.
  pose proof (consistent_start signature) as Hr.
  destruct (_chunks cb) as [|chunk more] eqn:Hch.
  - assert (_size cb = 0) as ->.
    { rewrite Hwf. unfold contents. rewrite Hch. reflexivity. }
    pose proof (waits_inv signature thr inc _ Hr) as H.
    destruct (waits thr _ 0 inc) as [[[o r] cb'] inc'].
    destruct H as ((Hc & _) & H2 & H3 & _ & dropped & H5 & H6).
    split; [intros n Hn; rewrite <- Hc; apply H3, Hn|]. split; [exact H2|].
    exists dropped. split; [|intros _; exact H6].
    unfold contents at 2. rewrite Hch. exact H5.
  - pose proof (chunksLoop_inv signature (chunk :: more) _ (_size cb) Hr) as H.
    destruct (chunksLoop _ (chunk :: more) (_size cb)) as [r' cb'|r' size'].
    + destruct H as ((Hc & _) & H2 & _ & _ & dropped & H5 & H6).
      split; [intros n [= <-]; exact Hc|]. split; [exact H2|].
      exists dropped. split; [|intros H _; apply H6, H].
      unfold contents at 2. rewrite Hch. simpl in H5.
      rewrite !app_assoc. rewrite <- (app_assoc _ (contents cb')).
      rewrite H5. reflexivity.
    + destruct H as (H1 & H2 & H3).
      assert (size' = 0) as ->.
      { rewrite H3, Hwf. unfold contents. rewrite Hch. lia. }
      pose proof (waits_inv signature thr inc _ H1) as H.
      destruct (waits thr r' 0 inc) as [[[o r] cb'] inc'].
      destruct H as ((Hc & _) & I2 & I3 & _ & dropped & I5 & I6).
      split; [intros n Hn; rewrite <- Hc; apply I3, Hn|]. split; [exact I2|].
      exists dropped. split; [|intros _; exact I6].
      unfold contents at 2. rewrite Hch. rewrite I5, H2. reflexivity.
Qed.

(** X10.  When [consumeUntilSignature] leaves a chunk in the buffer, it stopped
    at a match: the bytes it handed to [onChunk] end with the signature. *)
Theorem consumeUntilSignature_stops_after_the_signature
    (signature : list Z) (thr : bool) (cb : t) (inc : incoming) :
  wf cb ->
  match consumeUntilSignature signature thr cb inc with
  | (o, r, cb', inc') =>
      _chunks cb' <> [] ->
      exists pre, map byteZ (concat (delivered r)) = pre ++ signature
  end.
Proof.
  intros Hwf. unfold consumeUntilSignature. cbv zeta.
  pose proof (consistent_start signature) as Hr.
  destruct (_chunks cb) as [|chunk more] eqn:Hch.
  - assert (_size cb = 0) as ->.
    { rewrite Hwf. unfold contents. rewrite Hch. reflexivity. }
    pose proof (waits_inv signature thr inc _ Hr) as H.
    destruct (waits thr _ 0 inc) as [[[o r] cb'] inc'].
    destruct H as (_ & _ & _ & H4 & _). exact H4.
  - pose proof (chunksLoop_inv signature (chunk :: more) _ (_size cb) Hr) as H.
    destruct (chunksLoop _ (chunk :: more) (_size cb)) as [r' cb'|r' size'].
    + destruct H as (_ & _ & _ & H4 & _). intros _. exact H4.
    + destruct H as (H1 & H2 & H3).
      assert (size' = 0) as ->.
      { rewrite H3, Hwf. unfold contents. rewrite Hch. lia. }
      pose proof (waits_inv signature thr inc _ H1) as H.
      destruct (waits thr r' 0 inc) as [[[o r] cb'] inc'].
      destruct H as (_ & _ & _ & H4 & _). exact H4.
Qed.

Lemma consumeUntilSignature_accounts_for_the_bytes_witness :
  wf SignatureSamples.holding
  /\ match consumeUntilSignature SignatureSamples.signature false
                                 SignatureSamples.holding [] with
     | (o, r, cb', inc') =>
         (forall n, o = Return n -> n = blen (concat (delivered r)))
         /\ wf cb'
         /\ exists dropped,
              concat (delivered r) ++ contents cb' ++ dropped ++ flat inc'
              = contents SignatureSamples.holding ++ flat []
              /\ (atMostOne (_chunks SignatureSamples.holding) ->
                  Forall atMostOne [] -> dropped = [])
     end.
Proof.
  split; [reflexivity|].
  apply (consumeUntilSignature_accounts_for_the_bytes
           SignatureSamples.signature false SignatureSamples.holding []).
  reflexivity.
Defined.

Lemma consumeUntilSignature_stops_after_the_signature_witness :
  wf SignatureSamples.holding
  /\ exists pre, [1; 2; 80; 75; 7; 8] = pre ++ SignatureSamples.signature.
Proof.
  split; [reflexivity|].
  pose proof (consumeUntilSignature_stops_after_the_signature
                SignatureSamples.signature false SignatureSamples.holding []
                eq_refl) as H.
  vm_compute in H. apply H. discriminate.
Defined.

End UntilSignatureExtras.

(** ** Tar header fields: binary numbers *)

Module TarFieldFacts.
Import Tar.

Lemma byteZ_range (b : byte) : 0 <= byteZ b < 256.
Proof.
  unfold byteZ. pose proof (Byte.to_N_bounded b). lia.
Qed.

Lemma beValue_from (l : list byte) :
  forall acc,
    fold_left (fun acc b => 256 * acc + byteZ b) l acc
    = acc * 256 ^ Z.of_nat (length l) + beValue l.
Proof.
  unfold beValue. induction l as [|b l IH]; intros acc.
  - simpl. lia.
  - cbn [fold_left length]. rewrite IH, (IH (256 * 0 + byteZ b)).
    rewrite Nat2Z.inj_succ, Z.pow_succ_r by lia. lia.
Qed.

Lemma beValue_cons (b : byte) (l : list byte) :
  beValue (b :: l) = byteZ b * 256 ^ Z.of_nat (length l) + beValue l.
Proof.
  unfold beValue at 1. cbn [fold_left]. rewrite beValue_from. lia.
Qed.

Lemma beValue_nonneg (l : list byte) : 0 <= beValue l.
Proof.
  induction l as [|b l IH]; [unfold beValue; simpl; lia|].
  rewrite beValue_cons. pose proof (byteZ_range b).
  assert (0 <= 256 ^ Z.of_nat (length l)) by (apply Z.pow_nonneg; lia). nia.
Qed.

Lemma readUInt8_at (buffer : Buffer) (i : Z) (b : byte) :
  0 <= i -> buffer !! Z.to_nat i = Some b ->
  readUInt8 buffer i = Some (byteZ b).
Proof.
  intros Hi Hb. unfold readUInt8, bytesAt.
  pose proof (lookup_lt_Some _ _ _ Hb) as Hlt.
  assert ((0 <=? i) = true) as -> by (apply Z.leb_le; lia).
  assert ((i + Z.of_nat 1 <=? blen buffer) = true) as ->
    by (apply Z.leb_le; unfold blen; lia).
  simpl. erewrite drop_S by exact Hb. simpl. rewrite take_0.
  unfold beValue. simpl. reflexivity.
Qed.

(** The test [byte >> 7 & 1] holds for the bytes from 128 on. *)
Lemma high_bit_test (v : Z) :
  0 <= v < 256 -> negb (Z.land (Z.shiftr v 7) 1 =? 0) = (128 <=? v).
Proof.
  intros Hr.
  rewrite Z.shiftr_div_pow2 by lia. change (2 ^ 7) with 128.
  change 1 with (Z.ones 1). rewrite Z.land_ones by lia.
  change (2 ^ 1) with 2.
  assert (0 <= v / 128 < 2) as Hq
    by (split; [apply Z.div_pos; lia|apply Z.div_lt_upper_bound; lia]).
  assert (128 * (v / 128) <= v) by (apply Z.mul_div_le; lia).
  assert (v < 128 * (v / 128) + 128).
  { pose proof (Z.mod_pos_bound v 128 ltac:(lia)).
    pose proof (Z.div_mod v 128 ltac:(lia)). lia. }
  assert (v / 128 = 0 \/ v / 128 = 1) as [E|E] by lia; rewrite E in *; simpl.
  - symmetry. apply Z.leb_gt. lia.
  - symmetry. apply Z.leb_le. lia.
Qed.

(** A field whose first byte has the high bit set is scanned as binary. *)
Lemma scanField_binary (buffer : Buffer) (off : Z) (todo : nat) (b : byte) :
  0 <= off -> buffer !! Z.to_nat off = Some b -> 128 <= byteZ b ->
  scanField buffer off (S todo) 0 = Binary.
Proof.
  intros Hoff Hb Hhigh. cbn [scanField]. rewrite Z.add_0_r.
  rewrite (readUInt8_at _ _ _ Hoff Hb).
  rewrite high_bit_test by apply byteZ_range.
  assert ((128 <=? byteZ b) = true) as -> by (apply Z.leb_le; lia).
  reflexivity.
Qed.

Lemma readBigUInt64BE_in (buffer : Buffer) (i : Z) :
  0 <= i -> i + 8 <= blen buffer ->
  readBigUInt64BE buffer i = Some (beValue (take 8 (drop (Z.to_nat i) buffer))).
Proof.
  intros H1 H2. unfold readBigUInt64BE. rewrite bytesAt_in_range by (simpl; lia).
  reflexivity.
Qed.

End TarFieldFacts.

Module TarFieldExtras.
Import Tar TarFieldFacts.

(** X11.  A field whose leading byte has its high bit set is read as a binary
    number: a field of fewer than 8 bytes is refused, a wider one yields the
    big-endian value of its last 8 bytes when that is a safe integer and is
    refused otherwise.  A field of exactly 8 bytes is therefore always
    refused, its leading byte being part of the value. *)
Theorem entry_reads_binary_fields
    (buffer : Buffer) (size : Z) (isOctal : bool) (c : cursor) (b : byte) :
  0 <= offset c -> 0 < size -> offset c + size <= blen buffer ->
  buffer !! Z.to_nat (offset c) = Some b -> 128 <= byteZ b ->
  let value := beValue (take 8 (drop (Z.to_nat (offset c + size - 8)) buffer)) in
  entry buffer size isOctal c
  = (if size <? 8 then (Throw BinaryFieldTooNarrow, c)
     else if MAX_SAFE_INTEGER <? value then (Throw BinaryValueTooLarge, c)
     else (Return (JNumber value), Cursor (offset c + size) false))
  /\ (size = 8 -> entry buffer size isOctal c = (Throw BinaryValueTooLarge, c)).
Proof.
  intros Hoff Hsize Hin Hb Hhigh value.
  assert (entry buffer size isOctal c
          = (if size <? 8 then (Throw BinaryFieldTooNarrow, c)
             else if MAX_SAFE_INTEGER <? value
                  then (Throw BinaryValueTooLarge, c)
                  else (Return (JNumber value), Cursor (offset c + size) false)))
    as E.
  { unfold entry.
    replace (Z.to_nat size) with (S (Z.to_nat (size - 1))) by lia.
    rewrite (scanField_binary _ _ _ _ Hoff Hb Hhigh).
    destruct (size <? 8) eqn:E8.
    - assert ((size * 8 <? 64) = true) as -> by (apply Z.ltb_lt; lia).
      reflexivity.
    - assert ((size * 8 <? 64) = false) as -> by (apply Z.ltb_ge; lia).
      rewrite readBigUInt64BE_in by lia. fold value.
      assert ((value <? MIN_SAFE_INTEGER) = false) as ->.
      { apply Z.ltb_ge. pose proof (beValue_nonneg
          (take 8 (drop (Z.to_nat (offset c + size - 8)) buffer))).
        unfold MIN_SAFE_INTEGER. fold value in H. lia. }
      rewrite orb_false_r. reflexivity. }
  split; [exact E|]. intros ->. rewrite E. simpl.
  assert ((MAX_SAFE_INTEGER <? value) = true) as ->; [|reflexivity].
  apply Z.ltb_lt. subst value.
  replace (offset c + 8 - 8) with (offset c) by lia.
  erewrite drop_S by exact Hb.
  change (take 8 (b :: ?l)) with (b :: take 7 l).
  rewrite beValue_cons.
  pose proof (beValue_nonneg (take 7 (drop (S (Z.to_nat (offset c))) buffer))).
  assert (length (take 7 (drop (S (Z.to_nat (offset c))) buffer)) = 7%nat) as ->.
  { rewrite length_take, length_drop. unfold blen in Hin. lia. }
  unfold MAX_SAFE_INTEGER. change (256 ^ Z.of_nat 7) with 72057594037927936.
  change (2 ^ 53 - 1) with 9007199254740991. lia.
Qed.

Lemma entry_reads_binary_fields_witness :
  entry FieldSamples.binarySize 12 true (Cursor 0 true)
  = (Return (JNumber 256), Cursor 12 false).
Proof.
  destruct (entry_reads_binary_fields FieldSamples.binarySize 12 true
              (Cursor 0 true) x80) as [H _].
  - simpl. lia.
  - lia.
  - vm_compute. discriminate.
  - reflexivity.
  - vm_compute. discriminate.
  - exact H.
Defined.

End TarFieldExtras.

(** ** Tar header fields: octal numbers *)

Module Utf8Facts.

Lemma run_ascii (l : list byte) :
  Forall (fun b => byteZ b < 128) l -> Utf8.run Utf8.start l = l.
Proof.
  induction 1 as [|b l Hb _ IH]; [reflexivity|].
  cbn [Utf8.run]. unfold Utf8.step. cbn [Utf8.needed Utf8.start]. unfold Utf8.lead.
  assert ((byteZ b <=? 127) = true) as -> by (apply Z.leb_le; lia).
  cbn [app]. fold Utf8.start. rewrite IH. reflexivity.
Qed.

Lemma stripBOM_ascii (l : list byte) :
  Forall (fun b => byteZ b < 128) l -> Utf8.stripBOM l = l.
Proof.
  intros H. destruct l as [|b0 [|b1 [|b2 rest]]]; try reflexivity.
  inversion H as [|? ? H0 _]; subst. unfold Utf8.stripBOM.
  assert ((byteZ b0 =? 239) = false) as -> by (apply Z.eqb_neq; lia).
  reflexivity.
Qed.

(** Text without bytes above 127 is decoded as it is. *)
Lemma TextDecoder_decode_ascii (l : list byte) :
  Forall (fun b => byteZ b < 128) l ->
  TextDecoder_decode l = string_of_list_byte l.
Proof.
  intros H. unfold TextDecoder_decode, Utf8.decode.
  rewrite run_ascii, stripBOM_ascii by exact H. reflexivity.
Qed.

Lemma Buffer_toString_ascii (l : list byte) :
  Forall (fun b => byteZ b < 128) l ->
  Buffer_toString l = string_of_list_byte l.
Proof.
  intros H. unfold Buffer_toString, Utf8.decode.
  rewrite run_ascii by exact H. reflexivity.
Qed.

End Utf8Facts.

Module OctalFacts.
Import Tar TarFieldFacts JSString.

Lemma N_of_ascii_of_byte (b : byte) : N_of_ascii (ascii_of_byte b) = Byte.to_N b.
Proof.
  rewrite ascii_of_byte_via_N. apply N_ascii_embedding.
  pose proof (Byte.to_N_bounded b). lia.
Qed.

Lemma string_of_list_byte_cons (b : byte) (l : list byte) :
  string_of_list_byte (b :: l)
  = String (ascii_of_byte b) (string_of_list_byte l).
Proof. reflexivity. Qed.

Lemma octalDigit_of_byte (b : byte) :
  octalDigit (ascii_of_byte b)
  = if (48 <=? byteZ b) && (byteZ b <=? 55) then Some (byteZ b - 48) else None.
Proof.
  unfold octalDigit, byteZ. rewrite N_of_ascii_of_byte.
  destruct (Byte.to_N b) as [|p]; [reflexivity|].
  destruct ((48 <=? N.pos p)%N) eqn:E1, ((N.pos p <=? 55)%N) eqn:E2;
    simpl;
    repeat match goal with
           | H : (_ <=? _)%N = true |- _ => apply N.leb_le in H
           | H : (_ <=? _)%N = false |- _ => apply N.leb_gt in H
           end.
  - assert ((48 <=? Z.pos p) = true) as -> by (apply Z.leb_le; lia).
    assert ((Z.pos p <=? 55) = true) as -> by (apply Z.leb_le; lia).
    reflexivity.
  - assert ((Z.pos p <=? 55) = false) as -> by (apply Z.leb_gt; lia).
    now rewrite andb_false_r.
  - assert ((48 <=? Z.pos p) = false) as -> by (apply Z.leb_gt; lia).
    reflexivity.
  - assert ((48 <=? Z.pos p) = false) as -> by (apply Z.leb_gt; lia).
    reflexivity.
Qed.

Lemma octalDigit_digit (b : byte) :
  isOctalDigit b -> octalDigit (ascii_of_byte b) = Some (byteZ b - 48).
Proof.
  intros [H1 H2]. rewrite octalDigit_of_byte.
  assert ((48 <=? byteZ b) = true) as -> by (apply Z.leb_le; lia).
  assert ((byteZ b <=? 55) = true) as -> by (apply Z.leb_le; lia).
  reflexivity.
Qed.

(** The digits are read up to the first byte that is no octal digit. *)
Lemma octalPrefix_digits (digits : list byte) :
  forall (acc : option Z) (tail : list byte),
    Forall isOctalDigit digits -> digits <> [] ->
    (tail = [] \/ exists t r, tail = t :: r /\ ~ isOctalDigit t) ->
    octalPrefix (string_of_list_byte (digits ++ tail)) acc
    = Some (default 0 acc * 8 ^ Z.of_nat (length digits) + octalValue digits).
Proof.
  induction digits as [|d rest IH]; intros acc tail Hd Hne Ht; [congruence|].
  inversion Hd as [|? ? Hd1 Hd2]; subst.
  cbn [app]. rewrite string_of_list_byte_cons. cbn [octalPrefix].
  rewrite (octalDigit_digit d Hd1).
  destruct rest as [|d' rest'].
  - cbn [app length octalValue].
    assert (octalPrefix (string_of_list_byte tail)
              (Some (8 * default 0 acc + (byteZ d - 48)))
            = Some (8 * default 0 acc + (byteZ d - 48))) as ->.
    { destruct Ht as [->|(t & r & -> & Hnt)]; [reflexivity|].
      rewrite string_of_list_byte_cons. cbn [octalPrefix].
      rewrite octalDigit_of_byte. unfold isOctalDigit in Hnt.
      destruct ((48 <=? byteZ t) && (byteZ t <=? 55)) eqn:E; [|reflexivity].
      apply andb_true_iff in E as [E1 E2].
      apply Z.leb_le in E1. apply Z.leb_le in E2. lia. }
    f_equal. change (Z.of_nat 1) with 1. change (Z.of_nat 0) with 0. lia.
  - rewrite (IH _ tail Hd2 ltac:(discriminate) Ht).
    f_equal. remember (d' :: rest') as more eqn:Hmore.
    cbn [default octalValue length].
    rewrite Nat2Z.inj_succ, Z.pow_succ_r by lia.
    generalize (8 ^ Z.of_nat (length more)). intros pw. unfold id. generalize (default 0 acc). intros a. ring.
Qed.

(** With no sign and no leading white space the digits are all that
    [parseInt] looks at. *)
Lemma parseInt8_unsigned (a : ascii) (r : string) :
  isSpace a = false -> a <> "-"%char -> a <> "+"%char ->
  parseInt8 (String a r)
  = match octalPrefix (String a r) None with
    | Some v => JNumber (1 * v)
    | None => JNaN
    end.
Proof.
  intros Hs Hm Hp. unfold parseInt8. cbn [trimStart]. rewrite Hs.
  destruct a as [[] [] [] [] [] [] [] []]; try reflexivity; congruence.
Qed.

Lemma digit_is_no_sign (d : byte) :
  isOctalDigit d ->
  isSpace (ascii_of_byte d) = false
  /\ ascii_of_byte d <> "-"%char /\ ascii_of_byte d <> "+"%char.
Proof.
  intros [H1 H2]. unfold isSpace. rewrite N_of_ascii_of_byte.
  unfold byteZ in *. split; [|split].
  - apply orb_false_iff. split.
    + apply andb_false_iff. right. apply N.leb_gt. lia.
    + apply N.eqb_neq. lia.
  - intros E. apply (f_equal N_of_ascii) in E.
    rewrite N_of_ascii_of_byte in E. simpl in E. lia.
  - intros E. apply (f_equal N_of_ascii) in E.
    rewrite N_of_ascii_of_byte in E. simpl in E. lia.
Qed.

(** [parseInt(text, 8)] on digits followed by nothing or by a byte that is
    no octal digit. *)
Lemma parseInt8_digits (digits tail : list byte) :
  Forall isOctalDigit digits -> digits <> [] ->
  (tail = [] \/ exists t r, tail = t :: r /\ ~ isOctalDigit t) ->
  parseInt8 (string_of_list_byte (digits ++ tail)) = JNumber (octalValue digits).
Proof.
  intros Hd Hne Ht.
  pose proof (octalPrefix_digits digits None tail Hd Hne Ht) as E.
  destruct digits as [|d rest]; [congruence|].
  inversion Hd as [|? ? Hd1 _]; subst.
  destruct (digit_is_no_sign d Hd1) as (Hs & Hm & Hp).
  cbn [app] in *. rewrite string_of_list_byte_cons in *.
  rewrite parseInt8_unsigned by assumption. rewrite E.
  f_equal. cbn [default]. lia.
Qed.

(** The scan of a field stops at the first NUL or at the end of the
    field. *)
Lemma scanField_text (buffer : Buffer) (off : Z) (plain : list byte) :
  forall (todo : nat) (strSize : Z) (rest : list byte),
    0 <= off + strSize ->
    (Z.to_nat (off + strSize) + todo <= length buffer)%nat ->
    take todo (drop (Z.to_nat (off + strSize)) buffer) = plain ++ rest ->
    Forall (fun b => 0 < byteZ b < 128) plain ->
    (rest = [] \/ exists r, rest = x00 :: r) ->
    scanField buffer off todo strSize = Text (strSize + blen plain).
Proof.
  induction plain as [|b plain IH]; intros todo strSize rest Hpos Hin Ht Hp Hr.
  - unfold blen. simpl. rewrite Z.add_0_r. simpl in Ht.
    destruct Hr as [->|[r ->]].
    + assert (todo = 0%nat) as ->.
      { apply (f_equal length) in Ht. rewrite length_take, length_drop in Ht.
        simpl in Ht. lia. }
      reflexivity.
    + destruct todo as [|todo]; [discriminate|].
      assert (buffer !! Z.to_nat (off + strSize) = Some x00) as Hb.
      { destruct (drop (Z.to_nat (off + strSize)) buffer) as [|x l] eqn:E;
          [discriminate|].
        injection Ht as -> _.
        pose proof (lookup_drop buffer (Z.to_nat (off + strSize)) 0) as Hl.
        rewrite Nat.add_0_r, E in Hl. symmetry. exact Hl. }
      cbn [scanField]. rewrite (readUInt8_at _ _ _ Hpos Hb). reflexivity.
  - inversion Hp as [|? ? Hb1 Hp']; subst.
    destruct todo as [|todo]; [discriminate|].
    destruct (drop (Z.to_nat (off + strSize)) buffer) as [|x l] eqn:E;
      [discriminate|].
    cbn [take app] in Ht. injection Ht as -> Ht.
    assert (buffer !! Z.to_nat (off + strSize) = Some b) as Hb.
    { pose proof (lookup_drop buffer (Z.to_nat (off + strSize)) 0) as Hl.
      rewrite Nat.add_0_r, E in Hl. symmetry. exact Hl. }
    cbn [scanField]. rewrite (readUInt8_at _ _ _ Hpos Hb).
    rewrite high_bit_test by apply byteZ_range.
    assert ((128 <=? byteZ b) = false) as -> by (apply Z.leb_gt; lia).
    assert ((byteZ b =? 0) = false) as -> by (apply Z.eqb_neq; lia).
    cbn [negb]. cbv iota.
    rewrite (IH todo (strSize + 1) rest).
    + f_equal. unfold blen. cbn [length]. lia.
    + lia.
    + replace (Z.to_nat (off + (strSize + 1)))
        with (S (Z.to_nat (off + strSize))) by lia. lia.
    + replace (Z.to_nat (off + (strSize + 1)))
        with (S (Z.to_nat (off + strSize))) by lia.
      rewrite <- Ht. f_equal.
      pose proof (drop_drop buffer 1 (Z.to_nat (off + strSize))) as Hdd.
      rewrite E in Hdd. cbn [drop] in Hdd.
      rewrite Nat.add_1_r in Hdd. symmetry. exact Hdd.
    + exact Hp'.
    + exact Hr.
Qed.

Lemma subarray_middle (b : Buffer) (lo hi : Z) :
  0 <= lo <= hi -> hi <= blen b ->
  subarray b lo hi = take (Z.to_nat (hi - lo)) (drop (Z.to_nat lo) b).
Proof.
  intros H1 H2. unfold subarray, relIndex.
  assert ((lo <? 0) = false) as -> by (apply Z.ltb_ge; lia).
  assert ((hi <? 0) = false) as -> by (apply Z.ltb_ge; lia).
  rewrite !Z.min_l by lia. reflexivity.
Qed.

End OctalFacts.

Module OctalExtras.
Import Tar TarFieldFacts OctalFacts.

(** X12.  A numeric field that holds octal digits, then possibly a space, then
    nothing more or a NUL byte and anything, is read as the number the
    digits denote; the cursor moves past the field and the record is no
    longer all zero. *)
Theorem entry_reads_octal_fields
    (buffer : Buffer) (size : Z) (c : cursor) (digits sp rest : list byte) :
  0 <= offset c -> offset c + size <= blen buffer ->
  take (Z.to_nat size) (drop (Z.to_nat (offset c)) buffer)
  = digits ++ sp ++ rest ->
  digits <> [] -> Forall isOctalDigit digits ->
  sp = [] \/ sp = [x20] ->
  rest = [] \/ (exists r, rest = x00 :: r) ->
  entry buffer size true c
  = (Return (JNumber (octalValue digits)), Cursor (offset c + size) false).
Proof.
  intros Hoff Hin Hfield Hne Hd Hsp Hrest.
  assert (0 <= size) as Hsize.
  { destruct (Z_lt_le_dec size 0) as [Hneg|]; [|assumption].
    replace (Z.to_nat size) with 0%nat in Hfield by lia.
    simpl in Hfield. destruct digits; [congruence|discriminate]. }
  assert (Forall (fun b => 0 < byteZ b < 128) (digits ++ sp)) as Hplain.
  { apply Forall_app. split.
    - eapply Forall_impl; [exact Hd|]. unfold isOctalDigit. intros; lia.
    - destruct Hsp as [->| ->]; repeat constructor. }
  assert (blen (digits ++ sp) <= size) as Hlen.
  { apply (f_equal length) in Hfield.
    rewrite length_take, length_drop, app_assoc, (length_app (digits ++ sp))
      in Hfield.
    unfold blen. lia. }
  assert (0 < blen (digits ++ sp)) as Hpos.
  { unfold blen. rewrite length_app. destruct digits; [congruence|simpl; lia]. }
  unfold entry.
  rewrite (scanField_text buffer (offset c) (digits ++ sp) (Z.to_nat size) 0 rest).
  - rewrite Z.add_0_l.
    assert ((blen (digits ++ sp) =? 0) = false) as -> by (apply Z.eqb_neq; lia).
    rewrite subarray_middle by lia.
    replace (offset c + blen (digits ++ sp) - offset c)
      with (blen (digits ++ sp)) by lia.
    assert (take (Z.to_nat (blen (digits ++ sp)))
                 (drop (Z.to_nat (offset c)) buffer) = digits ++ sp) as ->.
    { apply (f_equal (take (Z.to_nat (blen (digits ++ sp))))) in Hfield.
      rewrite take_take in Hfield.
      rewrite Nat.min_l in Hfield by lia.
      rewrite Hfield, app_assoc. unfold blen. rewrite Nat2Z.id.
      apply take_app_length. }
    rewrite Utf8Facts.TextDecoder_decode_ascii
      by (eapply Forall_impl; [exact Hplain|]; simpl; intros; lia).
    rewrite parseInt8_digits; [reflexivity|exact Hd|exact Hne|].
    destruct Hsp as [->| ->]; [left; reflexivity|right].
    exists x20, []. split; [reflexivity|].
    intros [H1 _]. vm_compute in H1. congruence.
  - lia.
  - unfold blen in Hin. lia.
  - rewrite Z.add_0_r. rewrite Hfield, app_assoc. reflexivity.
  - exact Hplain.
  - exact Hrest.
Qed.

Lemma entry_reads_octal_fields_witness :
  entry FieldSamples.octalMode 8 true (Cursor 0 true)
  = (Return (JNumber 420), Cursor 8 false).
Proof.
  apply (entry_reads_octal_fields FieldSamples.octalMode 8 (Cursor 0 true)
           (TarSamples.text "0000644") [] [x00]).
  - simpl. lia.
  - vm_compute. discriminate.
  - reflexivity.
  - discriminate.
  - repeat constructor; vm_compute; discriminate.
  - left. reflexivity.
  - right. exists []. reflexivity.
Defined.

End OctalExtras.

(** ** The end-of-archive record *)

Module EndOfArchiveFacts.
Import Tar TarFieldFacts.

Lemma bind_ext {S A B} (m : M S A) (k k' : A -> M S B) (s : S) :
  (forall a s', k a s' = k' a s') -> bind m k s = bind m k' s.
Proof. intros H. unfold bind. destruct (m s) as [[a|e| |] s']; auto. Qed.

Lemma bind_ret_r {S A} (m : M S A) (s : S) : bind m ret s = m s.
Proof. unfold bind, ret. destruct (m s) as [[a|e| |] s']; reflexivity. Qed.

Lemma headerFields_table (buffer : Buffer) (c : cursor) :
  headerFields buffer c = readFields buffer fieldTable ∅ c.
Proof.
  unfold headerFields, fieldTable. cbn [readFields].
  repeat (apply bind_ext; intros ? ?).
  symmetry. apply bind_ret_r.
Qed.

Lemma fieldOffsets_table : fieldOffsets = offsetsFrom 0 fieldTable.
Proof. reflexivity. Qed.

Lemma nulAt_true (buffer : Buffer) (off : Z) :
  nulAt buffer off = true <-> buffer !! Z.to_nat off = Some x00.
Proof.
  unfold nulAt. destruct (buffer !! Z.to_nat off) as [b|]; split; intros H;
    try discriminate.
  - f_equal. apply Byte.byte_dec_bl, H.
  - injection H as ->. reflexivity.
Qed.

Lemma scanField_from (buffer : Buffer) (off : Z) (todo : nat) :
  forall strSize n, scanField buffer off todo strSize = Text n -> strSize <= n.
Proof.
  induction todo as [|todo IH]; intros strSize n H; cbn [scanField] in H.
  - injection H as <-. lia.
  - destruct (readUInt8 buffer (off + strSize)) as [byte|]; [|discriminate].
    destruct (negb (Z.land (Z.shiftr byte 7) 1 =? 0)); [discriminate|].
    destruct (byte =? 0).
    + injection H as <-. lia.
    + apply IH in H. lia.
Qed.

(** A field that starts with a NUL byte is [null] and leaves [allZero] as
    it is. *)
Lemma entry_nul (buffer : Buffer) (size : Z) (isOctal : bool) (c : cursor) :
  0 <= offset c -> 0 < size -> nulAt buffer (offset c) = true ->
  entry buffer size isOctal c
  = (Return JNull, Cursor (offset c + size) (allZero c)).
Proof.
  intros Hoff Hsize Hnul. apply nulAt_true in Hnul.
  unfold entry. replace (Z.to_nat size) with (S (Z.to_nat (size - 1))) by lia.
  cbn [scanField]. rewrite Z.add_0_r, (readUInt8_at _ _ _ Hoff Hnul).
  reflexivity.
Qed.

(** A field that does not start with a NUL byte is refused or clears
    [allZero]. *)
Lemma entry_not_nul (buffer : Buffer) (size : Z) (isOctal : bool) (c : cursor) :
  0 <= offset c -> 0 < size -> offset c + size <= blen buffer ->
  nulAt buffer (offset c) = false ->
  match entry buffer size isOctal c with
  | (Return _, c') => c' = Cursor (offset c + size) false
  | (Throw _, _) => True
  | _ => False
  end.
Proof.
  intros Hoff Hsize Hin Hnul.
  assert (buffer !! Z.to_nat (offset c) <> Some x00) as Hnul'.
  { intros E. apply nulAt_true in E. congruence. }
  clear Hnul. rename Hnul' into Hnul.
  unfold entry.
  destruct (scanField buffer (offset c) (Z.to_nat size) 0) as [|n|] eqn:E.
  - destruct (size * 8 <? 64); [exact I|].
    destruct (readBigUInt64BE _ _); [|exact I].
    destruct (_ || _); [exact I|reflexivity].
  - destruct (n =? 0) eqn:En; [|reflexivity]. exfalso.
    apply Z.eqb_eq in En. subst n.
    replace (Z.to_nat size) with (S (Z.to_nat (size - 1))) in E by lia.
    cbn [scanField] in E. rewrite Z.add_0_r in E.
    destruct (buffer !! Z.to_nat (offset c)) as [b|] eqn:Hb.
    + rewrite (readUInt8_at _ _ _ Hoff Hb) in E.
      destruct (negb _); [discriminate|].
      destruct (byteZ b =? 0) eqn:E0.
      * apply Z.eqb_eq in E0. apply Hnul. f_equal.
        unfold byteZ in E0. destruct b; try reflexivity; discriminate.
      * apply scanField_from in E. lia.
    + apply lookup_ge_None in Hb. unfold blen in Hin. lia.
  - exact I.
Qed.

Lemma readFields_allZero (buffer : Buffer) (table : list (string * Z * bool)) :
  forall (acc : JSObject) (c : cursor),
    0 <= offset c ->
    Forall (fun f => 0 < f.1.2) table ->
    offset c + foldr (fun f n => f.1.2 + n) 0 table <= blen buffer ->
    match readFields buffer table acc c with
    | (Return _, c') =>
        allZero c'
        = allZero c && forallb (nulAt buffer) (offsetsFrom (offset c) table)
    | (Throw _, _) =>
        forallb (nulAt buffer) (offsetsFrom (offset c) table) = false
    | _ => False
    end.
Proof.
  induction table as [|[[name size] isOctal] rest IH]; intros acc c Hoff Hpos Hin.
  - simpl. now rewrite andb_true_r.
  - inversion Hpos as [|? ? Hs Hrest]; subst. simpl in Hs.
    cbn [foldr fst snd] in Hin.
    assert (0 <= foldr (fun f n => f.1.2 + n) 0 rest) as Hsum.
    { clear -Hrest. induction Hrest as [|[[? ?] ?] ? Hx ? IH']; simpl in *; lia. }
    cbn [readFields offsetsFrom forallb]. unfold bind, field at 1.
    unfold bind at 1.
    destruct (nulAt buffer (offset c)) eqn:Hnul.
    + rewrite (entry_nul _ _ _ _ Hoff Hs Hnul). cbn [ret].
      specialize (IH (<[name := JNull]> acc) (Cursor (offset c + size) (allZero c))).
      cbn [offset allZero] in IH.
      specialize (IH ltac:(lia) Hrest ltac:(lia)).
      destruct (readFields buffer rest _ _) as [[h|e| |] c']; exact IH.
    + pose proof (entry_not_nul buffer size isOctal c Hoff Hs ltac:(lia) Hnul) as He.
      destruct (entry buffer size isOctal c) as [[v|e| |] c1];
        [|reflexivity|contradiction|contradiction].
      subst c1. cbn [ret].
      specialize (IH (<[name := v]> acc) (Cursor (offset c + size) false)).
      cbn [offset allZero] in IH.
      specialize (IH ltac:(lia) Hrest ltac:(lia)).
      destruct (readFields buffer rest _ _) as [[h|e| |] c'].
      * rewrite IH. now rewrite andb_false_r.
      * reflexivity.
      * exact IH.
      * exact IH.
Qed.

End EndOfArchiveFacts.

Module EndOfArchiveExtras.
Import Tar EndOfArchiveFacts.

(** X13.  A 512-byte record is taken as the end of the archive exactly when each
    of its sixteen fields starts with a NUL byte, whatever the other bytes
    and the stored global header are. *)
Theorem end_of_archive_is_sixteen_leading_nuls
    (globalHeader : JSObject) (buffer : Buffer) :
  blen buffer = 512 ->
  parseRecord globalHeader buffer = Return None
  <-> Forall (fun off => buffer !! Z.to_nat off = Some x00) fieldOffsets.
Proof.
  intros Hlen.
  assert (forallb (nulAt buffer) fieldOffsets = true
          <-> Forall (fun off => buffer !! Z.to_nat off = Some x00) fieldOffsets)
    as Hiff.
  { rewrite forallb_forall, Forall_forall.
    split; intros H off Hoff.
    - apply nulAt_true. apply H. apply list_elem_of_In. exact Hoff.
    - apply nulAt_true. apply H. apply list_elem_of_In. exact Hoff. }
  rewrite <- Hiff, fieldOffsets_table.
  unfold parseRecord. rewrite headerFields_table.
  pose proof (readFields_allZero buffer fieldTable ∅ (Cursor 0 true)) as H.
  cbn [offset allZero] in H.
  specialize (H ltac:(lia)).
  assert (Forall (fun f : string * Z * bool => 0 < f.1.2) fieldTable) as Hpos
    by (unfold fieldTable; repeat constructor).
  specialize (H Hpos). rewrite Hlen in H.
  specialize (H ltac:(vm_compute; discriminate)).
  destruct (readFields buffer fieldTable ∅ (Cursor 0 true)) as [[h|e| |] c].
  - rewrite andb_true_l in H. rewrite <- H.
    destruct (allZero c); split; congruence.
  - rewrite H. split; discriminate.
  - contradiction.
  - contradiction.
Qed.

Lemma end_of_archive_is_sixteen_leading_nuls_witness :
  blen TarSamples.zeroRecord = 512
  /\ parseRecord ∅ TarSamples.zeroRecord = Return None.
Proof.
  split; [reflexivity|].
  apply (end_of_archive_is_sixteen_leading_nuls ∅ TarSamples.zeroRecord);
    [reflexivity|].
  repeat constructor.
Defined.

End EndOfArchiveExtras.

(** ** The Tar decoder: bodies and the worker *)

Module AlignFacts.

Lemma align512_bounds (n : Z) :
  n <= align512 n < n + 512 /\ align512 n mod 512 = 0.
Proof.
  unfold align512.
  pose proof (Z.div_mod (- n) 512 ltac:(lia)) as Hdm.
  pose proof (Z.mod_pos_bound (- n) 512 ltac:(lia)) as Hr.
  split; [lia|].
  replace (- (- n / 512) * 512) with ((- (- n / 512)) * 512) by lia.
  apply Z.mod_mul. lia.
Qed.

End AlignFacts.

Module Stepwise.

Section Respects.
Context {S : Type} (R : S -> S -> Prop).
Hypothesis R_refl : forall s, R s s.
Hypothesis R_trans : forall a b c, R a b -> R b c -> R a c.

Lemma respects_ret {A} (a : A) : respects R (@ret S A a).
Proof. intros s r s' H. injection H as <- <-. apply R_refl. Qed.

Lemma respects_throw {A} (e : Error) : respects R (@throw S A e).
Proof. intros s r s' H. injection H as <- <-. apply R_refl. Qed.

Lemma respects_outOfFuel {A} : respects R (@outOfFuel S A).
Proof. intros s r s' H. injection H as <- <-. apply R_refl. Qed.

Lemma respects_get : respects R (@get S).
Proof. intros s r s' H. injection H as <- <-. apply R_refl. Qed.

Lemma respects_modify (f : S -> S) :
  (forall s, R s (f s)) -> respects R (modify f).
Proof. intros Hf s r s' H. injection H as <- <-. apply Hf. Qed.

Lemma respects_bind {A B} (m : M S A) (k : A -> M S B) :
  respects R m -> (forall a, respects R (k a)) -> respects R (bind m k).
Proof.
  intros Hm Hk s r s' H. unfold bind in H.
  destruct (m s) as [[a|e| |] s1] eqn:E.
  - eapply R_trans; [eapply Hm, E|eapply Hk, H].
  - injection H as <- <-. eapply Hm, E.
  - injection H as <- <-. eapply Hm, E.
  - injection H as <- <-. eapply Hm, E.
Qed.

Lemma respects_tryCatch {A} (m : M S A) (h : Error -> M S A) :
  respects R m -> (forall e, respects R (h e)) -> respects R (tryCatch m h).
Proof.
  intros Hm Hh s r s' H. unfold tryCatch in H.
  destruct (m s) as [[a|e| |] s1] eqn:E.
  - injection H as <- <-. eapply Hm, E.
  - eapply R_trans; [eapply Hm, E|eapply Hh, H].
  - injection H as <- <-. eapply Hm, E.
  - injection H as <- <-. eapply Hm, E.
Qed.

End Respects.

End Stepwise.

Module TarClock.
Import Tar Stepwise.

Lemma later_refl (s : state) : tarLater s s.
Proof. unfold tarLater. lia. Qed.

Lemma later_trans (a b c : state) : tarLater a b -> tarLater b c -> tarLater a c.
Proof. unfold tarLater. lia. Qed.

Ltac later_bind :=
  apply (respects_bind tarLater later_trans).

Lemma later_ret {A} (a : A) : respects tarLater (@ret state A a).
Proof. apply respects_ret, later_refl. Qed.

Lemma later_modify (f : state -> state) :
  (forall s, (clock s <= clock (f s))%nat) -> respects tarLater (modify f).
Proof. intros H. apply respects_modify. exact H. Qed.

Lemma later_consumeOrThrow (n : Z) : respects tarLater (consumeOrThrow n).
Proof.
  intros s r s' H. unfold consumeOrThrow in H.
  destruct (ChunkBuffer.consume n false (_chunkBuffer s) (source s))
    as [[[b| |] cb] src].
  - destruct (looseEqFalse b); injection H as <- <-;
      unfold tarLater; simpl; lia.
  - injection H as <- <-; unfold tarLater; simpl; lia.
  - injection H as <- <-; unfold tarLater; simpl; lia.
Qed.

Lemma later_parseHeader : respects tarLater _parseHeader.
Proof.
  later_bind; [apply later_consumeOrThrow|].
  intros buffer s r s' H. injection H as <- <-. apply later_refl.
Qed.

Lemma later_parsePaxEntries (size : option Z) :
  respects tarLater (_parsePaxEntries size).
Proof. later_bind; [apply later_consumeOrThrow|]. intros; apply later_ret. Qed.

Lemma later_emit (e : Event) : respects tarLater (emit e).
Proof. apply later_modify. intros s. simpl. lia. Qed.

Lemma later_fileStreamPush (i : ChanItem) : respects tarLater (fileStreamPush i).
Proof. apply later_modify. intros s. simpl. lia. Qed.

Lemma later_pipeLoop (wl : nat -> Z) (fuel : nat) :
  forall bytesToPush bytesToConsume,
    respects tarLater (pipeLoop wl fuel bytesToPush bytesToConsume).
Proof.
  induction fuel as [|fuel IH]; intros bp bc; simpl;
    destruct (bc =? 0); try apply later_ret;
    try (apply respects_outOfFuel, later_refl).
  later_bind; [apply respects_get, later_refl|]. intros s0.
  later_bind; [apply later_modify; intros s; simpl; lia|]. intros _.
  later_bind; [apply later_consumeOrThrow|]. intros buffer.
  destruct (negb (bp =? 0)).
  - later_bind; [apply later_fileStreamPush|]. intros _.
    later_bind.
    + destruct (_ =? 0); [apply later_fileStreamPush|apply later_ret].
    + intros _. apply IH.
  - apply IH.
Qed.

Lemma later_withPax (s2n : string -> option Z) (header : JSObject) :
  respects tarLater (withPax s2n header).
Proof.
  unfold withPax. destruct (_ || _); [|apply later_ret].
  later_bind; [apply later_parsePaxEntries|]. intros pax.
  later_bind.
  - destruct (bool_decide _); [|apply later_ret].
    apply later_modify. intros s. simpl. lia.
  - intros _. later_bind; [apply later_parseHeader|]. intros; apply later_ret.
Qed.

Lemma later_workerBody (wl : nat -> Z) (s2n : string -> option Z) (fuel : nat) :
  respects tarLater (workerBody wl s2n fuel).
Proof.
  unfold workerBody. later_bind; [apply later_parseHeader|]. intros [header|].
  - later_bind; [apply later_withPax|]. intros h.
    later_bind; [|intros; apply later_ret].
    destruct (isNullish _).
    + later_bind; [apply later_emit|]. intros _.
      unfold _pipeFileStream. destruct (toNumber _ _);
        [apply later_pipeLoop|apply later_ret].
    + apply later_emit.
  - later_bind; [|intros; apply later_ret].
    apply later_modify. intros s. simpl. lia.
Qed.

End TarClock.

Module TarWorkerFacts.
Import Tar ChunkBuffer ChunkBufferFacts StagingBufferFacts.

Lemma settles_ret {S A} (a : A) : settles (@ret S A a).
Proof. intros s. discriminate. Qed.

Lemma settles_throw {S A} (e : Error) : settles (@throw S A e).
Proof. intros s. discriminate. Qed.

Lemma settles_outOfFuel {S A} : settles (@outOfFuel S A).
Proof. intros s. discriminate. Qed.

Lemma settles_get {S} : settles (@get S).
Proof. intros s. discriminate. Qed.

Lemma settles_modify {S} (f : S -> S) : settles (modify f).
Proof. intros s. discriminate. Qed.

Lemma settles_bind {S A B} (m : M S A) (k : A -> M S B) :
  settles m -> (forall a, settles (k a)) -> settles (bind m k).
Proof.
  intros Hm Hk s. unfold bind. specialize (Hm s).
  destruct (m s) as [[a|e| |] s']; simpl in *; try discriminate.
  - apply Hk.
  - congruence.
Qed.

Lemma settles_entry (buffer : Buffer) (size : Z) (isOctal : bool) :
  settles (entry buffer size isOctal).
Proof.
  intros c. unfold entry.
  destruct (scanField _ _ _ _); try discriminate.
  - destruct (_ <? _); [discriminate|].
    destruct (readBigUInt64BE _ _); [|discriminate].
    destruct (_ || _); discriminate.
  - destruct (_ =? _); discriminate.
Qed.

Lemma settles_field (buffer : Buffer) (name : string) (size : Z)
    (isOctal : bool) (acc : JSObject) :
  settles (field buffer name size isOctal acc).
Proof.
  apply settles_bind; [apply settles_entry|intros; apply settles_ret].
Qed.

Lemma settles_headerFields (buffer : Buffer) : settles (headerFields buffer).
Proof.
  unfold headerFields.
  repeat (apply settles_bind; [apply settles_field|intros ?]).
  apply settles_field.
Qed.

Lemma parseRecord_settles (G : JSObject) (buffer : Buffer) :
  parseRecord G buffer <> Pending.
Proof.
  unfold parseRecord. pose proof (settles_headerFields buffer (Cursor 0 true)) as H.
  destruct (headerFields buffer (Cursor 0 true)) as [[h|e| |] c];
    simpl in *; try discriminate; congruence.
Qed.

Lemma settles_consumeOrThrow (n : Z) : settles (consumeOrThrow n).
Proof.
  intros s. unfold consumeOrThrow.
  destruct (consume n false (_chunkBuffer s) (source s)) as [[[b| |] cb] src];
    try discriminate.
  destruct (looseEqFalse b); discriminate.
Qed.

Lemma settles_parseHeader : settles _parseHeader.
Proof.
  apply settles_bind; [apply settles_consumeOrThrow|].
  intros buffer s. simpl. apply parseRecord_settles.
Qed.

Lemma settles_parsePaxEntries (size : option Z) : settles (_parsePaxEntries size).
Proof.
  apply settles_bind; [apply settles_consumeOrThrow|intros; apply settles_ret].
Qed.

Lemma settles_withPax (s2n : string -> option Z) (header : JSObject) :
  settles (withPax s2n header).
Proof.
  unfold withPax. destruct (_ || _); [|apply settles_ret].
  apply settles_bind; [apply settles_parsePaxEntries|intros pax].
  apply settles_bind.
  - destruct (bool_decide _); [apply settles_modify|apply settles_ret].
  - intros _. apply settles_bind; [apply settles_parseHeader|].
    intros; apply settles_ret.
Qed.

Lemma settles_pipeLoop (wl : nat -> Z) (fuel : nat) :
  forall bp bc, settles (pipeLoop wl fuel bp bc).
Proof.
  induction fuel as [|fuel IH]; intros bp bc; simpl;
    destruct (bc =? 0); try apply settles_ret; try apply settles_outOfFuel.
  apply settles_bind; [apply settles_get|]. intros s0.
  apply settles_bind; [apply settles_modify|]. intros _.
  apply settles_bind; [apply settles_consumeOrThrow|]. intros buffer.
  destruct (negb (bp =? 0)).
  - apply settles_bind; [apply settles_modify|]. intros _.
    apply settles_bind.
    + destruct (_ =? 0); [apply settles_modify|apply settles_ret].
    + intros _. apply IH.
  - apply IH.
Qed.

Lemma settles_workerBody (wl : nat -> Z) (s2n : string -> option Z) (fuel : nat) :
  settles (workerBody wl s2n fuel).
Proof.
  unfold workerBody.
  apply settles_bind; [apply settles_parseHeader|]. intros [header|].
  - apply settles_bind; [apply settles_withPax|]. intros h.
    apply settles_bind; [|intros; apply settles_ret].
    destruct (isNullish _).
    + apply settles_bind; [apply settles_modify|]. intros _.
      unfold _pipeFileStream. destruct (toNumber _ _);
        [apply settles_pipeLoop|apply settles_ret].
    + apply settles_modify.
  - apply settles_bind; [apply settles_modify|intros; apply settles_ret].
Qed.

(** The loop body reports that the worker returns only after it marked
    the end of the archive. *)
Lemma workerBody_exit (wl : nat -> Z) (s2n : string -> option Z) (fuel : nat)
    (s s' : state) :
  workerBody wl s2n fuel s = (Return true, s')
  -> _endOfTar s' = true /\ _chunkBuffer s' = ChunkBuffer.new.
Proof.
  unfold workerBody. intros H.
  apply bind_return_inv in H as ([header|] & s1 & _ & H).
  - apply bind_return_inv in H as (h & s2 & _ & H).
    apply bind_return_inv in H as ([] & s3 & _ & H). discriminate.
  - apply bind_return_inv in H as ([] & s2 & Hm & H).
    injection H as <-. injection Hm as <-. split; reflexivity.
Qed.

Lemma worker_outcome (wl : nat -> Z) (we : nat -> bool)
    (s2n : string -> option Z) (fuel : nat) :
  forall s o s', _worker wl we s2n fuel s = (o, s') ->
    o <> Pending
    /\ (o = Return tt ->
        (_endOfTar s' = true /\ _chunkBuffer s' = ChunkBuffer.new)
        \/ exists n, clock s' = S n /\ (clock s <= n)%nat /\ we n = true).
Proof.
  induction fuel as [|fuel IH]; intros s o s' H.
  - simpl in H. injection H as <- <-. split; discriminate.
  - cbn [_worker] in H. unfold bind at 1, get in H. unfold bind at 1, modify in H.
    destruct (we (clock s)) eqn:Hwe.
    + injection H as <- <-. split; [discriminate|]. intros _. right.
      exists (clock s). split; [reflexivity|]. split; [lia|exact Hwe].
    + unfold bind at 1 in H.
      pose proof (settles_workerBody wl s2n (S fuel) (tick s)) as Hs.
      destruct (workerBody wl s2n (S fuel) (tick s)) as [[[|]|e| |] s1] eqn:E;
        simpl in Hs.
      * injection H as <- <-. split; [discriminate|]. intros _. left.
        eapply workerBody_exit, E.
      * pose proof (TarClock.later_workerBody _ _ _ _ _ _ E) as Hl.
        unfold tarLater in Hl. simpl in Hl.
        destruct (IH _ _ _ H) as [H1 H2]. split; [exact H1|].
        intros Ho. destruct (H2 Ho) as [Hend|(n & Hn & Hle & Hw)];
          [left; exact Hend|right].
        exists n. split; [exact Hn|]. split; [lia|exact Hw].
      * injection H as <- <-. split; discriminate.
      * congruence.
      * injection H as <- <-. split; discriminate.
Qed.

End TarWorkerFacts.

Module TarPipeFacts.
Import Tar ChunkBuffer ChunkBufferFacts StagingBufferFacts.

Lemma pipeLoop_done (wl : nat -> Z) (fuel : nat) (bytesToPush : Z) (s : state) :
  pipeLoop wl fuel bytesToPush 0 s = (Return tt, s).
Proof. destruct fuel; reflexivity. Qed.

(** [consumeOrThrow] on a staging buffer that holds the bytes asked
    for. *)
Lemma consumeOrThrow_buffered (n : Z) (s : state) :
  wf (_chunkBuffer s) -> 0 < n <= _size (_chunkBuffer s) ->
  exists cb',
    consumeOrThrow n s
    = (if looseEqFalse (take (Z.to_nat n) (contents (_chunkBuffer s)))
       then Throw StreamIOTimeout
       else Return (take (Z.to_nat n) (contents (_chunkBuffer s))),
       setBuffer cb' (source s) s)
    /\ contents cb' = drop (Z.to_nat n) (contents (_chunkBuffer s))
    /\ wf cb'.
Proof.
  intros Hwf Hn.
  destruct (consume_buffered n false _ (source s) Hwf Hn) as (cb' & E & Hc & Hwf').
  exists cb'. unfold consumeOrThrow. rewrite E.
  split; [|split; assumption].
  destruct (looseEqFalse _); reflexivity.
Qed.

Lemma consumeOrThrow_starved (n : Z) (s : state) :
  wf (_chunkBuffer s) -> _size (_chunkBuffer s) + blen (flat (source s)) < n ->
  consumeOrThrow n s
  = (Throw StreamIOTimeout,
     setBuffer (pushAll (source s) (_chunkBuffer s)) [] s).
Proof.
  intros Hwf Hav. unfold consumeOrThrow.
  rewrite (consume_starved n false _ _ Hwf Hav). reflexivity.
Qed.

End TarPipeFacts.

Module TarExtras.
Import Tar ChunkBuffer ChunkBufferFacts StagingBufferFacts TarPipeFacts.

(** X14.  [Math.ceil(size/512) * 512] is the least multiple of 512
    that is not below [size]. *)
Theorem align512_is_the_next_block_boundary (size : Z) :
  size <= align512 size < size + 512 /\ align512 size mod 512 = 0.
Proof. apply AlignFacts.align512_bounds. Qed.

(** X15.  A body that is buffered with its padding is forwarded in
    one round: the channel gets the first [size] bytes and then the end
    marker, the padding is dropped, and what follows stays buffered. *)
Theorem pipeFileStream_forwards_a_buffered_body
    (wl : nat -> Z) (fuel : nat) (size : Z) (s : state) :
  wf (_chunkBuffer s) ->
  0 < size ->
  align512 size <= ChunkBuffer.size (_chunkBuffer s) ->
  0 <= wl (clock s) ->
  looseEqFalse (take (Z.to_nat (align512 size)) (contents (_chunkBuffer s)))
  = false ->
  exists s',
    _pipeFileStream wl (S fuel) (Some size) s = (Return tt, s')
    /\ emitted s'
       = pushLast End
           (pushLast (Data (take (Z.to_nat size) (contents (_chunkBuffer s))))
                     (emitted s))
    /\ contents (_chunkBuffer s')
       = drop (Z.to_nat (align512 size)) (contents (_chunkBuffer s))
    /\ source s' = source s.
Proof.
  intros Hwf Hsize Hbuf Hwl Hloose.
  destruct (AlignFacts.align512_bounds size) as [Hal _].
  unfold ChunkBuffer.size in Hbuf.
  destruct (consumeOrThrow_buffered (align512 size) (tick s) Hwf)
    as (cb' & E & Hc & Hwf'); [simpl; lia|].
  simpl in E. rewrite Hloose in E.
  set (taken := take (Z.to_nat (align512 size)) (contents (_chunkBuffer s))) in *.
  assert (blen taken = align512 size) as Hlen.
  { unfold taken, blen. rewrite length_take. red in Hwf. unfold blen in Hwf. lia. }
  assert (subarray taken 0 size = take (Z.to_nat size) (contents (_chunkBuffer s)))
    as Hsub.
  { rewrite UntilSignatureFacts.subarray_prefix by lia. unfold taken.
    rewrite take_take. f_equal. lia. }
  eexists. split.
  - unfold _pipeFileStream. cbn [pipeLoop].
    assert ((align512 size =? 0) = false) as -> by (apply Z.eqb_neq; lia).
    unfold bind at 1, get. unfold bind at 1, modify.
    unfold ChunkBuffer.size.
    assert ((align512 size <=? _size (_chunkBuffer s) + wl (clock s)) = true)
      as -> by (apply Z.leb_le; lia).
    unfold bind at 1. rewrite E.
    assert ((size =? 0) = false) as -> by (apply Z.eqb_neq; lia).
    cbn [negb]. rewrite Hsub.
    assert (blen (take (Z.to_nat size) (contents (_chunkBuffer s))) = size) as ->.
    { unfold blen. rewrite length_take. red in Hwf. unfold blen in Hwf. lia. }
    rewrite Hlen, !Z.sub_diag. cbn [Z.eqb].
    unfold bind, fileStreamPush, modify. rewrite pipeLoop_done. reflexivity.
  - simpl. auto.
Qed.

(** X16.  A block whose text reads as the number zero (blank, or
    zeros) makes [buffer == false] true: the decoder reports a timeout
    for it although the bytes were there, and nothing reaches the
    channel. *)
Theorem pipeFileStream_takes_a_zero_looking_block_for_a_timeout
    (wl : nat -> Z) (fuel : nat) (size : Z) (s : state) :
  wf (_chunkBuffer s) ->
  0 < size ->
  align512 size <= ChunkBuffer.size (_chunkBuffer s) ->
  0 <= wl (clock s) ->
  looseEqFalse (take (Z.to_nat (align512 size)) (contents (_chunkBuffer s)))
  = true ->
  exists s',
    _pipeFileStream wl (S fuel) (Some size) s = (Throw StreamIOTimeout, s')
    /\ emitted s' = emitted s.
Proof.
  intros Hwf Hsize Hbuf Hwl Hloose.
  destruct (AlignFacts.align512_bounds size) as [Hal _].
  unfold ChunkBuffer.size in Hbuf.
  destruct (consumeOrThrow_buffered (align512 size) (tick s) Hwf)
    as (cb' & E & Hc & Hwf'); [simpl; lia|].
  simpl in E. rewrite Hloose in E.
  eexists. split.
  - unfold _pipeFileStream. cbn [pipeLoop].
    assert ((align512 size =? 0) = false) as -> by (apply Z.eqb_neq; lia).
    unfold bind at 1, get. unfold bind at 1, modify.
    unfold ChunkBuffer.size.
    assert ((align512 size <=? _size (_chunkBuffer s) + wl (clock s)) = true)
      as -> by (apply Z.leb_le; lia).
    unfold bind at 1. rewrite E. reflexivity.
  - reflexivity.
Qed.

(** X17.  When fewer than 512 bytes are buffered or still to come
    and the stream is not ended, the worker waits for a header, times
    out and throws 'Stream IO timeout!'; it emits nothing more. *)
Theorem worker_times_out_on_a_truncated_archive
    (wl : nat -> Z) (we : nat -> bool) (s2n : string -> option Z)
    (fuel : nat) (s : state) :
  wf (_chunkBuffer s) ->
  ChunkBuffer.size (_chunkBuffer s) + blen (flat (source s)) < 512 ->
  we (clock s) = false ->
  exists s',
    _worker wl we s2n (S fuel) s = (Throw StreamIOTimeout, s')
    /\ emitted s' = emitted s
    /\ _endOfTar s' = _endOfTar s.
Proof.
  intros Hwf Hav Hwe. unfold ChunkBuffer.size in Hav.
  pose proof (consumeOrThrow_starved 512 (tick s) Hwf Hav) as E.
  eexists. split.
  - cbn [_worker]. unfold bind at 1, get. unfold bind at 1, modify.
    rewrite Hwe. unfold bind at 1, workerBody. unfold bind at 1, _parseHeader.
    unfold bind at 1. rewrite E. reflexivity.
  - split; reflexivity.
Qed.

(** X18.  The worker returns only after it read an all-zero record,
    and then it has marked the end of the archive and emptied the
    staging buffer, or after it observed [writableEnded]: in that case
    the observation it made last, and made during this run, was of
    [writableEnded] being true. *)
Theorem worker_returns_only_at_the_end
    (wl : nat -> Z) (we : nat -> bool) (s2n : string -> option Z)
    (fuel : nat) (s s' : state) :
  _worker wl we s2n fuel s = (Return tt, s') ->
  (_endOfTar s' = true /\ _chunkBuffer s' = ChunkBuffer.new)
  \/ exists n, clock s' = S n /\ (clock s <= n)%nat /\ we n = true.
Proof.
  intros H.
  destruct (TarWorkerFacts.worker_outcome wl we s2n fuel s _ _ H) as [_ Hr].
  exact (Hr eq_refl).
Qed.

Lemma pipeFileStream_forwards_a_buffered_body_witness :
  exists s',
    _pipeFileStream (fun _ => 0) 1 (Some 9) BodySamples.bodyBuffered
    = (Return tt, s')
    /\ emitted s'
       = [Entry ∅ (Some [Data (TarSamples.text "hi there!"); End])]
    /\ contents (_chunkBuffer s') = TarSamples.zeroRecord.
Proof.
  destruct (pipeFileStream_forwards_a_buffered_body (fun _ => 0) 0 9
              BodySamples.bodyBuffered) as (s' & H1 & H2 & H3 & _).
  - reflexivity.
  - lia.
  - vm_compute. discriminate.
  - simpl. lia.
  - vm_compute. reflexivity.
  - exists s'. split; [exact H1|]. split.
    + rewrite H2. vm_compute. reflexivity.
    + rewrite H3. vm_compute. reflexivity.
Defined.

Lemma pipeFileStream_takes_a_zero_looking_block_for_a_timeout_witness :
  exists s',
    _pipeFileStream (fun _ => 0) 1 (Some 512) BodySamples.blankBuffered
    = (Throw StreamIOTimeout, s')
    /\ emitted s' = [Entry ∅ (Some [])].
Proof.
  apply (pipeFileStream_takes_a_zero_looking_block_for_a_timeout
           (fun _ => 0) 0 512 BodySamples.blankBuffered).
  - reflexivity.
  - lia.
  - vm_compute. discriminate.
  - simpl. lia.
  - vm_compute. reflexivity.
Defined.

Lemma worker_times_out_on_a_truncated_archive_witness :
  exists s',
    _worker (fun _ => 0) (fun _ => false) (fun _ => None) 1
            BodySamples.truncated
    = (Throw StreamIOTimeout, s')
    /\ emitted s' = []
    /\ _endOfTar s' = false.
Proof.
  apply (worker_times_out_on_a_truncated_archive (fun _ => 0) (fun _ => false)
           (fun _ => None) 0 BodySamples.truncated).
  - reflexivity.
  - vm_compute. reflexivity.
  - reflexivity.
Defined.

Lemma worker_returns_only_at_the_end_witness :
  (TarSamples.decode TarSamples.emptyFile).1 = Return tt
  /\ _endOfTar (TarSamples.decode TarSamples.emptyFile).2 = true
  /\ _chunkBuffer (TarSamples.decode TarSamples.emptyFile).2 = ChunkBuffer.new.
Proof.
  assert ((TarSamples.decode TarSamples.emptyFile).1 = Return tt) as E
    by (vm_compute; reflexivity).
  destruct (TarSamples.decode TarSamples.emptyFile) as [o s'] eqn:Hrun.
  unfold TarSamples.decode in Hrun.
  cbn [fst snd] in E |- *. subst o.
  split; [reflexivity|].
  destruct (worker_returns_only_at_the_end _ _ _ _ _ _ Hrun)
    as [H|(n & _ & _ & H)].
  - exact H.
  - discriminate.
Defined.

End TarExtras.

(** ** The Zip decoder: bit fields and the worker *)

Module BitFieldFacts.
Import BitField.

Lemma testbit_one (n : Z) : Z.testbit 1 n = (n =? 0).
Proof.
  destruct n as [|p|p]; reflexivity.
Qed.

(** One round of the inner loop adds bit [r] of the shifted value. *)
Lemma bits_step (x r : Z) :
  0 <= r ->
  (if Z.testbit x r then Z.lor (x mod 2 ^ r) (Z.shiftl 1 r) else x mod 2 ^ r)
  = x mod 2 ^ (r + 1).
Proof.
  intros Hr. apply Z.bits_inj'. intros n Hn.
  destruct (Z_lt_le_dec n (r + 1)) as [Hlt|Hge].
  - rewrite (Z.mod_pow2_bits_low x (r + 1) n) by lia.
    destruct (Z.eq_dec n r) as [->|Hne].
    + destruct (Z.testbit x r) eqn:E.
      * rewrite Z.lor_spec, Z.shiftl_spec, Z.sub_diag by lia.
        rewrite orb_true_r. reflexivity.
      * rewrite Z.mod_pow2_bits_high by lia. reflexivity.
    + assert (Z.testbit (x mod 2 ^ r) n = Z.testbit x n) as Hlow
        by (apply Z.mod_pow2_bits_low; lia).
      destruct (Z.testbit x r).
      * rewrite Z.lor_spec, Hlow, Z.shiftl_spec, testbit_one by lia.
        assert ((n - r =? 0) = false) as -> by (apply Z.eqb_neq; lia).
        apply orb_false_r.
      * exact Hlow.
  - rewrite (Z.mod_pow2_bits_high x (r + 1) n) by lia.
    destruct (Z.testbit x r).
    + rewrite Z.lor_spec, Z.mod_pow2_bits_high, Z.shiftl_spec, testbit_one by lia.
      apply Z.eqb_neq. lia.
    + apply Z.mod_pow2_bits_high. lia.
Qed.

Lemma bits_spec (v b : Z) (todo : nat) :
  0 <= b ->
  forall r, 0 <= r -> r + Z.of_nat todo <= 32 ->
    bits v (b + r) todo r (Z.shiftr v b mod 2 ^ r)
    = Z.shiftr v b mod 2 ^ (r + Z.of_nat todo).
Proof.
  intros Hb. induction todo as [|todo IH]; intros r Hr Hle.
  - cbn [bits]. rewrite Z.add_0_r.
    pose proof (Z.mod_pos_bound (Z.shiftr v b) (2 ^ r) ltac:(lia)) as Hm.
    assert (2 ^ r <= 2 ^ 32) by (apply Z.pow_le_mono_r; lia).
    apply Z.mod_small. lia.
  - cbn [bits].
    replace (Z.testbit v (b + r)) with (Z.testbit (Z.shiftr v b) r)
      by (rewrite Z.shiftr_spec by lia; f_equal; lia).
    rewrite bits_step by lia.
    replace (b + r + 1) with (b + (r + 1)) by lia.
    rewrite IH by lia. f_equal. f_equal. lia.
Qed.

Lemma bits_slice (v start : Z) (bitSize : Z) :
  0 <= start -> 0 <= bitSize <= 32 ->
  bits v start (Z.to_nat bitSize) 0 0 = (v / 2 ^ start) mod 2 ^ bitSize.
Proof.
  intros Hs Hb.
  pose proof (bits_spec v start (Z.to_nat bitSize) Hs 0 ltac:(lia) ltac:(lia)) as H.
  rewrite Z.add_0_r in H. change (2 ^ 0) with 1 in H. rewrite Z.mod_1_r in H.
  rewrite H. rewrite Z.shiftr_div_pow2 by lia. f_equal. f_equal. lia.
Qed.

Lemma fields_slices (v : Z) (template : list (string * Z)) :
  Forall (fun f => 0 <= f.2 <= 32) template ->
  forall start, 0 <= start ->
    fields v start template = Return (slices v start template).
Proof.
  induction 1 as [|[name bitSize] rest Hf _ IH]; intros start Hs; [reflexivity|].
  cbn [fields slices]. simpl in Hf.
  assert ((32 <? bitSize) = false) as -> by (apply Z.ltb_ge; lia).
  rewrite Z.max_l by lia. rewrite IH by lia.
  rewrite bits_slice by lia. reflexivity.
Qed.

Lemma fields_throw (v : Z) (template : list (string * Z)) :
  forall start,
    (exists e, fields v start template = Throw e)
    <-> Exists (fun f => 32 < f.2) template.
Proof.
  induction template as [|[name bitSize] rest IH]; intros start.
  - split; [intros [e H]; discriminate|intros H; inversion H].
  - cbn [fields]. destruct (32 <? bitSize) eqn:E.
    + split; [intros _|intros _; eauto].
      apply Exists_cons_hd. simpl. lia.
    + specialize (IH (start + Z.max bitSize 0)).
      destruct (fields v (start + Z.max bitSize 0) rest) as [l|e| |].
      * split; [intros [e H]; discriminate|].
        intros H. apply Exists_cons in H as [H|H]; [simpl in H; lia|].
        apply IH in H as [e H]. discriminate.
      * split; [intros _|intros _; eauto].
        apply Exists_cons_tl, IH. eauto.
      * split; [intros [e H]; discriminate|].
        intros H. apply Exists_cons in H as [H|H]; [simpl in H; lia|].
        apply IH in H as [e H]. discriminate.
      * split; [intros [e H]; discriminate|].
        intros H. apply Exists_cons in H as [H|H]; [simpl in H; lia|].
        apply IH in H as [e H]. discriminate.
Qed.

End BitFieldFacts.

Module BitFieldExtras.
Import BitField BitFieldFacts.

(** X19.  For a safe integer and a template of bit sizes from 0 to 32,
    [readBitField] cuts the value into consecutive bit slices, least
    significant bits first: a field of [n] bits that starts at bit [k]
    is [(value / 2^k) mod 2^n]. *)
Theorem readBitField_cuts_consecutive_slices
    (fromValue : Z) (template : list (string * Z)) :
  MIN_SAFE_INTEGER <= fromValue <= MAX_SAFE_INTEGER ->
  Forall (fun f => 0 <= f.2 <= 32) template ->
  readBitField fromValue template = Return (slices fromValue 0 template).
Proof.
  intros Hv Ht. unfold readBitField.
  assert ((MAX_SAFE_INTEGER <? fromValue) = false) as -> by (apply Z.ltb_ge; lia).
  assert ((fromValue <? MIN_SAFE_INTEGER) = false) as -> by (apply Z.ltb_ge; lia).
  apply fields_slices; [exact Ht|lia].
Qed.

Lemma readBitField_cuts_consecutive_slices_witness :
  readBitField 0x0808 generalPurposeFlags
  = Return [("encrypted", 0); ("compressionOption", 0); ("dataDescriptor", 1);
            ("enhancedDeflation", 0); ("compressedPatchedData", 0);
            ("strongEncryption", 0); ("unused", 0); ("languageEncoding", 1);
            ("reserved", 0); ("maskedHeaderValues", 0)]%string.
Proof.
  apply (readBitField_cuts_consecutive_slices 0x0808 generalPurposeFlags).
  - vm_compute. split; discriminate.
  - repeat constructor; simpl; lia.
Defined.

(** X20.  [readBitField] throws exactly when the value is no
    safe integer or the template asks for more than 32 bits in one
    field. *)
Theorem readBitField_throws_on_unsafe_values_and_wide_fields
    (fromValue : Z) (template : list (string * Z)) :
  (exists e, readBitField fromValue template = Throw e)
  <-> (fromValue < MIN_SAFE_INTEGER \/ MAX_SAFE_INTEGER < fromValue
       \/ Exists (fun f => 32 < f.2) template).
Proof.
  unfold readBitField.
  destruct (MAX_SAFE_INTEGER <? fromValue) eqn:E1;
    [apply Z.ltb_lt in E1; split; [intros _; lia|intros _; simpl; eauto]|].
  destruct (fromValue <? MIN_SAFE_INTEGER) eqn:E2;
    [apply Z.ltb_lt in E2; split; [intros _; lia|intros _; simpl; eauto]|].
  apply Z.ltb_ge in E1, E2. cbn [orb].
  rewrite fields_throw. split; [auto|].
  intros [H|[H|H]]; [lia|lia|exact H].
Qed.

End BitFieldExtras.

Module ZipWorkerFacts.
Import Zip ChunkBuffer ChunkBufferFacts StagingBufferFacts.

Lemma consume_served (n : Z) (s : state) :
  wf (_chunkBuffer s) -> 0 < n ->
  n <= _size (_chunkBuffer s) + blen (flat (source s)) ->
  exists cb' inc',
    Zip.consume n s
    = (Return (Some (take (Z.to_nat n)
                          (contents (_chunkBuffer s) ++ flat (source s)))),
       setBuffer cb' inc' s)
    /\ contents cb' ++ flat inc'
       = drop (Z.to_nat n) (contents (_chunkBuffer s) ++ flat (source s))
    /\ wf cb'.
Proof.
  intros Hwf Hn Hav.
  destruct (consume_enough n true _ _ Hwf Hn Hav) as (cb' & inc' & E & H1 & H2).
  exists cb', inc'. unfold Zip.consume. rewrite E. auto.
Qed.

Lemma consume_unserved (n : Z) (s : state) :
  wf (_chunkBuffer s) ->
  _size (_chunkBuffer s) + blen (flat (source s)) < n ->
  Zip.consume n s
  = (Throw IOTimeout, setBuffer (pushAll (source s) (_chunkBuffer s)) [] s).
Proof.
  intros Hwf Hav. unfold Zip.consume.
  rewrite (consume_starved n true _ _ Hwf Hav). reflexivity.
Qed.

Lemma read_signature {S} (l : Buffer) (s : S) :
  (4 <= length l)%nat ->
  reading (Some (take 4 l)) (fun b => readUInt32BE b 0) s
  = (Return (beValue (take 4 l)), s).
Proof.
  intros Hl. unfold reading, readUInt32BE.
  rewrite bytesAt_in_range.
  - pose proof (take_take l 4 4) as H.
    unfold ret. cbn [fmap option_fmap option_map]. do 3 f_equal. exact H.
  - lia.
  - unfold blen. rewrite length_take. lia.
Qed.

(** The head of the loop body on a stream that can serve four bytes. *)
Lemma workerBody_signature (I : Inflate) (fuel : nat) (startOfFile : bool)
    (s : state) :
  wf (_chunkBuffer s) ->
  4 <= _size (_chunkBuffer s) + blen (flat (source s)) ->
  exists cb' inc',
    workerBody I fuel startOfFile s
    = bind (checkSignature startOfFile
              (beValue (take 4 (contents (_chunkBuffer s) ++ flat (source s)))))
           (fun goOn : bool =>
              if goOn then bind (entry I fuel) (fun _ => ret true)
              else ret false)
           (setBuffer cb' inc' s)
    /\ contents cb' ++ flat inc'
       = drop 4 (contents (_chunkBuffer s) ++ flat (source s)).
Proof.
  intros Hwf Hav.
  destruct (consume_served 4 s Hwf ltac:(lia) Hav) as (cb' & inc' & E & Hrest & _).
  exists cb', inc'. split; [|exact Hrest].
  unfold workerBody. unfold bind at 1. rewrite E.
  unfold bind at 1. change (Z.to_nat 4) with 4%nat.
  rewrite read_signature; [reflexivity|].
  rewrite length_app. red in Hwf. unfold blen in Hwf, Hav. lia.
Qed.

End ZipWorkerFacts.

(** ** Claims on data descriptors *)

Module DescriptorClaims.
Import Zip ChunkBuffer ChunkBufferFacts StagingBufferFacts DescriptorSamples.

(** C8 (trailing data descriptor), evaluated.  After a body the decoder
    reads 16 bytes.  When they do not start with the descriptor
    signature, it takes the fields from the first 12 and calls
    [giveBack(buffer, 4)], which does not push the last four bytes back
    but makes them the whole content of the staging buffer: whatever was
    buffered behind the 16 bytes is lost.  So the archive of two entries
    whose descriptors carry the signature is decoded to its end, and the
    same archive with descriptors without signature is not: after the
    first descriptor only the four bytes of the next signature are left,
    the header behind them is gone, and the decode ends in 'IO timeout!'
    with the second entry never emitted. *)
Theorem descriptor_without_signature_loses_the_records_behind_it :
  (forall s : state,
      wf (_chunkBuffer s) ->
      16 <= size (_chunkBuffer s) ->
      beValue (take 4 (contents (_chunkBuffer s))) <> dataDescriptorSignature ->
      exists s',
        readDataDescriptor s = (Return tt, s')
        /\ contents (_chunkBuffer s')
           = take 4 (drop 12 (contents (_chunkBuffer s)))
        /\ source s' = source s)
  /\ fst (decode twoSigned) = Return tt
  /\ trace (emitted (snd (decode twoSigned)))
     = [File (JString "a") (Some [Data (bytesOf [120; 121; 122]); End]);
        Descriptor 67305985 4 3;
        File (JString "a") (Some [Data (bytesOf [120; 121; 122]); End]);
        Descriptor 67305985 4 3]
  /\ fst (decode twoBare) = Throw IOTimeout
  /\ trace (emitted (snd (decode twoBare)))
     = [File (JString "a") (Some [Data (bytesOf [120; 121; 122]); End]);
        Descriptor 67305985 4 3].
Proof.
  split.
  - intros s Hwf Hsize Hsig. unfold size in Hsize.
    destruct (consume_buffered 16 true _ (source s) Hwf ltac:(lia))
      as (cb1 & E & Hrest & Hwf1).
    change (Z.to_nat 16) with 16%nat in E, Hrest.
    set (buffer := take 16 (contents (_chunkBuffer s))) in *.
    assert (Zip.consume 16 s = (Return (Some buffer), setBuffer cb1 (source s) s))
      as Hc by (unfold Zip.consume; rewrite E; reflexivity).
    destruct (ZipDescriptorFacts.readDataDescriptor_spec s _ buffer Hwf Hc)
      as (Hlen & sig & crc & cs & us & Hbe & H).
    assert (sig = beValue (take 4 (contents (_chunkBuffer s)))) as ->.
    { unfold readUInt32BE in Hbe. rewrite bytesAt_in_range in Hbe by lia.
      injection Hbe as <-. f_equal.
      exact (take_take (contents (_chunkBuffer s)) 4 16). }
    apply Z.eqb_neq in Hsig. rewrite Hsig in H.
    destruct H as (_ & _ & _ & H & _).
    eexists. split; [exact H|]. split; [|reflexivity].
    cbn [setEmitted setBuffer _chunkBuffer]. unfold contents at 1.
    cbn [_chunks concat]. rewrite app_nil_r.
    exact (eq_sym (take_drop_commute (contents (_chunkBuffer s)) 4 12)).
  - split; [vm_compute; reflexivity|].
    split; [vm_compute; reflexivity|].
    split; vm_compute; reflexivity.
Qed.

End DescriptorClaims.

(** ** Claims on fatal conditions *)

Module PropagationClaims.
Import Zip ChunkBuffer DescriptorSamples.

(** C9 (fatal conditions), evaluated.  The feeding loop of the Zip
    [_pipeFileStream] runs inside [try { .. } catch (error) { log(..) }],
    and the function then awaits [endPromise]: whatever the loop throws
    is discarded, so [_pipeFileStream] never throws.  When the stream
    stalls inside a body of unknown size, the staging buffer's
    'IO timeout!' is thrown in the loop and caught, and the worker is left
    waiting for a promise that nobody resolves: the decode never ends
    and its caller never sees the timeout.  The same stall inside a Tar
    body does end the decode with 'Stream IO timeout!'. *)
Theorem timeout_inside_a_zip_body_is_discarded :
  (forall (I : Inflate) (fuel : nat) (compressedSize : JSValue) (s : state)
          (e : Error),
      fst (_pipeFileStream I fuel compressedSize s) <> Throw e)
  /\ (forall (I : Inflate) (fuel : nat) (s : state),
         size (_chunkBuffer s) = 0 -> source s = [] ->
         fst (feedLoop I (S fuel) (Piping I s (createInflateRaw I) 0 None))
         = Throw IOTimeout
         /\ fst (_pipeFileStream I (S fuel) (JNumber 0) s) = Pending)
  /\ fst StallSamples.stalledZipRun = Pending
  /\ trace (emitted (snd StallSamples.stalledZipRun))
     = [File (JString "a") (Some [])]
  /\ fst StallSamples.stalledTarRun = Throw StreamIOTimeout.
Proof.
  split.
  { intros I fuel compressedSize s e. unfold _pipeFileStream, piped, bind.
    destruct (looseEqZero compressedSize).
    - unfold tryCatch.
      destruct (feedLoop I fuel _) as [[[]|e'| |] p]; cbn;
        try discriminate; unfold awaitEnd; destruct (endPromise I p);
        cbn; discriminate.
    - cbn. discriminate. }
  split.
  { intros I fuel s Hsize Hsrc. unfold size in Hsize.
    assert (Zip.consume 0 s
            = (Throw IOTimeout, setBuffer (_chunkBuffer s) [] s)) as Hc.
    { unfold Zip.consume, ChunkBuffer.consume, consumeNow.
      rewrite Hsize, Hsrc. reflexivity. }
    assert (feedLoop I (S fuel) (Piping I s (createInflateRaw I) 0 None)
            = (Throw IOTimeout,
               Piping I (setBuffer (_chunkBuffer s) [] s)
                      (createInflateRaw I) 0 None)) as Hf.
    { cbn [feedLoop]. unfold bind, lift. cbn [decoder]. rewrite Hc.
      reflexivity. }
    split; [rewrite Hf; reflexivity|].
    unfold _pipeFileStream, piped. cbn [looseEqZero Z.eqb].
    unfold bind, tryCatch. rewrite Hf. reflexivity. }
  split; [vm_compute; reflexivity|].
  split; vm_compute; reflexivity.
Qed.

End PropagationClaims.

(** The Zip decoder observes its stream at the head of the worker's loop
    only: nothing else moves its clock. *)
Module ZipClock.
Import Zip Stepwise.

Lemma same_refl (s : state) : zipSameClock s s.
Proof. reflexivity. Qed.

Lemma same_trans (a b c : state) :
  zipSameClock a b -> zipSameClock b c -> zipSameClock a c.
Proof. unfold zipSameClock. congruence. Qed.

Ltac same_bind := apply (respects_bind zipSameClock same_trans).

Lemma same_ret {A} (a : A) : respects zipSameClock (@ret state A a).
Proof. apply respects_ret, same_refl. Qed.

Lemma same_throw {A} (e : Error) : respects zipSameClock (@throw state A e).
Proof. apply respects_throw, same_refl. Qed.

Lemma same_modify (f : state -> state) :
  (forall s, clock (f s) = clock s) -> respects zipSameClock (modify f).
Proof. intros H. apply respects_modify. exact H. Qed.

Lemma same_consume (n : Z) : respects zipSameClock (Zip.consume n).
Proof.
  intros s r s' H. unfold Zip.consume in H.
  destruct (ChunkBuffer.consume n true (_chunkBuffer s) (source s))
    as [[[b| |] cb] src]; injection H as <- <-; reflexivity.
Qed.

Lemma same_reading (buffer : option Buffer) (read : Buffer -> option Z) :
  respects zipSameClock (reading buffer read).
Proof.
  unfold reading. destruct buffer as [b|]; [|apply same_throw].
  destruct (read b); [apply same_ret|apply same_throw].
Qed.

Lemma same_emit (e : Event) : respects zipSameClock (emit e).
Proof. apply same_modify. reflexivity. Qed.

Lemma same_fileStreamPush (i : ChanItem) :
  respects zipSameClock (fileStreamPush i).
Proof. apply same_modify. reflexivity. Qed.

Lemma same_giveBack (chunk : Buffer) (n : Z) :
  respects zipSameClock (giveBack chunk n).
Proof. apply same_modify. reflexivity. Qed.

Lemma same_fromStart {A} (m : M Z A) : respects zipSameClock (fromStart m).
Proof. intros s r s' H. injection H as _ <-. reflexivity. Qed.

Lemma same_parseLocalFileHeader : respects zipSameClock _parseLocalFileHeader.
Proof.
  unfold _parseLocalFileHeader.
  same_bind; [apply same_consume|]. intros buffer.
  same_bind; [apply same_fromStart|]. intros [[rawHeader nameLength] extra].
  same_bind; [apply same_consume|]. intros nameBuffer.
  destruct (negb _); [|apply same_ret].
  same_bind; [apply same_consume|]. intros b. apply same_fromStart.
Qed.

Lemma same_readDataDescriptor : respects zipSameClock readDataDescriptor.
Proof.
  unfold readDataDescriptor.
  same_bind; [apply same_consume|]. intros buffer.
  same_bind; [apply same_reading|]. intros sig.
  destruct (_ =? _).
  - same_bind; [apply same_reading|]. intros ?.
    same_bind; [apply same_reading|]. intros ?.
    same_bind; [apply same_reading|]. intros ?. apply same_emit.
  - same_bind; [apply same_giveBack|]. intros _.
    same_bind; [apply same_reading|]. intros ?.
    same_bind; [apply same_reading|]. intros ?.
    same_bind; [apply same_reading|]. intros ?. apply same_emit.
Qed.

Lemma same_checkSignature (startOfFile : bool) (signature : Z) :
  respects zipSameClock (checkSignature startOfFile signature).
Proof.
  unfold checkSignature. destruct startOfFile.
  - destruct (negb _); [apply same_throw|apply same_ret].
  - destruct (_ =? _).
    + same_bind; [apply same_modify; reflexivity|]. intros; apply same_ret.
    + destruct (_ =? _); [apply same_ret|apply same_throw].
Qed.

Section Piping.
Variable I : Inflate.

Lemma piping_refl (p : piping I) : pipingSameClock p p.
Proof. reflexivity. Qed.

Lemma piping_trans (a b c : piping I) :
  pipingSameClock a b -> pipingSameClock b c -> pipingSameClock a c.
Proof. unfold pipingSameClock. congruence. Qed.

Ltac piping_bind := apply (respects_bind pipingSameClock piping_trans).

Lemma piping_ret {A} (a : A) : respects pipingSameClock (@ret (piping I) A a).
Proof. apply respects_ret, piping_refl. Qed.

Lemma piping_modify (f : piping I -> piping I) :
  (forall p, clock (decoder I (f p)) = clock (decoder I p)) ->
  respects pipingSameClock (modify f).
Proof. intros H. apply respects_modify. exact H. Qed.

Lemma piping_lift {A} (m : M state A) :
  respects zipSameClock m -> respects pipingSameClock (lift I m).
Proof.
  intros Hm p r p' H. unfold lift in H.
  destruct (m (decoder I p)) as [o s] eqn:E. injection H as <- <-.
  exact (Hm _ _ _ E).
Qed.

Lemma piping_onData (chunks : list Buffer) :
  respects pipingSameClock (onData I chunks).
Proof.
  induction chunks as [|c rest IH]; [apply piping_ret|]. cbn [onData].
  piping_bind; [apply piping_lift, same_fileStreamPush|]. intros _. exact IH.
Qed.

Lemma piping_onEnd : respects pipingSameClock (onEnd I).
Proof.
  unfold onEnd. piping_bind; [apply piping_lift, same_fileStreamPush|].
  intros _. apply piping_modify. reflexivity.
Qed.

Lemma piping_writeChunk (chunk : Buffer) :
  respects pipingSameClock (writeChunk I chunk).
Proof.
  unfold writeChunk.
  piping_bind; [apply respects_get, piping_refl|]. intros p.
  piping_bind; [apply piping_modify; reflexivity|]. intros _.
  piping_bind; [apply piping_onData|]. intros _.
  piping_bind; [destruct (ended _); [apply piping_onEnd|apply piping_ret]|].
  intros _. destruct (failed _).
  - piping_bind; [apply piping_lift, same_giveBack|]. intros; apply piping_ret.
  - piping_bind; [apply piping_modify; reflexivity|]. intros _.
    destruct (_ <? _); [|apply piping_ret].
    piping_bind; [apply piping_lift, same_giveBack|]. intros; apply piping_ret.
Qed.

Lemma piping_feedLoop (fuel : nat) : respects pipingSameClock (feedLoop I fuel).
Proof.
  induction fuel as [|fuel IH]; [apply respects_outOfFuel, piping_refl|].
  cbn [feedLoop].
  piping_bind; [apply piping_lift, same_consume|]. intros [c|].
  - piping_bind; [apply piping_writeChunk|]. intros [|];
      [apply piping_ret|exact IH].
  - apply respects_throw, piping_refl.
Qed.

Lemma piping_piped (fuel : nat) (compressedSize : JSValue) :
  respects pipingSameClock (piped I fuel compressedSize).
Proof.
  unfold piped. piping_bind.
  - destruct (looseEqZero _); [|apply piping_ret].
    apply (respects_tryCatch pipingSameClock piping_trans);
      [apply piping_feedLoop|intros; apply piping_ret].
  - intros _ p r p' H. unfold awaitEnd in H.
    destruct (endPromise I p); injection H as _ <-; reflexivity.
Qed.

Lemma same_pipeFileStream (fuel : nat) (compressedSize : JSValue) :
  respects zipSameClock (_pipeFileStream I fuel compressedSize).
Proof.
  intros s r s' H. unfold _pipeFileStream in H.
  destruct (piped I fuel compressedSize (Piping I s (createInflateRaw I) 0 None))
    as [o p] eqn:E.
  injection H as _ <-. exact (piping_piped _ _ _ _ _ E).
Qed.

Lemma same_entry (fuel : nat) : respects zipSameClock (entry I fuel).
Proof.
  unfold entry.
  same_bind; [apply same_parseLocalFileHeader|]. intros rawHeader.
  same_bind; [apply same_emit|]. intros _.
  same_bind; [apply same_pipeFileStream|]. intros _.
  destruct (truthy _); [apply same_readDataDescriptor|apply same_ret].
Qed.

Lemma same_workerBody (fuel : nat) (startOfFile : bool) :
  respects zipSameClock (workerBody I fuel startOfFile).
Proof.
  unfold workerBody.
  same_bind; [apply same_consume|]. intros buffer.
  same_bind; [apply same_reading|]. intros signature.
  same_bind; [apply same_checkSignature|]. intros [|]; [|apply same_ret].
  same_bind; [apply same_entry|]. intros; apply same_ret.
Qed.

End Piping.

End ZipClock.

Module ZipExitFacts.
Import Zip.

Lemma zip_workerBody_exit (I : Inflate) (fuel : nat) (startOfFile : bool)
    (s s' : state) :
  workerBody I fuel startOfFile s = (Return false, s') -> ending s' = true.
Proof.
  unfold workerBody. intros H.
  apply bind_return_inv in H as (buffer & s1 & _ & H).
  apply bind_return_inv in H as (signature & s2 & _ & H).
  apply bind_return_inv in H as ([|] & s3 & Hc & H).
  - apply bind_return_inv in H as (u & s4 & _ & H). discriminate.
  - injection H as <-. unfold checkSignature in Hc.
    destruct startOfFile.
    + destruct (negb _); discriminate.
    + destruct (_ =? centralDirectoryFileHeaderSignature).
      * injection Hc as <-. reflexivity.
      * destruct (_ =? _); discriminate.
Qed.

Lemma worker_exit (I : Inflate) (we : nat -> bool) (fuel : nat) :
  forall startOfFile s s',
    _worker I we fuel startOfFile s = (Return tt, s') ->
    ending s' = true
    \/ exists n, clock s' = S n /\ (clock s <= n)%nat /\ we n = true.
Proof.
  induction fuel as [|fuel IH]; intros sof s s' H; [discriminate|].
  cbn [_worker] in H. unfold bind at 1, get in H. unfold bind at 1, modify in H.
  destruct (we (clock s)) eqn:Hwe.
  { injection H as <-. right. exists (clock s).
    split; [reflexivity|]. split; [lia|exact Hwe]. }
  apply bind_return_inv in H as ([|] & s1 & Hb & H).
  - pose proof (ZipClock.same_workerBody _ _ _ _ _ _ Hb) as Hc.
    unfold zipSameClock in Hc. simpl in Hc.
    destruct (IH _ _ _ H) as [He|(n & Hn & Hle & Hw)]; [left; exact He|right].
    exists n. split; [exact Hn|]. split; [lia|exact Hw].
  - injection H as <-. left. eapply zip_workerBody_exit, Hb.
Qed.

End ZipExitFacts.


Module ZipWorkerExtras.
Import Zip ChunkBuffer ChunkBufferFacts StagingBufferFacts ZipWorkerFacts.

(** X21.  A stream whose first four bytes are not the local file header
    signature is refused with 'Invalid Zip archive signature'; nothing
    is emitted. *)
Theorem worker_rejects_a_wrong_first_signature
    (I : Inflate) (we : nat -> bool) (fuel : nat) (s : state) :
  wf (_chunkBuffer s) ->
  4 <= size (_chunkBuffer s) + blen (flat (source s)) ->
  we (clock s) = false ->
  beValue (take 4 (contents (_chunkBuffer s) ++ flat (source s)))
  <> localFileHeaderSignature ->
  exists s',
    _worker I we (S fuel) true s = (Throw InvalidZipSignature, s')
    /\ emitted s' = emitted s.
Proof.
  intros Hwf Hav Hwe Hsig. unfold size in Hav.
  destruct (workerBody_signature I (S fuel) true (tick s) Hwf Hav)
    as (cb' & inc' & E & Hrest).
  eexists. split.
  - cbn [_worker]. unfold bind at 1, get. unfold bind at 1, modify.
    rewrite Hwe. unfold bind at 1. rewrite E. cbn [tick _chunkBuffer source].
    unfold bind at 1, checkSignature.
    apply Z.eqb_neq in Hsig. rewrite Hsig. reflexivity.
  - reflexivity.
Qed.

Lemma worker_rejects_a_wrong_first_signature_witness :
  exists s',
    _worker Stored.inflate (fun _ => false) 1 true
            SignatureDispatchSamples.selfExtracting
    = (Throw InvalidZipSignature, s')
    /\ emitted s' = [].
Proof.
  pose proof (worker_rejects_a_wrong_first_signature Stored.inflate
                (fun _ => false) 0 SignatureDispatchSamples.selfExtracting) as H.
  specialize (H ltac:(reflexivity) ltac:(vm_compute; discriminate)
                ltac:(reflexivity) ltac:(vm_compute; discriminate)).
  exact H.
Defined.

(** X22.  After the first entry, the central directory signature ends the
    decode: the worker calls [this.end()], which marks the stream as
    ended, and returns.  Nothing is emitted for it, and the bytes behind
    the signature are left unread in the staging buffer or in the
    stream. *)
Theorem worker_ends_at_the_central_directory
    (I : Inflate) (we : nat -> bool) (fuel : nat) (s : state) :
  wf (_chunkBuffer s) ->
  4 <= size (_chunkBuffer s) + blen (flat (source s)) ->
  we (clock s) = false ->
  beValue (take 4 (contents (_chunkBuffer s) ++ flat (source s)))
  = centralDirectoryFileHeaderSignature ->
  exists s',
    _worker I we (S fuel) false s = (Return tt, s')
    /\ ending s' = true
    /\ contents (_chunkBuffer s') ++ flat (source s')
       = drop 4 (contents (_chunkBuffer s) ++ flat (source s))
    /\ emitted s' = emitted s.
Proof.
  intros Hwf Hav Hwe Hsig. unfold size in Hav.
  destruct (workerBody_signature I (S fuel) false (tick s) Hwf Hav)
    as (cb' & inc' & E & Hrest).
  eexists. split.
  - cbn [_worker]. unfold bind at 1, get. unfold bind at 1, modify.
    rewrite Hwe. unfold bind at 1. rewrite E. cbn [tick _chunkBuffer source].
    rewrite Hsig. reflexivity.
  - split; [reflexivity|]. split; [exact Hrest|reflexivity].
Qed.

Lemma worker_ends_at_the_central_directory_witness :
  exists s',
    _worker Stored.inflate (fun _ => false) 1 false
            SignatureDispatchSamples.atCentralDirectory
    = (Return tt, s')
    /\ ending s' = true
    /\ contents (_chunkBuffer s') ++ flat (source s') = bytesOf [20; 0; 20; 0]
    /\ emitted s' = [Entry ∅ (Some [End])].
Proof.
  pose proof (worker_ends_at_the_central_directory Stored.inflate
                (fun _ => false) 0
                SignatureDispatchSamples.atCentralDirectory) as H.
  specialize (H ltac:(reflexivity) ltac:(vm_compute; discriminate)
                ltac:(reflexivity) ltac:(vm_compute; reflexivity)).
  exact H.
Defined.

(** X23.  After the first entry, four bytes that are neither the central
    directory signature nor a local file header signature make the
    worker throw 'Zip file not streaming compatible or corrupted' with
    the value read. *)
Theorem worker_rejects_an_unknown_signature
    (I : Inflate) (we : nat -> bool) (fuel : nat) (s : state) :
  wf (_chunkBuffer s) ->
  4 <= size (_chunkBuffer s) + blen (flat (source s)) ->
  we (clock s) = false ->
  let signature :=
    beValue (take 4 (contents (_chunkBuffer s) ++ flat (source s))) in
  signature <> centralDirectoryFileHeaderSignature ->
  signature <> localFileHeaderSignature ->
  exists s',
    _worker I we (S fuel) false s = (Throw (NotStreamingCompatible signature), s')
    /\ emitted s' = emitted s
    /\ ending s' = ending s.
Proof.
  intros Hwf Hav Hwe signature Hc Hl. unfold size in Hav.
  destruct (workerBody_signature I (S fuel) false (tick s) Hwf Hav)
    as (cb' & inc' & E & Hrest).
  eexists. split.
  - cbn [_worker]. unfold bind at 1, get. unfold bind at 1, modify.
    rewrite Hwe. unfold bind at 1. rewrite E. cbn [tick _chunkBuffer source].
    fold signature. unfold bind at 1, checkSignature.
    apply Z.eqb_neq in Hc, Hl. rewrite Hc, Hl. reflexivity.
  - split; reflexivity.
Qed.

Lemma worker_rejects_an_unknown_signature_witness :
  exists s',
    _worker Stored.inflate (fun _ => false) 1 false
            SignatureDispatchSamples.atGarbage
    = (Throw (NotStreamingCompatible 0x01020304), s')
    /\ emitted s' = [Entry ∅ (Some [End])]
    /\ ending s' = false.
Proof.
  pose proof (worker_rejects_an_unknown_signature Stored.inflate
                (fun _ => false) 0 SignatureDispatchSamples.atGarbage) as H.
  specialize (H ltac:(reflexivity) ltac:(vm_compute; discriminate)
                ltac:(reflexivity) ltac:(vm_compute; discriminate)
                ltac:(vm_compute; discriminate)).
  exact H.
Defined.

(** X24.  When fewer than four bytes are buffered or still to come and the
    stream is not ended, the worker waits for a signature, and the wait
    ends in the error 'IO timeout!'; in particular an archive cut before
    its central directory ends like this. *)
Theorem worker_times_out_waiting_for_a_signature
    (I : Inflate) (we : nat -> bool) (fuel : nat) (startOfFile : bool)
    (s : state) :
  wf (_chunkBuffer s) ->
  size (_chunkBuffer s) + blen (flat (source s)) < 4 ->
  we (clock s) = false ->
  exists s',
    _worker I we (S fuel) startOfFile s = (Throw IOTimeout, s')
    /\ emitted s' = emitted s
    /\ ending s' = ending s.
Proof.
  intros Hwf Hav Hwe. unfold size in Hav.
  pose proof (consume_unserved 4 (tick s) Hwf Hav) as E.
  eexists. split.
  - cbn [_worker]. unfold bind at 1, get. unfold bind at 1, modify.
    rewrite Hwe. unfold bind at 1, workerBody. unfold bind at 1.
    rewrite E. reflexivity.
  - split; reflexivity.
Qed.

Lemma worker_times_out_waiting_for_a_signature_witness :
  exists s',
    _worker Stored.inflate (fun _ => false) 1 true
            SignatureDispatchSamples.truncated
    = (Throw IOTimeout, s')
    /\ emitted s' = []
    /\ ending s' = false.
Proof.
  pose proof (worker_times_out_waiting_for_a_signature Stored.inflate
                (fun _ => false) 0 true SignatureDispatchSamples.truncated) as H.
  specialize (H ltac:(reflexivity) ltac:(vm_compute; reflexivity)
                ltac:(reflexivity)).
  exact H.
Defined.

(** X25.  The worker returns only through the central directory signature,
    having marked the stream as ended, or after it observed
    [writableEnded]: in that case the observation it made last, and made
    during this run, was of [writableEnded] being true. *)
Theorem worker_returns_only_at_the_central_directory
    (I : Inflate) (we : nat -> bool) (fuel : nat) (startOfFile : bool)
    (s s' : state) :
  _worker I we fuel startOfFile s = (Return tt, s') ->
  ending s' = true
  \/ exists n, clock s' = S n /\ (clock s <= n)%nat /\ we n = true.
Proof. apply ZipExitFacts.worker_exit. Qed.

Lemma worker_returns_only_at_the_central_directory_witness :
  StallSamples.wholeZipRun.1 = Return tt
  /\ ending StallSamples.wholeZipRun.2 = true.
Proof.
  assert (StallSamples.wholeZipRun.1 = Return tt) as E
    by (vm_compute; reflexivity).
  destruct StallSamples.wholeZipRun as [o s'] eqn:Hrun.
  unfold StallSamples.wholeZipRun in Hrun.
  cbn [fst snd] in E |- *. subst o.
  split; [reflexivity|].
  destruct (worker_returns_only_at_the_central_directory _ _ _ _ _ _ Hrun)
    as [H|(n & _ & _ & H)].
  - exact H.
  - discriminate.
Defined.

End ZipWorkerExtras.

(** ** Local file headers, and PAX headers of size zero *)

Module LocalHeaderFacts.
Import Zip ChunkBuffer ChunkBufferFacts StagingBufferFacts ZipWorkerFacts.

Lemma bind_ret_eq {S A B} (m : M S A) (k : A -> M S B) (s s1 : S) (a : A) :
  m s = (Return a, s1) -> bind m k s = k a s1.
Proof. intros H. unfold bind. rewrite H. reflexivity. Qed.

Lemma leValue_range (l : list byte) :
  0 <= leValue l < 256 ^ Z.of_nat (length l).
Proof.
  induction l as [|b l IH]; [simpl; lia|].
  change (leValue (b :: l)) with (byteZ b + 256 * leValue l).
  pose proof (TarFieldFacts.byteZ_range b).
  replace (Z.of_nat (length (b :: l))) with (Z.succ (Z.of_nat (length l)))
    by (simpl; lia).
  rewrite Z.pow_succ_r by lia. lia.
Qed.

Lemma readValue_two (b : Buffer) (o : Z) :
  0 <= o -> o + 2 <= blen b ->
  readValue (Some b) 2 o
  = (Return (leValue (take 2 (drop (Z.to_nat o) b))), o + 2).
Proof.
  intros H1 H2. unfold readValue, bind, get, modify, reading. cbn [Z.eqb Pos.eqb].
  unfold readUInt16LE. rewrite bytesAt_in_range by lia. reflexivity.
Qed.

Lemma readValue_four (b : Buffer) (o : Z) :
  0 <= o -> o + 4 <= blen b ->
  readValue (Some b) 4 o
  = (Return (leValue (take 4 (drop (Z.to_nat o) b))), o + 4).
Proof.
  intros H1 H2. unfold readValue, bind, get, modify, reading. cbn [Z.eqb Pos.eqb].
  unfold readUInt32LE. rewrite bytesAt_in_range by lia. reflexivity.
Qed.

Lemma flags_fields (v : Z) :
  0 <= v < 65536 ->
  BitField.readBitField v BitField.generalPurposeFlags
  = Return (slices v 0 BitField.generalPurposeFlags).
Proof.
  intros Hv. unfold BitField.readBitField.
  assert ((MAX_SAFE_INTEGER <? v) = false) as ->
    by (apply Z.ltb_ge; unfold MAX_SAFE_INTEGER; lia).
  assert ((v <? MIN_SAFE_INTEGER) = false) as ->
    by (apply Z.ltb_ge; unfold MIN_SAFE_INTEGER; lia).
  apply BitFieldFacts.fields_slices; [|lia].
  repeat constructor; simpl; lia.
Qed.

Lemma two_bytes_range (b : Buffer) (o : nat) :
  0 <= leValue (take 2 (drop o b)) < 65536.
Proof.
  pose proof (leValue_range (take 2 (drop o b))) as H.
  assert (256 ^ Z.of_nat (length (take 2 (drop o b))) <= 256 ^ 2).
  { apply Z.pow_le_mono_r; [lia|]. rewrite length_take. lia. }
  change (256 ^ 2) with 65536 in *. lia.
Qed.

(** The fixed part of a local file header, read from its 26 bytes. *)
Lemma fixed_part (fixed : Buffer) :
  blen fixed = 26 ->
  exists rawHeader,
    (rawHeader <~ fixedFields (Some fixed) ;;
     nameLength <~ readValue (Some fixed) 2 ;;
     extraFieldsTotalSize <~ readValue (Some fixed) 2 ;;
     ret (rawHeader, nameLength, extraFieldsTotalSize)) 0
    = (Return (rawHeader, leValue (take 2 (drop 22 fixed)),
               leValue (take 2 (drop 24 fixed))), 26)
    /\ rawHeader !! "compressedSize"
       = Some (JNumber (leValue (take 4 (drop 14 fixed))))
    /\ rawHeader !! "uncompressedSize"
       = Some (JNumber (leValue (take 4 (drop 18 fixed))))
    /\ rawHeader !! "dataDescriptor"
       = Some (JNumber ((leValue (take 2 (drop 2 fixed)) / 8) mod 2)).
Proof.
  intros Hlen. eexists. split.
  - unfold fixedFields.
    erewrite bind_ret_eq; cycle 1.
    { erewrite bind_ret_eq by (apply readValue_two; lia).
      erewrite bind_ret_eq by (apply readValue_two; lia).
      erewrite bind_ret_eq; cycle 1.
      { unfold liftOutcome. rewrite flags_fields by apply two_bytes_range.
        reflexivity. }
      erewrite bind_ret_eq by (apply readValue_two; lia).
      erewrite bind_ret_eq by (apply readValue_two; lia).
      erewrite bind_ret_eq by (apply readValue_two; lia).
      erewrite bind_ret_eq by (apply readValue_four; lia).
      erewrite bind_ret_eq by (apply readValue_four; lia).
      erewrite bind_ret_eq by (apply readValue_four; lia).
      reflexivity. }
    erewrite bind_ret_eq by (apply readValue_two; lia).
    erewrite bind_ret_eq by (apply readValue_two; lia).
    reflexivity.
  - split; [|split].
    + rewrite lookup_insert_ne by discriminate. apply lookup_insert_eq.
    + apply lookup_insert_eq.
    + do 6 (rewrite lookup_insert_ne by discriminate).
      cbn [BitField.assign slices BitField.generalPurposeFlags fold_left fst snd].
      do 7 (rewrite lookup_insert_ne by discriminate).
      rewrite lookup_insert_eq. reflexivity.
Qed.

Lemma fromStart_eq {A} (m : M Z A) (o : outcome A) (z : Z) (s : state) :
  m 0 = (o, z) -> fromStart m s = (o, s).
Proof. intros H. unfold fromStart. rewrite H. reflexivity. Qed.

Lemma take_drop_take (l : Buffer) (n k m : nat) :
  (k + n <= m)%nat -> take n (drop k (take m l)) = take n (drop k l).
Proof.
  intros H. rewrite !take_drop_commute, take_take.
  replace (Nat.min (k + n) m) with (k + n)%nat by lia. reflexivity.
Qed.

End LocalHeaderFacts.

Module LocalHeaderExtras.
Import Zip ChunkBuffer ChunkBufferFacts StagingBufferFacts ZipWorkerFacts
       LocalHeaderFacts.

(** X26.  A local file header without extra fields and with a name of
    [nameLength > 0] bytes: the 26 fixed bytes give the sizes
    (little-endian, at offsets 14 and 18) and the data descriptor flag
    (bit 3 of the flags at offset 2), the name is the text of the
    [nameLength] bytes that follow, and what comes after the name stays
    in the stream. *)
Theorem parseLocalFileHeader_reads_a_plain_header (s : state) :
  let all := contents (_chunkBuffer s) ++ flat (source s) in
  let nameLength := leValue (take 2 (drop 22 all)) in
  wf (_chunkBuffer s) ->
  0 < nameLength ->
  leValue (take 2 (drop 24 all)) = 0 ->
  26 + nameLength <= blen all ->
  exists rawHeader s',
    _parseLocalFileHeader s = (Return rawHeader, s')
    /\ getProp rawHeader "name"
       = JString (Buffer_toString
                    (take (Z.to_nat nameLength) (drop 26 all)))
    /\ getProp rawHeader "compressedSize"
       = JNumber (leValue (take 4 (drop 14 all)))
    /\ getProp rawHeader "uncompressedSize"
       = JNumber (leValue (take 4 (drop 18 all)))
    /\ getProp rawHeader "dataDescriptor"
       = JNumber ((leValue (take 2 (drop 2 all)) / 8) mod 2)
    /\ contents (_chunkBuffer s') ++ flat (source s')
       = drop (26 + Z.to_nat nameLength) all
    /\ emitted s' = emitted s.
Proof.
  intros all nameLength Hwf Hname Hextra Hlen.
  assert (blen all = _size (_chunkBuffer s) + blen (flat (source s))) as Hall.
  { unfold all. rewrite blen_app. red in Hwf. lia. }
  assert (26 <= _size (_chunkBuffer s) + blen (flat (source s))) as Hav.
  { rewrite <- Hall. clearbody all nameLength. lia. }
  destruct (consume_served 26 s Hwf eq_refl Hav)
    as (cb1 & inc1 & E1 & Hrest1 & Hwf1).
  fold all in E1, Hrest1. change (Z.to_nat 26) with 26%nat in E1, Hrest1.
  assert (blen (take 26 all) = 26) as Hfixed.
  { unfold blen in *. rewrite length_take. lia. }
  destruct (fixed_part (take 26 all) Hfixed) as (raw & Efix & Hc & Hu & Hd).
  rewrite !take_drop_take in Efix by lia.
  rewrite take_drop_take in Hc, Hu, Hd by lia.
  fold nameLength in Efix. rewrite Hextra in Efix.
  set (s1 := setBuffer cb1 inc1 s) in *.
  destruct (consume_served nameLength s1 Hwf1 Hname)
    as (cb2 & inc2 & E2 & Hrest2 & Hwf2).
  { unfold s1. cbn [setBuffer _chunkBuffer source].
    pose proof (f_equal blen Hrest1) as Hb. rewrite blen_app in Hb.
    red in Hwf1. unfold blen in Hb, Hlen, Hwf1 |- *.
    rewrite length_drop in Hb. clearbody all nameLength. lia. }
  unfold s1 in E2, Hrest2. cbn [setBuffer _chunkBuffer source] in E2, Hrest2.
  rewrite Hrest1 in E2, Hrest2.
  eexists _, _. split.
  - unfold _parseLocalFileHeader.
    erewrite bind_ret_eq by exact E1.
    erewrite bind_ret_eq; cycle 1.
    { cbv beta. apply fromStart_eq with (z := 26). exact Efix. }
    cbv beta iota.
    erewrite bind_ret_eq by exact E2.
    reflexivity.
  - unfold s1. cbn [toString setBuffer _chunkBuffer source emitted].
    unfold getProp.
    split; [rewrite lookup_insert_eq; reflexivity|].
    split; [rewrite lookup_insert_ne by discriminate; rewrite Hc; reflexivity|].
    split; [rewrite lookup_insert_ne by discriminate; rewrite Hu; reflexivity|].
    split; [rewrite lookup_insert_ne by discriminate; rewrite Hd; reflexivity|].
    split; [|reflexivity].
    rewrite Hrest2, drop_drop. reflexivity.
Qed.

Lemma parseLocalFileHeader_reads_a_plain_header_witness :
  exists rawHeader s',
    _parseLocalFileHeader HeaderSamples.named = (Return rawHeader, s')
    /\ getProp rawHeader "name" = JString "a"
    /\ getProp rawHeader "compressedSize" = JNumber 0
    /\ getProp rawHeader "dataDescriptor" = JNumber 1
    /\ contents (_chunkBuffer s') ++ flat (source s') = ZipSamples.body.
Proof.
  pose proof (parseLocalFileHeader_reads_a_plain_header HeaderSamples.named)
    as H.
  cbv zeta in H.
  specialize (H ltac:(reflexivity) ltac:(vm_compute; reflexivity)
                ltac:(vm_compute; reflexivity)
                ltac:(vm_compute; discriminate)).
  destruct H as (h & s' & H1 & H2 & H3 & _ & H5 & H6 & _).
  exists h, s'. split; [exact H1|].
  split; [rewrite H2; vm_compute; reflexivity|].
  split; [rewrite H3; vm_compute; reflexivity|].
  split; [rewrite H5; vm_compute; reflexivity|].
  rewrite H6. vm_compute. reflexivity.
Defined.

(** X27.  A local file header that declares an empty name makes the decoder
    call [consume(0)], which takes every byte that is buffered: with more
    than the 26 fixed bytes in the staging buffer, everything behind them
    (the body and the records that follow) becomes the entry's name and
    is gone from the buffer. *)
Theorem parseLocalFileHeader_takes_the_buffer_for_an_empty_name (s : state) :
  let buffered := contents (_chunkBuffer s) in
  wf (_chunkBuffer s) ->
  26 < size (_chunkBuffer s) ->
  leValue (take 2 (drop 22 buffered)) = 0 ->
  leValue (take 2 (drop 24 buffered)) = 0 ->
  exists rawHeader s',
    _parseLocalFileHeader s = (Return rawHeader, s')
    /\ getProp rawHeader "name"
       = JString (Buffer_toString (drop 26 buffered))
    /\ contents (_chunkBuffer s') = []
    /\ source s' = source s.
Proof.
  intros buffered Hwf Hsize Hname Hextra. unfold size in Hsize.
  destruct (consume_buffered 26 true _ (source s) Hwf ltac:(lia))
    as (cb1 & E1 & Hrest1 & Hwf1).
  fold buffered in E1, Hrest1. change (Z.to_nat 26) with 26%nat in E1, Hrest1.
  assert (blen (take 26 buffered) = 26) as Hfixed.
  { unfold blen. rewrite length_take. red in Hwf. fold buffered in Hwf.
    unfold blen in Hwf. lia. }
  destruct (fixed_part (take 26 buffered) Hfixed) as (raw & Efix & _).
  rewrite !take_drop_take in Efix by lia.
  rewrite Hname, Hextra in Efix.
  assert (contents cb1 <> []) as Hne.
  { rewrite Hrest1. intros H. apply (f_equal length) in H.
    rewrite length_drop in H. red in Hwf. fold buffered in Hwf.
    unfold blen in Hwf. simpl in H. lia. }
  eexists _, _. split.
  - unfold _parseLocalFileHeader.
    erewrite bind_ret_eq; cycle 1.
    { unfold Zip.consume. rewrite E1. reflexivity. }
    erewrite bind_ret_eq; cycle 1.
    { cbv beta. apply fromStart_eq with (z := 26). exact Efix. }
    cbv beta iota.
    erewrite bind_ret_eq; cycle 1.
    { unfold Zip.consume. cbn [setBuffer _chunkBuffer source].
      rewrite (consume_zero_all true cb1 (source s) Hwf1 Hne). reflexivity. }
    reflexivity.
  - cbn [toString setBuffer _chunkBuffer source].
    unfold getProp. rewrite lookup_insert_eq, Hrest1.
    split; [reflexivity|]. split; reflexivity.
Qed.

Lemma parseLocalFileHeader_takes_the_buffer_for_an_empty_name_witness :
  exists rawHeader s',
    _parseLocalFileHeader HeaderSamples.nameless = (Return rawHeader, s')
    /\ getProp rawHeader "name"
       = JString (Buffer_toString ZipSamples.body)
    /\ contents (_chunkBuffer s') = [].
Proof.
  pose proof (parseLocalFileHeader_takes_the_buffer_for_an_empty_name
                HeaderSamples.nameless) as H.
  cbv zeta in H.
  specialize (H ltac:(reflexivity) ltac:(vm_compute; reflexivity)
                ltac:(vm_compute; reflexivity)
                ltac:(vm_compute; reflexivity)).
  destruct H as (h & s' & H1 & H2 & H3 & _).
  exists h, s'. split; [exact H1|].
  split; [rewrite H2; vm_compute; reflexivity|exact H3].
Defined.

End LocalHeaderExtras.

Module PaxSizeFacts.
Import Tar ChunkBuffer StagingBufferFacts.

Lemma subarray_nothing (b : Buffer) : subarray b 0 0 = [].
Proof. unfold subarray. rewrite Z.sub_diag. reflexivity. Qed.

Lemma consumeOrThrow_zero (s : state) :
  wf (_chunkBuffer s) -> contents (_chunkBuffer s) <> [] ->
  looseEqFalse (contents (_chunkBuffer s)) = false ->
  consumeOrThrow 0 s
  = (Return (contents (_chunkBuffer s)), setBuffer (Mk [] 0) (source s) s).
Proof.
  intros Hwf Hne Hloose. unfold consumeOrThrow.
  rewrite (consume_zero_all false _ (source s) Hwf Hne), Hloose. reflexivity.
Qed.

End PaxSizeFacts.

Module PaxSizeExtras.
Import Tar ChunkBuffer StagingBufferFacts PaxSizeFacts.

(** X28.  A PAX header of size 0 makes [_parsePaxEntries] call [consume(0)],
    which takes every byte that is buffered: the records behind the
    header are gone from the staging buffer, and the entries parsed are
    the single pair of the empty key and the empty value. *)
Theorem parsePaxEntries_of_size_zero_takes_the_buffer (s : state) :
  wf (_chunkBuffer s) ->
  contents (_chunkBuffer s) <> [] ->
  looseEqFalse (contents (_chunkBuffer s)) = false ->
  exists s',
    _parsePaxEntries (Some 0) s
    = (Return (<[EmptyString := JString EmptyString]> ∅), s')
    /\ contents (_chunkBuffer s') = []
    /\ source s' = source s
    /\ emitted s' = emitted s.
Proof.
  intros Hwf Hne Hloose. eexists. split.
  - change (_parsePaxEntries (Some 0) s)
      with (bind (consumeOrThrow 0)
                 (fun buffer =>
                    ret (paxOfText (TextDecoder_decode (subarray buffer 0 0))))
                 s).
    unfold bind. rewrite (consumeOrThrow_zero s Hwf Hne Hloose).
    rewrite subarray_nothing. reflexivity.
  - repeat split.
Qed.

Lemma parsePaxEntries_of_size_zero_takes_the_buffer_witness :
  exists s',
    _parsePaxEntries (Some 0) HeaderSamples.twoRecords
    = (Return (<[EmptyString := JString EmptyString]> ∅), s')
    /\ contents (_chunkBuffer s') = []
    /\ source s' = []
    /\ emitted s' = [].
Proof.
  pose proof (parsePaxEntries_of_size_zero_takes_the_buffer
                HeaderSamples.twoRecords) as H.
  specialize (H ltac:(reflexivity) ltac:(vm_compute; discriminate)
                ltac:(vm_compute; reflexivity)).
  exact H.
Defined.

End PaxSizeExtras.

(** ** Choosing the release asset *)

Module DownloaderFacts.
Import Downloader.

Lemma checkAssets_match (mustBeFound : gset string) (pre post : list asset)
    (a : asset) (tag w : string) :
  fileName a = w -> Forall (fun b => fileName b <> w) pre ->
  checkAssets mustBeFound (pre ++ a :: post) tag w
  = inl (DownloadInfo (id a) (name a) tag).
Proof.
  intros Ha Hpre. revert mustBeFound.
  induction Hpre as [|b pre Hb _ IH]; intros mustBeFound; cbn [app checkAssets].
  - rewrite bool_decide_eq_true_2 by exact Ha. reflexivity.
  - rewrite bool_decide_eq_false_2 by exact Hb. apply IH.
Qed.

Lemma checkAssets_no_match (l : list asset) (tag w : string) :
  Forall (fun b => fileName b <> w) l ->
  forall mustBeFound : gset string,
    checkAssets mustBeFound l tag w
    = inr (bool_decide
             (size (mustBeFound ∖ list_to_set (map fileName l)) = 0%nat)).
Proof.
  induction 1 as [|b l Hb _ IH]; intros mustBeFound; cbn [checkAssets].
  - cbn [map list_to_set foldr]. rewrite difference_empty_L. reflexivity.
  - rewrite bool_decide_eq_false_2 by exact Hb. rewrite IH.
    rewrite difference_difference_l_L. reflexivity.
Qed.

Lemma both_found (a b : string) (l : list string) :
  ({[a; b]} : gset string) ∖ list_to_set l ≡ ∅ <-> a ∈ l /\ b ∈ l.
Proof.
  rewrite elem_of_equiv_empty. split.
  - intros H. split.
    + destruct (decide (a ∈ l)) as [Hin|Hout]; [exact Hin|].
      exfalso. apply (H a). apply elem_of_difference. split.
      * apply elem_of_union_l, elem_of_singleton. reflexivity.
      * rewrite elem_of_list_to_set. exact Hout.
    + destruct (decide (b ∈ l)) as [Hin|Hout]; [exact Hin|].
      exfalso. apply (H b). apply elem_of_difference. split.
      * apply elem_of_union_r, elem_of_singleton. reflexivity.
      * rewrite elem_of_list_to_set. exact Hout.
  - intros [Ha Hb] x Hx. apply elem_of_difference in Hx as [Hx Hout].
    rewrite elem_of_list_to_set in Hout.
    apply elem_of_union in Hx as [Hx|Hx]; apply elem_of_singleton in Hx;
      subst x; contradiction.
Qed.

End DownloaderFacts.

Module DownloaderExtras.
Import Downloader DownloaderFacts.

(** X29.  [checkRelease] returns the first asset whose name, up to its first
    dot, is the asset wanted, with the tag of the release as version. *)
Theorem checkRelease_returns_the_first_match
    (r : release) (assetWanted : string) (pre post : list asset) (a : asset) :
  assets r = pre ++ a :: post ->
  fileName a = assetWanted ->
  Forall (fun b => fileName b <> assetWanted) pre ->
  checkRelease r assetWanted
  = inl (DownloadInfo (id a) (name a) (tag_name r)).
Proof.
  intros Hr Ha Hpre. unfold checkRelease. rewrite Hr.
  apply checkAssets_match; assumption.
Qed.

Lemma checkRelease_returns_the_first_match_witness :
  checkRelease sampleRelease "minify_linux_amd64"
  = inl (DownloadInfo 12 "minify_linux_amd64.tar.gz" "v2.9.16").
Proof.
  pose proof (checkRelease_returns_the_first_match sampleRelease
                "minify_linux_amd64"
                [Asset 11 "minify_darwin_arm64.tar.gz"]
                [Asset 13 "minify_windows_amd64.zip"]
                (Asset 12 "minify_linux_amd64.tar.gz")) as H.
  specialize (H ltac:(reflexivity) ltac:(reflexivity)
                ltac:(repeat constructor; vm_compute; discriminate)).
  exact H.
Defined.

(** X30.  When no asset has the name wanted, [checkRelease] throws a boolean:
    [true] when the release has assets named [minify_linux_amd64] and
    [minify_windows_amd64] (its format is the supported one, the
    platform is missing), [false] otherwise. *)
Theorem checkRelease_tells_a_missing_platform_from_a_foreign_release
    (r : release) (assetWanted : string) :
  Forall (fun b => fileName b <> assetWanted) (assets r) ->
  exists thrown : bool,
    checkRelease r assetWanted = inr thrown
    /\ (thrown = true
        <-> "minify_linux_amd64" ∈ fileNames r
            /\ "minify_windows_amd64" ∈ fileNames r).
Proof.
  intros Hno. eexists. split.
  - unfold checkRelease. apply checkAssets_no_match, Hno.
  - rewrite bool_decide_eq_true, size_empty_iff. unfold fileNames.
    apply both_found.
Qed.

Lemma checkRelease_tells_a_missing_platform_from_a_foreign_release_witness :
  checkRelease sampleRelease "minify_freebsd_amd64" = inr true.
Proof.
  pose proof (checkRelease_tells_a_missing_platform_from_a_foreign_release
                sampleRelease "minify_freebsd_amd64") as H.
  specialize (H ltac:(repeat constructor; vm_compute; discriminate)).
  destruct H as (thrown & H & Hiff).
  rewrite H. f_equal. apply Hiff.
  split; vm_compute; repeat constructor.
Defined.

End DownloaderExtras.
